(** * Q-learning grid world (qgrid.c): shallow embedding and verified properties

    The C program is embedded function by function.  C [int] values are
    integers of [Z] with the 32-bit wrap-around written out, [float] values
    are IEEE-754 binary32 numbers ([spec_float] at precision 24, maximal
    exponent 128), the Q-table buffer is a list of 32-bit patterns (the
    object representation that [fwrite]/[fread] copy), and the two libc
    services the program relies on but does not define ([rand]/[srand] and
    [expf]) are the fields of a class [Libc].  Definitions come first, the
    theorems about them follow. *)

From Stdlib Require Import ZArith Lia Bool SpecFloat.
From Stdlib Require Import Strings.Byte.
From stdpp Require Import base option list gmap strings.

Local Open Scope Z_scope.

(** ** C integers *)

Definition INT_MAX : Z := 2147483647.
Definition INT_MIN : Z := -2147483648.

(** Result of a signed 32-bit operation whose mathematical value is [z]. *)
Definition wrap_int (z : Z) : Z := (z + 2147483648) mod 4294967296 - 2147483648.

Definition is_int (z : Z) : Prop := INT_MIN <= z <= INT_MAX.

Definition MAX_W : Z := 10.
Definition MAX_H : Z := 10.
Definition ACTIONS : Z := 4.

(** ** C floats

    Every operation rounds its result to binary32, which is what the build
    line of the source ([-std=c11], no contraction) gives on a target that
    evaluates [float] expressions in [float]. *)

Definition float : Type := spec_float.

Definition fadd : float -> float -> float := SFadd 24 128.
Definition fsub : float -> float -> float := SFsub 24 128.
Definition fmul : float -> float -> float := SFmul 24 128.
Definition fdiv : float -> float -> float := SFdiv 24 128.
Definition fneg : float -> float := SFopp.
Definition flt : float -> float -> bool := SFltb.
Definition fle : float -> float -> bool := SFleb.
Definition feq : float -> float -> bool := SFeqb.

(** [(float)z] for a C integer [z]: round to nearest, ties to even. *)
Definition float_of_int (z : Z) : float := binary_normalize 24 128 z 0 false.

Definition fzero : float := S754_zero false.
Definition fone : float := S754_finite false 8388608 (-23).

Definition is_nan (x : float) : bool :=
  match x with S754_nan => true | _ => false end.

(** The sign bit of [x] is clear, or [x] is a NaN. *)
Definition sign_clear (x : float) : bool :=
  match x with
  | S754_zero s | S754_infinity s | S754_finite s _ _ => negb s
  | S754_nan => true
  end.

(** [fmaxf]: a NaN argument is treated as missing data; otherwise the
    larger argument (the first one when neither is smaller). *)
Definition fmaxf (x y : float) : float :=
  if is_nan x then y
  else if is_nan y then x
  else if flt x y then y else x.

(** ** The environment *)

Record Env := mkEnv {
  env_w : Z;
  env_h : Z;
  start_x : Z;
  start_y : Z;
  goal_x : Z;
  goal_y : Z;
  walls : list (list Z);
  step_limit : Z;
  step_reward : float;
  goal_reward : float
}.

Record Pos := mkPos { pos_x : Z; pos_y : Z }.

(** [env->walls[y][x]].  The array has [MAX_H] rows of [MAX_W] cells; the
    program only reads it after the bounds test of [env_valid], so a read
    outside the array (which C leaves undefined) is given the value 0. *)
Definition walls_at (env : Env) (y x : Z) : Z :=
  match walls env !! Z.to_nat y with
  | Some row => default 0 (row !! Z.to_nat x)
  | None => 0
  end.

Definition set_wall (y x : nat) (ws : list (list Z)) : list (list Z) :=
  match ws !! y with
  | Some row => <[y := <[x := 1]> row]> ws
  | None => ws
  end.

Definition clamp (v lo hi : Z) : Z :=
  if v <? lo then lo else if v >? hi then hi else v.

Definition state_id (env : Env) (x y : Z) : Z :=
  wrap_int (wrap_int (y * env_w env) + x).

Definition idxQ (env : Env) (s a : Z) : Z :=
  wrap_int (wrap_int (s * ACTIONS) + a).

Definition env_init (w h : Z) : Env :=
  let blank := replicate (Z.to_nat MAX_H) (replicate (Z.to_nat MAX_W) 0) in
  let ws :=
    if (w >=? 5) && (h >=? 5)
    then set_wall 3 1 (set_wall 3 2 (set_wall 2 2 (set_wall 1 2 blank)))
    else blank in
  {| env_w := w; env_h := h;
     start_x := 0; start_y := 0;
     goal_x := wrap_int (w - 1); goal_y := wrap_int (h - 1);
     walls := ws;
     step_limit := wrap_int (wrap_int (w * h) * 4);
     step_reward := fneg fone;
     goal_reward := float_of_int 10 |}.

Definition env_valid (env : Env) (x y : Z) : bool :=
  if (x <? 0) || (x >=? env_w env) || (y <? 0) || (y >=? env_h env) then false
  else if negb (walls_at env y x =? 0) then false
  else true.

(** [env_step]: the returned triple is the new position together with the
    values stored through the [reward] and [done] out-parameters. *)
Definition env_step (env : Env) (s : Pos) (action : Z) : Pos * float * bool :=
  let ns :=
    if action =? 0 then mkPos (pos_x s) (wrap_int (pos_y s - 1))
    else if action =? 1 then mkPos (wrap_int (pos_x s + 1)) (pos_y s)
    else if action =? 2 then mkPos (pos_x s) (wrap_int (pos_y s + 1))
    else if action =? 3 then mkPos (wrap_int (pos_x s - 1)) (pos_y s)
    else s in
  let ns := if negb (env_valid env (pos_x ns) (pos_y ns)) then s else ns in
  let dn := (pos_x ns =? goal_x env) && (pos_y ns =? goal_y env) in
  let r := if dn then goal_reward env else step_reward env in
  (ns, r, dn).

(** The cell an action points at, in the words of the specification. *)
Definition moved_cell (p : Pos) (a : Z) : Pos :=
  if a =? 0 then mkPos (pos_x p) (pos_y p - 1)
  else if a =? 1 then mkPos (pos_x p + 1) (pos_y p)
  else if a =? 2 then mkPos (pos_x p) (pos_y p + 1)
  else mkPos (pos_x p - 1) (pos_y p).

Definition in_bounds (env : Env) (p : Pos) : Prop :=
  0 <= pos_x p < env_w env /\ 0 <= pos_y p < env_h env.

Definition obstacle (env : Env) (p : Pos) : Prop :=
  walls_at env (pos_y p) (pos_x p) <> 0.

Definition goal (env : Env) : Pos := mkPos (goal_x env) (goal_y env).

(** ** Outcomes

    A C function either returns, ends the process through [exit], or reads
    or writes outside an allocated object.  [Fuel] is the only outcome that
    belongs to the model: a loop ran out of its iteration budget. *)

Inductive res (A : Type) : Type :=
| Val (a : A)
| Exit (code : Z)
| Undef
| Fuel.

Arguments Val {A} a.
Arguments Exit {A} code.
Arguments Undef {A}.
Arguments Fuel {A}.

#[global] Instance res_ret : MRet res := fun A a => Val a.

#[global] Instance res_bind : MBind res := fun A B k c =>
  match c with
  | Val a => k a
  | Exit code => Exit code
  | Undef => Undef
  | Fuel => Fuel
  end.

(** ** Object representation of floats and ints *)

Definition sign_bit (s : bool) : Z := if s then 0x80000000 else 0.

(** The binary32 pattern of a float (NaN is stored as the quiet NaN
    [0x7FC00000]; [spec_float] carries no payload). *)
Definition bits_of_float (x : float) : Z :=
  match x with
  | S754_zero s => sign_bit s
  | S754_infinity s => sign_bit s + 0x7F800000
  | S754_nan => 0x7FC00000
  | S754_finite s m e =>
      sign_bit s +
      (if Z.pos m <? 0x800000 then Z.pos m
       else (e + 150) * 0x800000 + (Z.pos m - 0x800000)) mod 0x80000000
  end.

Definition float_of_bits (b : Z) : float :=
  let s := Z.testbit b 31 in
  let ex := Z.land (Z.shiftr b 23) 0xFF in
  let mant := Z.land b 0x7FFFFF in
  if ex =? 0 then
    (if mant =? 0 then S754_zero s else S754_finite s (Z.to_pos mant) (-149))
  else if ex =? 255 then
    (if mant =? 0 then S754_infinity s else S754_nan)
  else S754_finite s (Z.to_pos (mant + 0x800000)) (ex - 150).

Definition is_word (v : Z) : Prop := 0 <= v < 4294967296.

Definition byte_of_Z (z : Z) : byte :=
  default Byte.x00 (Byte.of_N (Z.to_N (z mod 256))).

Definition Z_of_byte (b : byte) : Z := Z.of_N (Byte.to_N b).

(** The four bytes of a 32-bit pattern in the byte order of the machine,
    taken to be least significant first. *)
Definition word_bytes (v : Z) : list byte :=
  [byte_of_Z v; byte_of_Z (v / 256); byte_of_Z (v / 65536); byte_of_Z (v / 16777216)].

Definition word_of_bytes (b0 b1 b2 b3 : byte) : Z :=
  Z_of_byte b0 + 256 * Z_of_byte b1 + 65536 * Z_of_byte b2 + 16777216 * Z_of_byte b3.

Definition int_bytes (z : Z) : list byte := word_bytes (z mod 4294967296).

Definition int_of_bytes (b0 b1 b2 b3 : byte) : Z := wrap_int (word_of_bytes b0 b1 b2 b3).

(** ** The Q-table *)

Record QModel := mkQModel {
  qm_w : Z;
  qm_h : Z;
  qm_q : list Z
}.

Definition SIZE_MAX : Z := 18446744073709551615.

(** [(size_t)z] for a C integer [z]. *)
Definition size_t_of_int (z : Z) : Z := z mod (SIZE_MAX + 1).

Definition table_size (w h : Z) : Z :=
  size_t_of_int (wrap_int (wrap_int (w * h) * ACTIONS)).

(** [m->q[i]] as an rvalue. *)
Definition q_read (m : QModel) (i : Z) : res float :=
  if i <? 0 then Undef
  else match qm_q m !! Z.to_nat i with
       | Some b => Val (float_of_bits b)
       | None => Undef
       end.

(** [m->q[i] = x]. *)
Definition q_write (m : QModel) (i : Z) (x : float) : res QModel :=
  if i <? 0 then Undef
  else if i <? Z.of_nat (length (qm_q m))
       then Val (mkQModel (qm_w m) (qm_h m) (<[Z.to_nat i := bits_of_float x]> (qm_q m)))
       else Undef.

(** [qmodel_alloc]: [calloc] refuses a request whose byte count does not
    fit in [size_t] (64 bits here); the program then prints "OOM" and
    exits.  Any other request, one of size 0 included, is taken to succeed. *)
Definition qmodel_alloc (w h : Z) : res QModel :=
  let n := table_size w h in
  if n * 4 <=? SIZE_MAX
  then Val (mkQModel w h (replicate (Z.to_nat n) 0))
  else Exit 1.

Fixpoint argmax_scan (m : QModel) (env : Env) (s : Z) (acts : list Z)
    (best : float) (best_a : Z) : res Z :=
  match acts with
  | [] => Val best_a
  | a :: rest =>
      v ← q_read m (idxQ env s a);
      if flt best v then argmax_scan m env s rest v a
      else argmax_scan m env s rest best best_a
  end.

Definition argmax_a (m : QModel) (env : Env) (s : Z) : res Z :=
  best ← q_read m (idxQ env s 0);
  argmax_scan m env s [1; 2; 3] best 0.

Fixpoint maxQ_scan (m : QModel) (env : Env) (s : Z) (acts : list Z)
    (best : float) : res float :=
  match acts with
  | [] => Val best
  | a :: rest =>
      v ← q_read m (idxQ env s a);
      if flt best v then maxQ_scan m env s rest v
      else maxQ_scan m env s rest best
  end.

Definition maxQ (m : QModel) (env : Env) (s : Z) : res float :=
  best ← q_read m (idxQ env s 0);
  maxQ_scan m env s [1; 2; 3] best.

(** The dimensions fit the [walls] array. *)
Definition env_wf (env : Env) : Prop :=
  0 <= env_w env <= MAX_W /\ 0 <= env_h env <= MAX_H.

(** The buffer of [m] has one slot per state and action of [env]. *)
Definition table_fits (env : Env) (m : QModel) : Prop :=
  Z.of_nat (length (qm_q m)) = env_w env * env_h env * ACTIONS.

(** A table as [qmodel_alloc] lays it out: C-int dimensions, an allocation
    request that [calloc] accepts, one 32-bit pattern per slot. *)
Definition qmodel_wf (m : QModel) : Prop :=
  is_int (qm_w m) /\ is_int (qm_h m) /\
  table_size (qm_w m) (qm_h m) * 4 <= SIZE_MAX /\
  Z.of_nat (length (qm_q m)) = table_size (qm_w m) (qm_h m) /\
  Forall is_word (qm_q m).

(** [m'] has the dimensions and buffer size of [m], and 32-bit patterns in
    its slots if [m] has. *)
Definition same_shape (m m' : QModel) : Prop :=
  qm_w m' = qm_w m /\ qm_h m' = qm_h m /\
  length (qm_q m') = length (qm_q m) /\
  (Forall is_word (qm_q m) -> Forall is_word (qm_q m')).

(** ** Persistence *)

(** Files by path; the paths [fopen] refuses in every mode (missing
    directory, no permission at all); and the paths it opens for reading
    but refuses for writing (a read-only file). *)
Record filesys := mkFs {
  fs_files : gmap string (list byte);
  fs_denied : gset string;
  fs_readonly : gset string
}.

(** [fread(&v, sizeof(int), 1, f)]: the value and the rest of the stream, or
    [None] when fewer than four bytes are left. *)
Definition fread_int (bs : list byte) : option (Z * list byte) :=
  match bs with
  | b0 :: b1 :: b2 :: b3 :: rest => Some (int_of_bytes b0 b1 b2 b3, rest)
  | _ => None
  end.

(** [fread(buf, sizeof(float), n, f)]: the complete items read, at most [n]. *)
Fixpoint fread_floats (n : Z) (bs : list byte) : list Z :=
  match bs with
  | b0 :: b1 :: b2 :: b3 :: rest =>
      if n <=? 0 then [] else word_of_bytes b0 b1 b2 b3 :: fread_floats (n - 1) rest
  | _ => []
  end.

(** [save_qtable]: [fopen(path, "wb")] fails on a path that cannot be
    opened at all and on a read-only file; [fwrite] copies [n] floats out of
    the buffer, which is undefined when the buffer holds fewer. *)
Definition save_qtable (fs : filesys) (path : string) (m : QModel) : res filesys :=
  if decide (path ∈ fs_denied fs) then Exit 1
  else if decide (path ∈ fs_readonly fs) then Exit 1
  else
    let n := table_size (qm_w m) (qm_h m) in
    if n <=? Z.of_nat (length (qm_q m))
    then Val (mkFs (<[path := int_bytes (qm_w m) ++ int_bytes (qm_h m) ++
                               flat_map word_bytes (take (Z.to_nat n) (qm_q m))]>
                      (fs_files fs))
                   (fs_denied fs) (fs_readonly fs))
    else Undef.

(** [load_qtable]: [Val None] is "returned 0", [Val (Some m)] is "returned 1
    with [*m] filled in".  [fopen(path, "rb")] fails only on a path that
    cannot be opened at all: a read-only file loads. *)
Definition load_qtable (fs : filesys) (path : string) : res (option QModel) :=
  if decide (path ∈ fs_denied fs) then Val None
  else match fs_files fs !! path with
  | None => Val None
  | Some bs =>
      match fread_int bs with
      | None => Val None
      | Some (w, bs1) =>
          match fread_int bs1 with
          | None => Val None
          | Some (h, bs2) =>
              m ← qmodel_alloc w h;
              let n := table_size w h in
              let items := fread_floats n bs2 in
              if Z.of_nat (length items) =? n
              then Val (Some (mkQModel w h items))
              else Val None
          end
      end
  end.

(** [vj] is a largest element of [vals]. *)
Definition is_max (vals : list float) (vj : float) : Prop :=
  vj ∈ vals /\ forall v, v ∈ vals -> fle v vj = true.

(** ** Greedy evaluation *)

Fixpoint play_loop (fuel : nat) (env : Env) (m : QModel) (s : Pos)
    (ret : float) (steps : Z) : res (float * Z) :=
  match fuel with
  | O => Fuel
  | S fuel' =>
      let sid := state_id env (pos_x s) (pos_y s) in
      a ← argmax_a m env sid;
      let '(ns, r, dn) := env_step env s a in
      let ret' := fadd ret r in
      let steps' := wrap_int (steps + 1) in
      if dn || (steps' >=? step_limit env) then Val (ret', steps')
      else play_loop fuel' env m ns ret' steps'
  end.

(** Episode numbers [1 .. episodes]: the values for which the body of a
    [for (int ep=1; ep<=episodes; ++ep)] runs.  The increment after the last
    of them, which overflows when [episodes = INT_MAX], is accounted for in
    [play_greedy] and [train], where the loops are. *)
Definition episode_indices (episodes : Z) : list Z :=
  map (fun k => Z.of_nat k) (seq 1 (Z.to_nat episodes)).

Fixpoint play_episodes (fuel : nat) (env : Env) (m : QModel) (eps : list Z)
    : res (list (float * Z)) :=
  match eps with
  | [] => Val []
  | _ :: rest =>
      out ← play_loop fuel env m (mkPos (start_x env) (start_y env)) fzero 0;
      outs ← play_episodes fuel env m rest;
      Val (out :: outs)
  end.

(** [play_greedy]: the (return, steps) pair printed for every episode.
    The counter of [for (int ep=1; ep<=episodes; ++ep)] is incremented once
    more after the last episode; with [episodes = INT_MAX] that increment
    overflows. *)
Definition play_greedy (fuel : nat) (env : Env) (m : QModel) (episodes : Z)
    : res (list (float * Z)) :=
  outs ← play_episodes fuel env m (episode_indices episodes);
  if INT_MAX <=? episodes then Undef else Val outs.

(** ** Code that depends on libc: the generator and [expf] *)

(** What the program takes from libc: the process-wide generator behind
    [rand]/[srand], seen as a state, and [expf]. *)
Class Libc := {
  rng : Type;
  RAND_MAX : Z;
  srand : Z -> rng;
  rand : rng -> Z * rng;
  expf : float -> float
}.

(** [rand] returns a value between 0 and [RAND_MAX]. *)
Definition rand_in_range (L : Libc) : Prop :=
  forall g : rng, 0 <= (rand g).1 <= RAND_MAX.

(** What the exploration schedule needs of [expf]: NaN goes to NaN, and an
    argument that is at most 0 goes to a binary32 value between 0 and 1. *)
Definition expf_decays (L : Libc) : Prop :=
  expf S754_nan = S754_nan /\
  forall x, fle x fzero = true ->
    valid_binary 24 128 (expf x) = true /\
    fle fzero (expf x) = true /\ fle (expf x) fone = true.

Section Program.

Context {L : Libc}.

Definition eps_greedy_action (m : QModel) (env : Env) (s : Z) (eps : float)
    (g : rng) : res (Z * rng) :=
  let '(r1, g1) := rand g in
  if flt (fdiv (float_of_int r1) (float_of_int RAND_MAX)) eps then
    let '(r2, g2) := rand g1 in
    Val (Z.rem r2 ACTIONS, g2)
  else
    a ← argmax_a m env s;
    Val (a, g1).

(** One pass through the body of the episode loop of [train], up to and
    including the table update. *)
Definition train_step (env : Env) (m : QModel) (alpha gamma eps : float)
    (s : Pos) (g : rng) : res (QModel * Pos * float * bool * rng) :=
  let s_id := state_id env (pos_x s) (pos_y s) in
  '(a, g1) ← eps_greedy_action m env s_id eps g;
  let '(ns, r, dn) := env_step env s a in
  let ns_id := state_id env (pos_x ns) (pos_y ns) in
  boot ← (if dn then Val fzero
           else (mq ← maxQ m env ns_id; Val (fmul gamma mq)));
  let td_target := fadd r boot in
  old ← q_read m (idxQ env s_id a);
  m' ← q_write m (idxQ env s_id a) (fadd old (fmul alpha (fsub td_target old)));
  Val (m', ns, r, dn, g1).

Fixpoint train_loop (fuel : nat) (env : Env) (alpha gamma eps : float)
    (m : QModel) (s : Pos) (steps : Z) (ret : float) (g : rng)
    : res (QModel * Z * float * rng) :=
  match fuel with
  | O => Fuel
  | S fuel' =>
      '(m', ns, r, dn, g1) ← train_step env m alpha gamma eps s g;
      let ret' := fadd ret r in
      let steps' := wrap_int (steps + 1) in
      if dn || (steps' >=? step_limit env) then Val (m', steps', ret', g1)
      else train_loop fuel' env alpha gamma eps m' ns steps' ret' g1
  end.

(** The exploration rate of episode [ep]. *)
Definition epsilon_at (eps_start eps_min eps_decay : float) (ep : Z) : float :=
  fmaxf eps_min (fmul eps_start (expf (fmul (fneg eps_decay) (float_of_int ep)))).

Fixpoint train_episodes (fuel : nat) (env : Env)
    (alpha gamma eps_start eps_min eps_decay : float)
    (eps : list Z) (m : QModel) (g : rng)
    : res (QModel * rng * list (Z * float)) :=
  match eps with
  | [] => Val (m, g, [])
  | ep :: rest =>
      let e := epsilon_at eps_start eps_min eps_decay ep in
      '(m1, steps, ret, g1) ←
        train_loop fuel env alpha gamma e m
                   (mkPos (start_x env) (start_y env)) 0 fzero g;
      '(m2, g2, log) ←
        train_episodes fuel env alpha gamma eps_start eps_min eps_decay rest m1 g1;
      Val (m2, g2, (steps, ret) :: log)
  end.

(** [train]: the table and generator after the last episode and the
    (steps, return) pair of every episode, which the program feeds into
    its running averages.  Printing and rendering only write to the
    terminal and are left out.  As in [play_greedy], the increment of the
    episode counter after the last episode overflows when
    [episodes = INT_MAX]. *)
Definition train (fuel : nat) (env : Env) (m : QModel) (episodes : Z)
    (alpha gamma eps_start eps_min eps_decay : float) (g : rng)
    : res (QModel * rng * list (Z * float)) :=
  r ← train_episodes fuel env alpha gamma eps_start eps_min eps_decay
                     (episode_indices episodes) m g;
  if INT_MAX <=? episodes then Undef else Val r.

(** The command line after parsing. *)
Record Args := mkArgs {
  train_eps : Z;
  play_eps : Z;
  seed : Z;
  save_path : option string;
  load_path : option string;
  arg_W : Z;
  arg_H : Z;
  arg_alpha : float;
  arg_gamma : float;
  arg_eps_start : float;
  arg_eps_min : float;
  arg_eps_decay : float
}.

(** [main] from the size check (line 266) on, for the parsed command line
    [args]: the file system, the table and the evaluation results at
    normal termination.  [srand] replaces whatever state the generator had
    before. *)
Definition main_run (fuel : nat) (args : Args) (fs : filesys)
    : res (filesys * QModel * list (float * Z)) :=
  let W := arg_W args in
  let H := arg_H args in
  if (W <? 2) || (H <? 2) || (W >? MAX_W) || (H >? MAX_H) then Exit 1
  else
    let g := srand (seed args) in
    let env := env_init W H in
    q ← match load_path args with
         | Some p =>
             r ← load_qtable fs p;
             match r with
             | None => Exit 1
             | Some q =>
                 if negb (qm_w q =? W) || negb (qm_h q =? H) then Exit 1
                 else Val q
             end
         | None => qmodel_alloc W H
         end;
    '(q1, fs1) ←
      (if train_eps args >? 0 then
         '(q', _, _) ← train fuel env q (train_eps args)
                          (arg_alpha args) (arg_gamma args)
                          (arg_eps_start args) (arg_eps_min args)
                          (arg_eps_decay args) g;
         match save_path args with
         | Some p => fs' ← save_qtable fs p q'; Val (q', fs')
         | None => Val (q', fs)
         end
       else Val (q, fs));
    plays ← (if play_eps args >? 0 then play_greedy fuel env q1 (play_eps args)
              else Val []);
    Val (fs1, q1, plays).

End Program.

(** ** The sample generator of the C standard (7.22.2), [RAND_MAX] = 32767 *)

Definition ansi_srand (seed : Z) : Z := seed mod 4294967296.

Definition ansi_rand (next : Z) : Z * Z :=
  let next' := (next * 1103515245 + 12345) mod (SIZE_MAX + 1) in
  (((next' / 65536) mod 4294967296) mod 32768, next').

(** A stand-in for [expf] that can be evaluated: (1 + x/1024)^1024, kept
    inside [0,1] for arguments that are at most 0. *)
Definition expf_sample (x : float) : float :=
  if is_nan x then S754_nan
  else
    let v := Nat.iter 10 (fun v => fmul v v) (fadd fone (fdiv x (float_of_int 1024))) in
    if fle x fzero
    then (if valid_binary 24 128 v && fle fzero v && fle v fone then v else fzero)
    else v.

Definition ansi_libc : Libc :=
  {| rng := Z; RAND_MAX := 32767; srand := ansi_srand; rand := ansi_rand;
     expf := expf_sample |}.

(** ** Sample inputs: the defaults of [main] *)

Definition demo_env : Env := env_init 5 5.
Definition demo_table : QModel := mkQModel 5 5 (replicate 100 0).
Definition demo_alpha : float := float_of_bits 0x3DCCCCCD.
Definition demo_gamma : float := float_of_bits 0x3F7D70A4.
Definition demo_eps_min : float := float_of_bits 0x3D4CCCCD.
Definition demo_eps_decay : float := float_of_bits 0x3B23D70A.

Definition demo_small : QModel :=
  mkQModel 1 1 [0x3F800000; 0; 0x41200000; 0xBF800000].
Definition demo_fs : filesys := mkFs ∅ ∅ ∅.
Definition demo_path : string := "qtable.bin".

(** The file [save_qtable] writes for [demo_small]. *)
Definition demo_saved_fs : filesys :=
  mkFs {[ demo_path := int_bytes 1 ++ int_bytes 1 ++ flat_map word_bytes (qm_q demo_small) ]}
       ∅ ∅.

(** A run of [main] on the default 5x5 grid that loads [demo_path]. *)
Definition demo_load_args : Args :=
  mkArgs 0 1 42 None (Some demo_path) 5 5 demo_alpha demo_gamma fone
         demo_eps_min demo_eps_decay.

(** A file whose header announces a 2x2 table and which holds one float. *)
Definition demo_truncated_fs : filesys :=
  mkFs {[ demo_path := int_bytes 2 ++ int_bytes 2 ++ word_bytes 0x3F800000 ]} ∅ ∅.


(** ** The command line *)

(** The conversions [main] takes from libc for its arguments. *)
Class Strconv := {
  atoi : string -> Z;
  strtof : string -> float
}.

(** The variables of [main] before the argument loop; [now] is the value
    of [time(NULL)].  [render_flag] and [render_every] only steer what is
    printed and have no field. *)
Definition default_args (now : Z) : Args :=
  mkArgs 0 0 (now mod 4294967296) None None 5 5 demo_alpha demo_gamma fone
         demo_eps_min demo_eps_decay.

Definition set_train_eps (v : Z) (o : Args) : Args :=
  mkArgs v (play_eps o) (seed o) (save_path o) (load_path o) (arg_W o) (arg_H o)
         (arg_alpha o) (arg_gamma o) (arg_eps_start o) (arg_eps_min o) (arg_eps_decay o).

Definition set_play_eps (v : Z) (o : Args) : Args :=
  mkArgs (train_eps o) v (seed o) (save_path o) (load_path o) (arg_W o) (arg_H o)
         (arg_alpha o) (arg_gamma o) (arg_eps_start o) (arg_eps_min o) (arg_eps_decay o).

Definition set_seed (v : Z) (o : Args) : Args :=
  mkArgs (train_eps o) (play_eps o) v (save_path o) (load_path o) (arg_W o) (arg_H o)
         (arg_alpha o) (arg_gamma o) (arg_eps_start o) (arg_eps_min o) (arg_eps_decay o).

Definition set_save_path (v : string) (o : Args) : Args :=
  mkArgs (train_eps o) (play_eps o) (seed o) (Some v) (load_path o) (arg_W o) (arg_H o)
         (arg_alpha o) (arg_gamma o) (arg_eps_start o) (arg_eps_min o) (arg_eps_decay o).

Definition set_load_path (v : string) (o : Args) : Args :=
  mkArgs (train_eps o) (play_eps o) (seed o) (save_path o) (Some v) (arg_W o) (arg_H o)
         (arg_alpha o) (arg_gamma o) (arg_eps_start o) (arg_eps_min o) (arg_eps_decay o).

Definition set_size (w h : Z) (o : Args) : Args :=
  mkArgs (train_eps o) (play_eps o) (seed o) (save_path o) (load_path o) w h
         (arg_alpha o) (arg_gamma o) (arg_eps_start o) (arg_eps_min o) (arg_eps_decay o).

Definition set_alpha (v : float) (o : Args) : Args :=
  mkArgs (train_eps o) (play_eps o) (seed o) (save_path o) (load_path o) (arg_W o) (arg_H o)
         v (arg_gamma o) (arg_eps_start o) (arg_eps_min o) (arg_eps_decay o).

Definition set_gamma (v : float) (o : Args) : Args :=
  mkArgs (train_eps o) (play_eps o) (seed o) (save_path o) (load_path o) (arg_W o) (arg_H o)
         (arg_alpha o) v (arg_eps_start o) (arg_eps_min o) (arg_eps_decay o).

Definition set_eps_start (v : float) (o : Args) : Args :=
  mkArgs (train_eps o) (play_eps o) (seed o) (save_path o) (load_path o) (arg_W o) (arg_H o)
         (arg_alpha o) (arg_gamma o) v (arg_eps_min o) (arg_eps_decay o).

Definition set_eps_min (v : float) (o : Args) : Args :=
  mkArgs (train_eps o) (play_eps o) (seed o) (save_path o) (load_path o) (arg_W o) (arg_H o)
         (arg_alpha o) (arg_gamma o) (arg_eps_start o) v (arg_eps_decay o).

Definition set_eps_decay (v : float) (o : Args) : Args :=
  mkArgs (train_eps o) (play_eps o) (seed o) (save_path o) (load_path o) (arg_W o) (arg_H o)
         (arg_alpha o) (arg_gamma o) (arg_eps_start o) (arg_eps_min o) v.

(** How [main] ends with status 0: after printing the usage text (line
    262), or at its end (line 306) with the file system, the table and the
    evaluation results. *)
Inductive outcome : Type :=
| Helped
| Ran (fs : filesys) (q : QModel) (plays : list (float * Z)).

Section Entry.

Context {L : Libc} {C : Strconv}.

(** The argument loop of [main] (lines 233-264) on the arguments from
    [argv[i]] on: [None] when [--help] is met, the variables after the loop
    otherwise.  An option that lacks its value (or, for [--size], its two
    values) matches no branch and is skipped like an unknown word. *)
Fixpoint parse_args (argv : list string) (o : Args) : option Args :=
  match argv with
  | [] => Some o
  | a :: rest =>
      match rest with
      | v :: rest1 =>
          if String.eqb a "--train" then parse_args rest1 (set_train_eps (atoi v) o)
          else if String.eqb a "--play" then parse_args rest1 (set_play_eps (atoi v) o)
          else if String.eqb a "--render" then parse_args rest o
          else if String.eqb a "--render-every" then parse_args rest1 o
          else if String.eqb a "--save" then parse_args rest1 (set_save_path v o)
          else if String.eqb a "--load" then parse_args rest1 (set_load_path v o)
          else if String.eqb a "--seed"
               then parse_args rest1 (set_seed (atoi v mod 4294967296) o)
          else if String.eqb a "--size" then
            match rest1 with
            | v2 :: rest2 => parse_args rest2 (set_size (atoi v) (atoi v2) o)
            | [] => parse_args rest o
            end
          else if String.eqb a "--alpha" then parse_args rest1 (set_alpha (strtof v) o)
          else if String.eqb a "--gamma" then parse_args rest1 (set_gamma (strtof v) o)
          else if String.eqb a "--eps-start"
               then parse_args rest1 (set_eps_start (strtof v) o)
          else if String.eqb a "--eps-min" then parse_args rest1 (set_eps_min (strtof v) o)
          else if String.eqb a "--eps-decay"
               then parse_args rest1 (set_eps_decay (strtof v) o)
          else if String.eqb a "--help" then None
          else parse_args rest o
      | [] =>
          if String.eqb a "--help" then None else Some o
      end
  end.

(** [main]: [argv] with the program name first, [now] the value of
    [time(NULL)]. *)
Definition main (fuel : nat) (argv : list string) (now : Z) (fs : filesys)
    : res outcome :=
  match parse_args (tail argv) (default_args now) with
  | None => Val Helped
  | Some args =>
      '(fs', q, plays) ← main_run fuel args fs;
      Val (Ran fs' q plays)
  end.

End Entry.

(** Stand-ins for [atoi] and [strtof] that can be evaluated: an optional
    minus sign and decimal digits, nothing else. *)
Fixpoint digits_value (s : string) (acc : Z) : Z :=
  match s with
  | EmptyString => acc
  | String c rest =>
      let d := Z.of_N (Ascii.N_of_ascii c) - 48 in
      if (0 <=? d) && (d <=? 9) then digits_value rest (10 * acc + d) else acc
  end.

Definition atoi_sample (s : string) : Z :=
  match s with
  | String c rest =>
      if (Ascii.N_of_ascii c =? 45)%N then wrap_int (- digits_value rest 0)
      else wrap_int (digits_value s 0)
  | EmptyString => 0
  end.

Definition strtof_sample (s : string) : float := float_of_int (atoi_sample s).

Definition ansi_strconv : Strconv :=
  {| atoi := atoi_sample; strtof := strtof_sample |}.

(** Two argument records that differ at most in the seed, and two results
    of the argument loop that do. *)
Definition same_but_seed (a b : Args) : Prop := set_seed 0 a = set_seed 0 b.

Definition agree_but_seed (x y : option Args) : Prop :=
  match x, y with
  | Some a, Some b => same_but_seed a b
  | None, None => True
  | _, _ => False
  end.

(** ** Walking the grid *)

(** The sizes [main] accepts. *)
Definition size_ok (W H : Z) : Prop := 2 <= W <= MAX_W /\ 2 <= H <= MAX_H.

(** The cell reached from [p] by taking the actions of [acts] in turn. *)
Fixpoint walk (env : Env) (p : Pos) (acts : list Z) : Pos :=
  match acts with
  | [] => p
  | a :: rest => walk env (env_step env p a).1.1 rest
  end.

(** The action that points the other way: up and down, right and left. *)
Definition opposite (a : Z) : Z := (a + 2) mod 4.

(** ** The episode loops without their exit test *)

(** The position after [k] passes through the body of the episode loop of
    [play_greedy]. *)
Fixpoint greedy_pos (env : Env) (m : QModel) (s : Pos) (k : nat) : res Pos :=
  match k with
  | O => Val s
  | S k' =>
      a ← argmax_a m env (state_id env (pos_x s) (pos_y s));
      greedy_pos env m (env_step env s a).1.1 k'
  end.

(** The table, the position and the generator after [k] passes through the
    body of the episode loop of [train]. *)
Fixpoint train_steps `{L : Libc} (k : nat) (env : Env) (alpha gamma eps : float)
    (m : QModel) (s : Pos) (g : rng) : res (QModel * Pos * rng) :=
  match k with
  | O => Val (m, s, g)
  | S k' =>
      '(m', ns, _, _, g1) ← train_step env m alpha gamma eps s g;
      train_steps k' env alpha gamma eps m' ns g1
  end.

(** ** The return of an episode *)

(** [k] times [ret += step_reward], starting from [0.0f]. *)
Definition acc_return (env : Env) (k : nat) : float :=
  Nat.iter k (fun r => fadd r (step_reward env)) fzero.

(** The return of an episode of [steps] steps, accumulated the way [train]
    and [play_greedy] do it: every step but the last adds [step_reward],
    the last one adds [goal_reward] when it reached the goal. *)
Definition episode_return (env : Env) (steps : Z) (reached : bool) : float :=
  fadd (acc_return env (Z.to_nat (steps - 1)))
       (if reached then goal_reward env else step_reward env).

#[local] Instance float_eq_dec : EqDecision float.
Proof. unfold float. solve_decision. Defined.

(** ** Drawing the grid *)

(** [0; 1; ...; n-1]: the values the counter of a
    [for (int i=0; i<n; ++i)] loop takes. *)
Definition upto (n : Z) : list Z := map Z.of_nat (seq 0 (Z.to_nat n)).

Definition newline : byte := Byte.x0a.

(** The character [render] chooses for the cell at column [x] of row [y]. *)
Definition render_cell (env : Env) (agent : Pos) (x y : Z) : byte :=
  let c := "."%byte in
  let c := if negb (walls_at env y x =? 0) then "#"%byte else c in
  let c := if (x =? goal_x env) && (y =? goal_y env) then "G"%byte else c in
  let c := if (x =? pos_x agent) && (y =? pos_y agent) then "A"%byte else c in
  if (x =? start_x env) && (y =? start_y env)
  then (if Byte.eqb c "A" then "A"%byte else "S"%byte)
  else c.

(** One row: every cell followed by a space, then a newline. *)
Definition render_row (env : Env) (agent : Pos) (y : Z) : list byte :=
  flat_map (fun x => [render_cell env agent x y; " "%byte]) (upto (env_w env)) ++ [newline].

(** [render]: the bytes written to the terminal.  The loops index [walls]
    without a bounds test, so a grid with at least one cell that is wider or
    taller than the array reads outside it. *)
Definition render (env : Env) (agent : Pos) : res (list byte) :=
  if (0 <? env_w env) && (0 <? env_h env) &&
     ((MAX_W <? env_w env) || (MAX_H <? env_h env))
  then Undef
  else Val (flat_map (render_row env agent) (upto (env_h env))).

(** ** Training statistics *)

(** The running averages of [train] are kept in [double]: binary64. *)
Definition double : Type := spec_float.

Definition dadd : double -> double -> double := SFadd 53 1024.
Definition ddiv : double -> double -> double := SFdiv 53 1024.
Definition double_of_int (z : Z) : double := binary_normalize 53 1024 z 0 false.

(** Every binary32 number is a binary64 number; the conversion keeps it. *)
Definition double_of_float (x : float) : double := x.

Definition dzero : double := S754_zero false.

(** The statistics lines [train] prints, as (episode, avg_len, avg_return)
    triples, from the (steps, return) pairs of the episodes.  [ep] is the
    number of the first episode of [log]; [avg_len] and [avg_ret] are the
    two accumulators. *)
Fixpoint train_report (ep : Z) (avg_len avg_ret : double) (log : list (Z * float))
    : list (Z * double * double) :=
  match log with
  | [] => []
  | (steps, ret) :: rest =>
      let avg_len := dadd avg_len (double_of_int steps) in
      let avg_ret := dadd avg_ret (double_of_float ret) in
      if Z.rem ep 100 =? 0
      then (ep, ddiv avg_len (double_of_int 100), ddiv avg_ret (double_of_int 100))
           :: train_report (wrap_int (ep + 1)) dzero dzero rest
      else train_report (wrap_int (ep + 1)) avg_len avg_ret rest
  end.

(** The two averages over a block of episodes, summed from zero in order. *)
Definition block_stats (block : list (Z * float)) : double * double :=
  (ddiv (foldl (fun acc sr => dadd acc (double_of_int sr.1)) dzero block) (double_of_int 100),
   ddiv (foldl (fun acc sr => dadd acc (double_of_float sr.2)) dzero block) (double_of_int 100)).

(** ** Sample inputs: a 2x2 grid trained for 100 episodes *)

Definition demo_grid : Env := env_init 2 2.
Definition demo_blank : QModel := mkQModel 2 2 (replicate 16 0).

Definition demo_training : res (QModel * Z * list (Z * float)) :=
  train (L := ansi_libc) 16 demo_grid demo_blank 100 demo_alpha demo_gamma fone
        demo_eps_min demo_eps_decay (ansi_srand 42).

(** The table, the generator state and the log that [demo_training] ends with. *)
Definition demo_trained : QModel * Z * list (Z * float) :=
  Eval vm_compute in
    match demo_training return QModel * Z * list (Z * float) with
    | Val r => r
    | _ => (demo_blank, 0, [])
    end.

(** [./qgrid --play 1] on the default grid. *)
Definition demo_play_args : Args :=
  mkArgs 0 1 42 None None 5 5 demo_alpha demo_gamma fone demo_eps_min demo_eps_decay.

(** [./qgrid --size 2 2 --train 1 --play 1 --save qtable.bin], and the
    second run [./qgrid --size 2 2 --load qtable.bin --play 1]. *)
Definition demo_train_args : Args :=
  mkArgs 1 1 42 (Some demo_path) None 2 2 demo_alpha demo_gamma fone
         demo_eps_min demo_eps_decay.

(** A file system in which [demo_path] cannot be opened. *)
Definition demo_denied_fs : filesys := mkFs ∅ {[ demo_path ]} ∅.

(** A header that announces a table of -1 x 1 cells. *)
Definition demo_negative_fs : filesys :=
  mkFs {[ demo_path := int_bytes (-1) ++ int_bytes 1 ++ [] ]} ∅ ∅.

(** The file of [demo_small] followed by three more bytes. *)
Definition demo_padded_fs : filesys :=
  mkFs {[ demo_path := int_bytes 1 ++ int_bytes 1 ++ flat_map word_bytes (qm_q demo_small)
                         ++ [Byte.x01; Byte.x02; Byte.x03] ]} ∅ ∅.


(** A header of 65536 x 65536 cells followed by no value at all. *)
Definition demo_wrapped_fs : filesys :=
  mkFs {[ demo_path := int_bytes 65536 ++ int_bytes 65536 ]} ∅ ∅.

(** A header of 1073741825 x 1 cells followed by four values. *)
Definition demo_wrapped_four_fs : filesys :=
  mkFs {[ demo_path := int_bytes 1073741825 ++ int_bytes 1 ++
                         flat_map word_bytes (qm_q demo_small) ]} ∅ ∅.

(** The file of [demo_small], which can be read and cannot be written. *)
Definition demo_readonly_fs : filesys :=
  mkFs {[ demo_path := int_bytes 1 ++ int_bytes 1 ++ flat_map word_bytes (qm_q demo_small) ]}
       ∅ {[ demo_path ]}.

(** Command lines; [argv[0]] is the program's name. *)
Definition demo_play_argv : list string := ["qgrid"; "--play"; "1"].
Definition demo_load_argv : list string := ["qgrid"; "--load"; "qtable.bin"; "--play"; "1"].
Definition demo_train_argv : list string :=
  ["qgrid"; "--size"; "2"; "2"; "--train"; "1"; "--play"; "1"; "--save"; "qtable.bin"].
Definition demo_help_argv : list string := ["qgrid"; "--size"; "11"; "11"; "--help"].
Definition demo_seed_argv : list string :=
  ["qgrid"; "--seed"; "42"; "--size"; "2"; "2"; "--train"; "100"].
Definition demo_unseeded_argv : list string := ["qgrid"; "--size"; "2"; "2"; "--train"; "2"].

(** What [demo_seed_argv] asks for, and the same training followed by one
    greedy episode. *)
Definition demo_seed_args : Args :=
  mkArgs 100 0 42 None None 2 2 demo_alpha demo_gamma fone demo_eps_min demo_eps_decay.
Definition demo_seed_play_args : Args :=
  mkArgs 100 1 42 None None 2 2 demo_alpha demo_gamma fone demo_eps_min demo_eps_decay.

(** The greedy episode on the grid of [demo_grid] with the trained table. *)
Definition demo_trained_play : list (float * Z) :=
  Eval vm_compute in
    match play_greedy 16 demo_grid demo_trained.1.1 1 return list (float * Z) with
    | Val p => p
    | _ => []
    end.
(** ** Outcomes *)

Lemma bind_Val {A B : Type} (a : A) (k : A -> res B) : (Val a ≫= k) = k a.
Proof. reflexivity. Qed.

Lemma bind_Val_inv {A B : Type} (c : res A) (k : A -> res B) b :
  (c ≫= k) = Val b -> exists a, c = Val a /\ k a = Val b.
Proof.
  destruct c as [a| | |]; try discriminate.
  intros E. exists a. split; [reflexivity | exact E].
Qed.

(** ** Order on floats *)

Ltac cmp_cases :=
  repeat match goal with
  | H : context [Pos.compare_cont Eq ?a ?b] |- _ =>
      change (Pos.compare_cont Eq a b) with (Pos.compare a b) in H;
      destruct (Pos.compare_spec a b)
  | |- context [Pos.compare_cont Eq ?a ?b] =>
      change (Pos.compare_cont Eq a b) with (Pos.compare a b);
      destruct (Pos.compare_spec a b)
  | H : context [Z.compare ?a ?b] |- _ => destruct (Z.compare_spec a b)
  | |- context [Z.compare ?a ?b] => destruct (Z.compare_spec a b)
  end.

Ltac float_order :=
  unfold flt, fle, feq, SFltb, SFleb, SFeqb, is_nan; intros;
  repeat match goal with x : float |- _ => destruct x as [[]|[]| |[] ? ?] end;
  simpl in *; try congruence; try reflexivity;
  cmp_cases; simpl in *; try congruence; try reflexivity; try lia.

Lemma flt_irrefl x : flt x x = false.
Proof. float_order. Qed.
Lemma fle_total x y : is_nan x = false -> is_nan y = false -> flt x y = false -> fle y x = true.
Proof. float_order. Qed.
Lemma flt_fle x y : flt x y = true -> fle x y = true.
Proof. float_order. Qed.
Lemma fle_trans x y z : fle x y = true -> fle y z = true -> fle x z = true.
Proof. float_order. Qed.
Lemma flt_fle_trans x y z : flt x y = true -> fle y z = true -> flt x z = true.
Proof. float_order. Qed.
Lemma fle_flt_trans x y z : fle x y = true -> flt y z = true -> flt x z = true.
Proof. float_order. Qed.
Lemma fle_not_nan x y : fle x y = true -> is_nan x = false /\ is_nan y = false.
Proof. float_order; split; reflexivity. Qed.
Lemma fle_refl x : is_nan x = false -> fle x x = true.
Proof. float_order. Qed.
Lemma fle_not_flt x y : fle x y = true -> flt y x = false.
Proof. float_order. Qed.

(** ** Properties of the transition function *)

Lemma wrap_int_id z : is_int z -> wrap_int z = z.
Proof.
  unfold is_int, wrap_int, INT_MIN, INT_MAX. intros Hz.
  rewrite Z.mod_small; lia.
Qed.

Lemma env_valid_iff env x y :
  env_valid env x y = true <->
  (0 <= x < env_w env /\ 0 <= y < env_h env) /\ walls_at env y x = 0.
Proof.
  unfold env_valid.
  destruct (x <? 0) eqn:E1, (x >=? env_w env) eqn:E2,
           (y <? 0) eqn:E3, (y >=? env_h env) eqn:E4; simpl;
    try (split; [discriminate | lia]).
  destruct (walls_at env y x =? 0) eqn:E5; simpl; split; try discriminate; try lia.
Qed.

Lemma env_valid_in_bounds env p :
  env_valid env (pos_x p) (pos_y p) = true <-> in_bounds env p /\ ~ obstacle env p.
Proof.
  rewrite env_valid_iff. unfold in_bounds, obstacle. split.
  - intros [? ?]. split; [assumption | lia].
  - intros [? Hn]. split; [assumption|].
    destruct (Z.eq_dec (walls_at env (pos_y p) (pos_x p)) 0); [assumption | contradiction].
Qed.

Lemma moved_cell_no_wrap env p a :
  is_int (env_w env) -> is_int (env_h env) ->
  env_valid env (pos_x p) (pos_y p) = true -> 0 <= a <= 3 ->
  (if a =? 0 then mkPos (pos_x p) (wrap_int (pos_y p - 1))
   else if a =? 1 then mkPos (wrap_int (pos_x p + 1)) (pos_y p)
   else if a =? 2 then mkPos (pos_x p) (wrap_int (pos_y p + 1))
   else if a =? 3 then mkPos (wrap_int (pos_x p - 1)) (pos_y p)
   else p) = moved_cell p a.
Proof.
  intros Hw Hh Hv Ha. apply env_valid_iff in Hv as [[Hx Hy] _].
  unfold moved_cell, is_int, INT_MIN, INT_MAX in *.
  assert (a = 0 \/ a = 1 \/ a = 2 \/ a = 3) as [->|[->|[->| ->]]] by lia; simpl;
    rewrite wrap_int_id by (unfold is_int, INT_MIN, INT_MAX; lia); reflexivity.
Qed.

(** C1. For a valid position [p] and an action in 0..3, [env_step] looks at
    the moved-to cell (up: y-1, right: x+1, down: y+1, left: x-1); it
    returns that cell when it is in bounds and free and returns [p]
    unchanged when the cell is out of bounds or an obstacle; [done] holds
    exactly when the returned position is the goal cell; the reward is
    [goal_reward] when done and [step_reward] otherwise, bumps included. *)
Theorem env_step_spec env p a :
  is_int (env_w env) -> is_int (env_h env) ->
  env_valid env (pos_x p) (pos_y p) = true ->
  0 <= a <= 3 ->
  let m := moved_cell p a in
  let '(ns, r, dn) := env_step env p a in
  (in_bounds env m /\ ~ obstacle env m -> ns = m) /\
  (~ in_bounds env m \/ obstacle env m -> ns = p) /\
  (dn = true <-> ns = goal env) /\
  r = (if dn then goal_reward env else step_reward env).
Proof.
  intros Hw Hh Hv Ha m. unfold env_step.
  rewrite (moved_cell_no_wrap env p a Hw Hh Hv Ha). fold m.
  pose proof (env_valid_in_bounds env m) as Hm.
  destruct (env_valid env (pos_x m) (pos_y m)) eqn:Em; simpl.
  - repeat split.
    + intros [Hn | Ho]; destruct Hm as [Hm _]; destruct (Hm eq_refl); contradiction.
    + intros Hd. apply andb_true_iff in Hd as [H1 H2].
      apply Z.eqb_eq in H1, H2. unfold goal. destruct m; simpl in *; congruence.
    + intros ->. unfold goal; simpl. rewrite !Z.eqb_refl. reflexivity.
  - repeat split.
    + intros Hb. destruct Hm as [_ Hm]. specialize (Hm Hb). discriminate.
    + intros Hd. apply andb_true_iff in Hd as [H1 H2].
      apply Z.eqb_eq in H1, H2. unfold goal. destruct p; simpl in *; congruence.
    + intros ->. unfold goal; simpl. rewrite !Z.eqb_refl. reflexivity.
Qed.

Lemma env_step_keeps_valid env p a :
  env_valid env (pos_x p) (pos_y p) = true ->
  let ns := (env_step env p a).1.1 in
  env_valid env (pos_x ns) (pos_y ns) = true.
Proof.
  intros Hv. unfold env_step. simpl.
  match goal with |- context [negb (env_valid env (pos_x ?c) (pos_y ?c))] =>
    destruct (env_valid env (pos_x c) (pos_y c)) eqn:E end; simpl; assumption.
Qed.

(** C5. Validity of the agent's position is preserved by [env_step]: from an
    in-bounds, free cell every action leads to an in-bounds, free cell, which
    is either the moved-to cell or the original one. *)
Theorem env_step_valid env p a :
  is_int (env_w env) -> is_int (env_h env) ->
  in_bounds env p -> ~ obstacle env p ->
  0 <= a <= 3 ->
  let ns := (env_step env p a).1.1 in
  (in_bounds env ns /\ ~ obstacle env ns) /\ (ns = moved_cell p a \/ ns = p).
Proof.
  intros Hw Hh Hb Ho Ha ns.
  assert (Hv : env_valid env (pos_x p) (pos_y p) = true)
    by (apply env_valid_in_bounds; split; assumption).
  split.
  - apply env_valid_in_bounds. apply env_step_keeps_valid. exact Hv.
  - subst ns. unfold env_step.
    rewrite (moved_cell_no_wrap env p a Hw Hh Hv Ha).
    destruct (env_valid env (pos_x (moved_cell p a)) (pos_y (moved_cell p a)));
      simpl; [left | right]; reflexivity.
Qed.

(** ** The greedy action *)

Create HintDb forder.
#[local] Hint Resolve flt_fle fle_total fle_refl fle_trans flt_fle_trans fle_flt_trans : forder.

Lemma flt_trans x y z : flt x y = true -> flt y z = true -> flt x z = true.
Proof. intros H1 H2. eapply flt_fle_trans; [exact H1 | apply flt_fle, H2]. Qed.

Lemma flt_feq_r x y z : flt x y = true -> feq z y = true -> flt x z = true.
Proof. float_order. Qed.

(** Closes a goal whose hypotheses about [flt] contradict each other, after
    adding every consequence of transitivity. *)
Ltac flt_saturate :=
  repeat match goal with
  | H1 : flt ?x ?y = true, H2 : flt ?y ?z = true |- _ =>
      lazymatch goal with
      | _ : flt x z = true |- _ => fail
      | _ => pose proof (flt_trans x y z H1 H2)
      end
  end.

Ltac flt_contra :=
  try congruence;
  flt_saturate;
  match goal with
  | H : flt ?x ?x = true |- _ => rewrite flt_irrefl in H; discriminate H
  | H1 : flt ?x ?y = true, H2 : flt ?x ?y = false |- _ =>
      rewrite H1 in H2; discriminate H2
  end.

Ltac flt_false :=
  match goal with
  | |- flt ?a ?b = false =>
      let E := fresh "E" in destruct (flt a b) eqn:E; [exfalso; flt_contra | reflexivity]
  end.

Ltac feq_false :=
  match goal with
  | |- feq ?v ?va = false =>
      let E := fresh "E" in
      destruct (feq v va) eqn:E; [exfalso | reflexivity];
      repeat match goal with
      | H : flt ?x va = true |- _ =>
          lazymatch goal with
          | _ : flt x v = true |- _ => fail
          | _ => pose proof (flt_feq_r x va v H E)
          end
      end;
      flt_contra
  end.

Ltac argmax_leaf Hnn a va :=
  exists a, va; split; [reflexivity|]; split; [reflexivity|]; split; [lia|];
  split; [|split; [|split]];
  [ intros v Hv; repeat (apply elem_of_cons in Hv as [-> | Hv]);
    [flt_false .. | inversion Hv]
  | intros i v Hi Hl; destruct i as [|[|[|[|]]]]; simpl in *; try lia;
    inversion Hl; subst; feq_false
  | intros Hmax; apply Hnn in Hmax as (N0 & N1 & N2 & N3); split;
    [ intros v Hv; repeat (apply elem_of_cons in Hv as [-> | Hv]);
      [eauto 6 with forder .. | inversion Hv]
    | intros i v Hi Hl; destruct i as [|[|[|[|]]]]; simpl in *; try lia;
      inversion Hl; subst; eauto 6 with forder ]
  | intros -> -> ->;
    repeat match goal with H : flt ?x ?x = true |- _ =>
      rewrite flt_irrefl in H; discriminate H end; reflexivity ].

Lemma argmax_a_scan_max m env s v0 v1 v2 v3 :
  q_read m (idxQ env s 0) = Val v0 ->
  q_read m (idxQ env s 1) = Val v1 ->
  q_read m (idxQ env s 2) = Val v2 ->
  q_read m (idxQ env s 3) = Val v3 ->
  let vals := [v0; v1; v2; v3] in
  exists a va,
    argmax_a m env s = Val a /\ vals !! Z.to_nat a = Some va /\ 0 <= a <= 3 /\
    (forall v, v ∈ vals -> flt va v = false) /\
    (forall i v, (i < Z.to_nat a)%nat -> vals !! i = Some v -> feq v va = false) /\
    ((exists vj, is_max vals vj) ->
       (forall v, v ∈ vals -> fle v va = true) /\
       (forall i v, (i < Z.to_nat a)%nat -> vals !! i = Some v -> flt v va = true)) /\
    (v1 = v0 -> v2 = v0 -> v3 = v0 -> a = 0).
Proof.
  intros H0 H1 H2 H3 vals. unfold argmax_a. rewrite H0. simpl.
  rewrite H1. simpl.
  assert (Hnn : (exists vj, is_max vals vj) ->
     is_nan v0 = false /\ is_nan v1 = false /\ is_nan v2 = false /\ is_nan v3 = false).
  { intros (vj & _ & Hle). subst vals.
    repeat split; refine (proj1 (fle_not_nan _ vj _)); apply Hle; set_solver. }
  subst vals.
  destruct (flt v0 v1) eqn:E01; rewrite H2; simpl.
  - destruct (flt v1 v2) eqn:E12; rewrite H3; simpl.
    + destruct (flt v2 v3) eqn:E23; [argmax_leaf Hnn 3 v3 | argmax_leaf Hnn 2 v2].
    + destruct (flt v1 v3) eqn:E13; [argmax_leaf Hnn 3 v3 | argmax_leaf Hnn 1 v1].
  - destruct (flt v0 v2) eqn:E02; rewrite H3; simpl.
    + destruct (flt v2 v3) eqn:E23; [argmax_leaf Hnn 3 v3 | argmax_leaf Hnn 2 v2].
    + destruct (flt v0 v3) eqn:E03; [argmax_leaf Hnn 3 v3 | argmax_leaf Hnn 0 v0].
Qed.

(** C6. [argmax_a] returns the smallest action index attaining the maximal
    value of the state's four actions: no value is greater than the one at
    the returned index and no earlier index holds an equal one; when the
    four values have a maximum (none is a NaN) the returned value is at
    least every value and every earlier one is strictly smaller.  When the
    four values are equal (a fresh all-zero table, say) it returns
    action 0. *)
Theorem argmax_a_spec m env s v0 v1 v2 v3 :
  q_read m (idxQ env s 0) = Val v0 ->
  q_read m (idxQ env s 1) = Val v1 ->
  q_read m (idxQ env s 2) = Val v2 ->
  q_read m (idxQ env s 3) = Val v3 ->
  let vals := [v0; v1; v2; v3] in
  exists a va,
    argmax_a m env s = Val a /\ vals !! Z.to_nat a = Some va /\ 0 <= a <= 3 /\
    (forall v, v ∈ vals -> flt va v = false) /\
    (forall i v, (i < Z.to_nat a)%nat -> vals !! i = Some v -> feq v va = false) /\
    ((exists vj, is_max vals vj) ->
       (forall v, v ∈ vals -> fle v va = true) /\
       (forall i v, (i < Z.to_nat a)%nat -> vals !! i = Some v -> flt v va = true)) /\
    (v1 = v0 -> v2 = v0 -> v3 = v0 -> a = 0).
Proof. exact (argmax_a_scan_max m env s v0 v1 v2 v3). Qed.

(** [maxQ] is the value stored at the index [argmax_a] returns. *)
Lemma maxQ_argmax m env s v0 v1 v2 v3 :
  q_read m (idxQ env s 0) = Val v0 ->
  q_read m (idxQ env s 1) = Val v1 ->
  q_read m (idxQ env s 2) = Val v2 ->
  q_read m (idxQ env s 3) = Val v3 ->
  exists a va,
    argmax_a m env s = Val a /\ q_read m (idxQ env s a) = Val va /\
    maxQ m env s = Val va.
Proof.
  intros H0 H1 H2 H3. unfold argmax_a, maxQ. rewrite H0, !bind_Val.
  cbn [argmax_scan maxQ_scan]. rewrite H1, !bind_Val.
  destruct (flt v0 v1); rewrite H2, !bind_Val;
    match goal with |- context [flt ?x v2] => destruct (flt x v2) end;
    rewrite H3, !bind_Val;
    match goal with |- context [flt ?x v3] => destruct (flt x v3) end;
    eexists _, _; (split; [reflexivity|]); split; (eassumption || reflexivity).
Qed.

(** ** Bit patterns of floats *)

Lemma bits_of_float_word x : is_word (bits_of_float x).
Proof.
  unfold is_word. destruct x as [[]|[]| |[] m e]; cbn; try lia;
    match goal with |- context [?a mod 2147483648] =>
      pose proof (Z.mod_pos_bound a 2147483648 ltac:(lia)) end; lia.
Qed.

Lemma float_of_bits_fields b :
  is_word b ->
  let s := b / 2147483648 in
  let ex := (b / 8388608) mod 256 in
  let mant := b mod 8388608 in
  Z.testbit b 31 = (s =? 1) /\
  Z.land (Z.shiftr b 23) 0xFF = ex /\
  Z.land b 0x7FFFFF = mant /\
  b = s * 2147483648 + ex * 8388608 + mant /\
  0 <= s <= 1 /\ 0 <= ex < 256 /\ 0 <= mant < 8388608.
Proof.
  unfold is_word. intros Hb. cbv zeta.
  split; [|split; [|split]].
  - rewrite Z.testbit_odd, Z.shiftr_div_pow2 by lia.
    change (2 ^ 31) with 2147483648.
    assert (b / 2147483648 = 0 \/ b / 2147483648 = 1) as [-> | ->]
      by (Z.div_mod_to_equations; lia); reflexivity.
  - change 0xFF with (Z.ones 8). rewrite Z.land_ones, Z.shiftr_div_pow2 by lia. reflexivity.
  - change 0x7FFFFF with (Z.ones 23). rewrite Z.land_ones by lia. reflexivity.
  - Z.div_mod_to_equations. lia.
Qed.

Lemma bits_of_float_of_bits b :
  is_word b -> is_nan (float_of_bits b) = false ->
  bits_of_float (float_of_bits b) = b.
Proof.
  intros Hb. destruct (float_of_bits_fields b Hb) as (Hs & Hex & Hmant & Hsum & Rs & Rex & Rm).
  unfold float_of_bits. rewrite Hs, Hex, Hmant. cbv zeta.
  set (s := b / 2147483648) in *. set (ex := (b / 8388608) mod 256) in *.
  set (mant := b mod 8388608) in *.
  assert (Hsign : sign_bit (s =? 1) = s * 2147483648).
  { unfold sign_bit. destruct (Z.eqb_spec s 1) as [Hs1|Hs1]; [rewrite Hs1; reflexivity|].
    assert (s = 0) as Hs0 by lia. rewrite Hs0. reflexivity. }
  destruct (Z.eqb_spec ex 0) as [E0|E0].
  - destruct (Z.eqb_spec mant 0) as [M0|M0]; intros _; cbn [bits_of_float]; rewrite Hsign.
    + lia.
    + rewrite Z2Pos.id by lia.
      destruct (Z.ltb_spec mant 8388608); [|lia].
      rewrite Z.mod_small by lia. lia.
  - destruct (Z.eqb_spec ex 255) as [E1|E1].
    + destruct (Z.eqb_spec mant 0) as [M0|M0]; [|discriminate].
      intros _. cbn [bits_of_float]. rewrite Hsign. lia.
    + intros _. cbn [bits_of_float]. rewrite Hsign, Z2Pos.id by lia.
      destruct (Z.ltb_spec (mant + 8388608) 8388608); [lia|].
      rewrite Z.mod_small by lia. lia.
Qed.

Lemma same_shape_refl m : same_shape m m.
Proof. unfold same_shape. auto. Qed.

Lemma same_shape_trans m1 m2 m3 :
  same_shape m1 m2 -> same_shape m2 m3 -> same_shape m1 m3.
Proof.
  unfold same_shape. intros (? & ? & ? & ?) (? & ? & ? & ?).
  repeat split; try congruence. auto.
Qed.

Lemma same_shape_fits env m m' : table_fits env m -> same_shape m m' -> table_fits env m'.
Proof. unfold table_fits, same_shape. intros H (_ & _ & Hl & _). rewrite Hl. exact H. Qed.

Lemma same_shape_wf m m' : qmodel_wf m -> same_shape m m' -> qmodel_wf m'.
Proof.
  unfold qmodel_wf, same_shape. intros (? & ? & ? & ? & ?) (Hw & Hh & Hl & Hf).
  rewrite Hw, Hh, Hl. split; [assumption|]. split; [assumption|].
  split; [assumption|]. split; [assumption | auto].
Qed.

(** ** Table accesses of a valid state stay inside the buffer *)

Lemma idxQ_range env x y a :
  env_wf env -> env_valid env x y = true -> 0 <= a <= 3 ->
  idxQ env (state_id env x y) a = (y * env_w env + x) * 4 + a /\
  0 <= (y * env_w env + x) * 4 + a < env_w env * env_h env * ACTIONS.
Proof.
  intros [Hw Hh] Hv Ha. apply env_valid_iff in Hv as [[Hx Hy] _].
  unfold idxQ, state_id, ACTIONS, MAX_W, MAX_H in *.
  assert (0 <= y * env_w env <= 9 * 10).
  { split; [apply Z.mul_nonneg_nonneg; lia | apply Z.mul_le_mono_nonneg; lia]. }
  assert (y * env_w env <= (env_h env - 1) * env_w env)
    by (apply Z.mul_le_mono_nonneg_r; lia).
  rewrite (wrap_int_id (y * env_w env)) by (unfold is_int, INT_MIN, INT_MAX; lia).
  rewrite (wrap_int_id (y * env_w env + x)) by (unfold is_int, INT_MIN, INT_MAX; lia).
  rewrite (wrap_int_id ((y * env_w env + x) * 4)) by (unfold is_int, INT_MIN, INT_MAX; lia).
  rewrite wrap_int_id by (unfold is_int, INT_MIN, INT_MAX; lia).
  split; [reflexivity | lia].
Qed.

Lemma q_read_in_range m i n :
  Z.of_nat (length (qm_q m)) = n -> 0 <= i < n ->
  exists b, qm_q m !! Z.to_nat i = Some b /\ q_read m i = Val (float_of_bits b).
Proof.
  intros Hn Hi. unfold q_read.
  destruct (i <? 0) eqn:E; [lia|].
  destruct (lookup_lt_is_Some_2 (qm_q m) (Z.to_nat i)) as [b Hb]; [lia|].
  exists b. rewrite Hb. split; reflexivity.
Qed.

Lemma q_read_state env m x y a :
  env_wf env -> table_fits env m -> env_valid env x y = true -> 0 <= a <= 3 ->
  exists b, qm_q m !! Z.to_nat (idxQ env (state_id env x y) a) = Some b /\
            q_read m (idxQ env (state_id env x y) a) = Val (float_of_bits b).
Proof.
  intros Hwf Hfit Hv Ha.
  destruct (idxQ_range env x y a Hwf Hv Ha) as [-> Hr].
  eapply q_read_in_range; eassumption.
Qed.

Lemma argmax_a_total env m x y :
  env_wf env -> table_fits env m -> env_valid env x y = true ->
  exists a, argmax_a m env (state_id env x y) = Val a /\ 0 <= a <= 3.
Proof.
  intros Hwf Hfit Hv.
  destruct (q_read_state env m x y 0 Hwf Hfit Hv) as (b0 & _ & H0); [lia|].
  destruct (q_read_state env m x y 1 Hwf Hfit Hv) as (b1 & _ & H1); [lia|].
  destruct (q_read_state env m x y 2 Hwf Hfit Hv) as (b2 & _ & H2); [lia|].
  destruct (q_read_state env m x y 3 Hwf Hfit Hv) as (b3 & _ & H3); [lia|].
  destruct (argmax_a_scan_max m env _ _ _ _ _ H0 H1 H2 H3) as (a & va & Ha & _ & Hr & _).
  exists a. split; assumption.
Qed.

Lemma maxQ_total env m x y :
  env_wf env -> table_fits env m -> env_valid env x y = true ->
  exists v, maxQ m env (state_id env x y) = Val v.
Proof.
  intros Hwf Hfit Hv.
  destruct (q_read_state env m x y 0 Hwf Hfit Hv) as (b0 & _ & H0); [lia|].
  destruct (q_read_state env m x y 1 Hwf Hfit Hv) as (b1 & _ & H1); [lia|].
  destruct (q_read_state env m x y 2 Hwf Hfit Hv) as (b2 & _ & H2); [lia|].
  destruct (q_read_state env m x y 3 Hwf Hfit Hv) as (b3 & _ & H3); [lia|].
  revert H0 H1 H2 H3.
  generalize (float_of_bits b0) (float_of_bits b1) (float_of_bits b2) (float_of_bits b3).
  intros v0 v1 v2 v3 H0 H1 H2 H3.
  unfold maxQ. rewrite H0, bind_Val. cbn [maxQ_scan]. rewrite H1, bind_Val.
  destruct (flt _ _); rewrite H2, bind_Val; destruct (flt _ _); rewrite H3, bind_Val;
    destruct (flt _ _); eexists; reflexivity.
Qed.

(** ** Training and evaluation loops *)

Section Training.
Context {L : Libc}.
Hypothesis rand_ok : rand_in_range L.

Lemma eps_greedy_action_total env m x y eps g :
  env_wf env -> table_fits env m -> env_valid env x y = true ->
  exists a g1, eps_greedy_action m env (state_id env x y) eps g = Val (a, g1) /\
               0 <= a <= 3.
Proof.
  intros Hwf Hfit Hv. unfold eps_greedy_action.
  destruct (rand g) as [r1 g1] eqn:E1.
  destruct (flt _ eps).
  - destruct (rand g1) as [r2 g2] eqn:E2. exists (Z.rem r2 ACTIONS), g2.
    split; [reflexivity|].
    pose proof (rand_ok g1) as Hr. rewrite E2 in Hr. simpl in Hr.
    pose proof (Z.rem_bound_pos r2 ACTIONS). unfold ACTIONS in *. lia.
  - destruct (argmax_a_total env m x y Hwf Hfit Hv) as (a & -> & Ha).
    exists a, g1. split; [reflexivity | assumption].
Qed.

Lemma train_step_run env m alpha gamma eps s g :
  env_wf env -> table_fits env m ->
  env_valid env (pos_x s) (pos_y s) = true ->
  let s_id := state_id env (pos_x s) (pos_y s) in
  exists a g1,
    eps_greedy_action m env s_id eps g = Val (a, g1) /\
    let '(ns, r, dn) := env_step env s a in
    let ns_id := state_id env (pos_x ns) (pos_y ns) in
    let i := Z.to_nat (idxQ env s_id a) in
    exists old_bits mq m',
      qm_q m !! i = Some old_bits /\
      maxQ m env ns_id = Val mq /\
      let old := float_of_bits old_bits in
      let td_target := fadd r (if dn then fzero else fmul gamma mq) in
      let new := fadd old (fmul alpha (fsub td_target old)) in
      train_step env m alpha gamma eps s g = Val (m', ns, r, dn, g1) /\
      qm_q m' = <[i := bits_of_float new]> (qm_q m) /\
      qm_q m' !! i = Some (bits_of_float new) /\
      (forall j, j <> i -> qm_q m' !! j = qm_q m !! j) /\
      length (qm_q m') = length (qm_q m) /\
      qm_w m' = qm_w m /\ qm_h m' = qm_h m.
Proof.
  intros Hwf Hfit Hv s_id. subst s_id.
  destruct (eps_greedy_action_total env m _ _ eps g Hwf Hfit Hv) as (a & g1 & Ha & Hr).
  exists a, g1. split; [exact Ha|].
  pose proof (env_step_keeps_valid env s a Hv) as Hnv.
  destruct (env_step env s a) as [[ns r] dn] eqn:Es. simpl in Hnv.
  destruct (q_read_state env m _ _ a Hwf Hfit Hv Hr) as (ob & Hob & Hread).
  destruct (maxQ_total env m _ _ Hwf Hfit Hnv) as (mq & Hmq).
  destruct (idxQ_range env _ _ a Hwf Hv Hr) as [Hi Hrange].
  assert (Hlen : (Z.to_nat (idxQ env (state_id env (pos_x s) (pos_y s)) a)
                  < length (qm_q m))%nat).
  { apply lookup_lt_Some in Hob. exact Hob. }
  assert (Hw : forall x, q_write m (idxQ env (state_id env (pos_x s) (pos_y s)) a) x =
            Val (mkQModel (qm_w m) (qm_h m)
                   (<[Z.to_nat (idxQ env (state_id env (pos_x s) (pos_y s)) a)
                      := bits_of_float x]> (qm_q m)))).
  { intros x. unfold q_write.
    destruct (idxQ env _ a <? 0) eqn:E; [lia|].
    destruct (idxQ env _ a <? Z.of_nat (length (qm_q m))) eqn:E'; [reflexivity | lia]. }
  destruct dn; eexists ob, mq, _; (split; [exact Hob|]); (split; [exact Hmq|]);
    cbv zeta; unfold train_step; rewrite Ha, bind_Val; cbv beta iota; rewrite Es;
    [| rewrite Hmq]; rewrite !bind_Val, Hread, bind_Val, Hw, bind_Val;
    (split; [reflexivity|]); (split; [reflexivity|]);
    (split; [apply list_lookup_insert_eq; exact Hlen|]);
    (split; [intros j Hj; apply list_lookup_insert_ne; congruence|]);
    (split; [apply length_insert|]); split; reflexivity.
Qed.

Lemma train_step_total env m alpha gamma eps s g :
  env_wf env -> table_fits env m ->
  env_valid env (pos_x s) (pos_y s) = true ->
  exists m' ns r dn g1,
    train_step env m alpha gamma eps s g = Val (m', ns, r, dn, g1) /\
    same_shape m m' /\ env_valid env (pos_x ns) (pos_y ns) = true.
Proof.
  intros Hwf Hfit Hv.
  destruct (train_step_run env m alpha gamma eps s g Hwf Hfit Hv) as (a & g1 & _ & H).
  pose proof (env_step_keeps_valid env s a Hv) as Hnv.
  destruct (env_step env s a) as [[ns r] dn]. simpl in Hnv.
  destruct H as (ob & mq & m' & _ & _ & Hrun & Hq & _ & _ & Hlen & Hw & Hh).
  exists m', ns, r, dn, g1. split; [exact Hrun|]. split; [|exact Hnv].
  repeat split; try assumption.
  intros Hall. rewrite Hq. apply Forall_insert; [exact Hall | apply bits_of_float_word].
Qed.

Lemma train_loop_bounded env alpha gamma eps fuel :
  env_wf env -> step_limit env <= INT_MAX ->
  forall m s steps ret g,
    table_fits env m ->
    env_valid env (pos_x s) (pos_y s) = true ->
    0 <= steps < step_limit env ->
    (Z.to_nat (step_limit env - steps) <= fuel)%nat ->
    exists m' steps' ret' g',
      train_loop fuel env alpha gamma eps m s steps ret g = Val (m', steps', ret', g') /\
      steps < steps' <= step_limit env /\ same_shape m m'.
Proof.
  intros Hwf Hlim. induction fuel as [|fuel IH]; intros m s steps ret g Hfit Hv Hs Hf.
  - lia.
  - destruct (train_step_total env m alpha gamma eps s g Hwf Hfit Hv)
      as (m' & ns & r & dn & g1 & Hrun & Hsh & Hnv).
    cbn [train_loop]. rewrite Hrun, bind_Val. cbv beta iota zeta.
    rewrite wrap_int_id by (unfold is_int, INT_MIN, INT_MAX in *; lia).
    destruct (dn || (steps + 1 >=? step_limit env)) eqn:Ex.
    + do 4 eexists. split; [reflexivity|]. split; [lia | exact Hsh].
    + apply orb_false_iff in Ex as [_ Ex].
      destruct (IH m' ns (steps + 1) (fadd ret r) g1 (same_shape_fits env m m' Hfit Hsh) Hnv)
        as (m2 & st2 & r2 & g2 & Hr & Hb & Hsh2); [lia | lia |].
      exists m2, st2, r2, g2. split; [exact Hr|].
      split; [lia | exact (same_shape_trans m m' m2 Hsh Hsh2)].
Qed.

Lemma train_episodes_bounded env alpha gamma es em ed fuel :
  env_wf env -> 1 <= step_limit env <= INT_MAX ->
  env_valid env (start_x env) (start_y env) = true ->
  (Z.to_nat (step_limit env) <= fuel)%nat ->
  forall eps m g,
    table_fits env m ->
    exists m' g' log,
      train_episodes fuel env alpha gamma es em ed eps m g = Val (m', g', log) /\
      length log = length eps /\
      Forall (fun sr => 1 <= sr.1 <= step_limit env) log /\
      same_shape m m'.
Proof.
  intros Hwf Hlim Hst Hfuel. induction eps as [|ep rest IH]; intros m g Hfit.
  - exists m, g, []. split; [reflexivity|]. split; [reflexivity|].
    split; [constructor | apply same_shape_refl].
  - destruct (train_loop_bounded env alpha gamma (epsilon_at es em ed ep) fuel Hwf
                (proj2 Hlim) m (mkPos (start_x env) (start_y env)) 0 fzero g Hfit Hst)
      as (m1 & st & rt & g1 & Hrun & Hb & Hsh1); [lia | rewrite Z.sub_0_r; exact Hfuel |].
    destruct (IH m1 g1 (same_shape_fits env m m1 Hfit Hsh1))
      as (m2 & g2 & log & Hrest & Hlen & Hall & Hsh2).
    cbn [train_episodes]. rewrite Hrun, bind_Val. cbv beta iota zeta.
    rewrite Hrest, bind_Val. cbv beta iota zeta.
    exists m2, g2, ((st, rt) :: log). split; [reflexivity|].
    split; [simpl; congruence|].
    split; [constructor; [simpl; lia | exact Hall]|].
    exact (same_shape_trans m m1 m2 Hsh1 Hsh2).
Qed.

(** C2. One training step, from state [s] with selected action [a] and
    environment answer [(ns, r, dn)], forms the target
    [r + (dn ? 0 : gamma * maxQ(ns))] and replaces the slot of [(s, a)] by
    [old + alpha * (target - old)]; every other slot keeps its value. *)
Theorem train_step_update env m alpha gamma eps s g :
  env_wf env -> table_fits env m ->
  env_valid env (pos_x s) (pos_y s) = true ->
  let s_id := state_id env (pos_x s) (pos_y s) in
  exists a g1,
    eps_greedy_action m env s_id eps g = Val (a, g1) /\
    let '(ns, r, dn) := env_step env s a in
    let ns_id := state_id env (pos_x ns) (pos_y ns) in
    let i := Z.to_nat (idxQ env s_id a) in
    exists old_bits mq m',
      qm_q m !! i = Some old_bits /\
      maxQ m env ns_id = Val mq /\
      let old := float_of_bits old_bits in
      let td_target := fadd r (if dn then fzero else fmul gamma mq) in
      let new := fadd old (fmul alpha (fsub td_target old)) in
      train_step env m alpha gamma eps s g = Val (m', ns, r, dn, g1) /\
      qm_q m' = <[i := bits_of_float new]> (qm_q m) /\
      qm_q m' !! i = Some (bits_of_float new) /\
      (forall j, j <> i -> qm_q m' !! j = qm_q m !! j) /\
      length (qm_q m') = length (qm_q m) /\
      qm_w m' = qm_w m /\ qm_h m' = qm_h m.
Proof. exact (train_step_run env m alpha gamma eps s g). Qed.

End Training.

Lemma play_loop_bounded env m fuel :
  env_wf env -> table_fits env m -> step_limit env <= INT_MAX ->
  forall s ret steps,
    env_valid env (pos_x s) (pos_y s) = true ->
    0 <= steps < step_limit env ->
    (Z.to_nat (step_limit env - steps) <= fuel)%nat ->
    exists ret' steps',
      play_loop fuel env m s ret steps = Val (ret', steps') /\
      steps < steps' <= step_limit env.
Proof.
  intros Hwf Hfit Hlim. induction fuel as [|fuel IH]; intros s ret steps Hv Hs Hf.
  - lia.
  - destruct (argmax_a_total env m _ _ Hwf Hfit Hv) as (a & Ha & _).
    cbn [play_loop]. rewrite Ha, bind_Val.
    pose proof (env_step_keeps_valid env s a Hv) as Hnv.
    destruct (env_step env s a) as [[ns r] dn]. simpl in Hnv. cbv beta iota zeta.
    rewrite wrap_int_id by (unfold is_int, INT_MIN, INT_MAX in *; lia).
    destruct (dn || (steps + 1 >=? step_limit env)) eqn:Ex.
    + do 2 eexists. split; [reflexivity | lia].
    + apply orb_false_iff in Ex as [_ Ex].
      destruct (IH ns (fadd ret r) (steps + 1) Hnv) as (r2 & st2 & Hr & Hb); [lia | lia |].
      exists r2, st2. split; [exact Hr | lia].
Qed.

Lemma play_episodes_bounded env m fuel :
  env_wf env -> table_fits env m -> 1 <= step_limit env <= INT_MAX ->
  env_valid env (start_x env) (start_y env) = true ->
  (Z.to_nat (step_limit env) <= fuel)%nat ->
  forall eps,
    exists outs,
      play_episodes fuel env m eps = Val outs /\
      length outs = length eps /\
      Forall (fun rs => 1 <= rs.2 <= step_limit env) outs.
Proof.
  intros Hwf Hfit Hlim Hst Hfuel. induction eps as [|ep rest IH].
  - exists []. split; [reflexivity|]. split; [reflexivity | constructor].
  - destruct (play_loop_bounded env m fuel Hwf Hfit (proj2 Hlim)
                (mkPos (start_x env) (start_y env)) fzero 0 Hst)
      as (rt & st & Hrun & Hb); [lia | rewrite Z.sub_0_r; exact Hfuel |].
    destruct IH as (outs & Hrest & Hlen & Hall).
    cbn [play_episodes]. rewrite Hrun, bind_Val, Hrest, bind_Val.
    exists ((rt, st) :: outs). split; [reflexivity|].
    split; [simpl; congruence|]. constructor; [simpl; lia | exact Hall].
Qed.

Lemma episode_indices_length episodes :
  length (episode_indices episodes) = Z.to_nat episodes.
Proof. unfold episode_indices. rewrite length_map, length_seq. reflexivity. Qed.

(** The episode counter does not overflow below [INT_MAX] episodes. *)
Lemma train_below `{L : Libc} fuel env m episodes alpha gamma es em ed g :
  episodes < INT_MAX ->
  train fuel env m episodes alpha gamma es em ed g =
    train_episodes fuel env alpha gamma es em ed (episode_indices episodes) m g.
Proof.
  intros Hlt. unfold train.
  destruct (Z.leb_spec INT_MAX episodes); [lia|].
  destruct (train_episodes _ _ _ _ _ _ _ _ _ _); reflexivity.
Qed.

Lemma train_Val_inv `{L : Libc} fuel env m episodes alpha gamma es em ed g r :
  train fuel env m episodes alpha gamma es em ed g = Val r ->
  episodes < INT_MAX /\
  train_episodes fuel env alpha gamma es em ed (episode_indices episodes) m g = Val r.
Proof.
  unfold train. intros E. apply bind_Val_inv in E as (r0 & E0 & E).
  destruct (Z.leb_spec INT_MAX episodes); [discriminate|].
  injection E as <-. split; [assumption | exact E0].
Qed.

Lemma play_greedy_below fuel env m episodes :
  episodes < INT_MAX ->
  play_greedy fuel env m episodes = play_episodes fuel env m (episode_indices episodes).
Proof.
  intros Hlt. unfold play_greedy.
  destruct (Z.leb_spec INT_MAX episodes); [lia|].
  destruct (play_episodes _ _ _ _); reflexivity.
Qed.

Lemma play_greedy_Val_inv fuel env m episodes outs :
  play_greedy fuel env m episodes = Val outs ->
  episodes < INT_MAX /\
  play_episodes fuel env m (episode_indices episodes) = Val outs.
Proof.
  unfold play_greedy. intros E. apply bind_Val_inv in E as (r0 & E0 & E).
  destruct (Z.leb_spec INT_MAX episodes); [discriminate|].
  injection E as <-. split; [assumption | exact E0].
Qed.

(** *** Where an episode stops *)

Lemma env_step_done env s a :
  (env_step env s a).2 = true <-> (env_step env s a).1.1 = goal env.
Proof.
  unfold env_step. cbv zeta. cbn [fst snd].
  match goal with
  | |- context [if negb ?c then s else ?mv] => generalize (if negb c then s else mv)
  end.
  intros [x y]. cbn [pos_x pos_y]. unfold goal.
  rewrite andb_true_iff, !Z.eqb_eq.
  split; [intros [-> ->]; reflexivity | intros E; inversion E; auto].
Qed.

Lemma q_write_shape m i x m' : q_write m i x = Val m' -> same_shape m m'.
Proof.
  unfold q_write. destruct (i <? 0); [discriminate|].
  destruct (Z.ltb_spec i (Z.of_nat (length (qm_q m)))); [|discriminate].
  intros E. injection E as <-. unfold same_shape. cbn [qm_w qm_h qm_q].
  split; [reflexivity|]. split; [reflexivity|]. split; [apply length_insert|].
  intros Hall. apply Forall_insert; [exact Hall | apply bits_of_float_word].
Qed.

Lemma train_step_shape `{L : Libc} env m alpha gamma eps s g m' ns r dn g1 :
  train_step env m alpha gamma eps s g = Val (m', ns, r, dn, g1) ->
  same_shape m m' /\
  exists a, (ns, r, dn) = env_step env s a.
Proof.
  unfold train_step. intros E.
  apply bind_Val_inv in E as ([a g'] & _ & E).
  destruct (env_step env s a) as [[ns0 r0] dn0] eqn:Es.
  apply bind_Val_inv in E as (boot & _ & E).
  apply bind_Val_inv in E as (old & _ & E).
  apply bind_Val_inv in E as (m1 & Ew & E).
  injection E as <- <- <- <- <-.
  split; [exact (q_write_shape _ _ _ _ Ew)|]. exists a. symmetry. exact Es.
Qed.

(** [play_loop] stops at the first pass that ends on the goal, or at the
    pass that brings the count to [step_limit], whichever comes first. *)
Lemma play_loop_trace env m fuel :
  is_int (step_limit env) ->
  forall s ret steps ret' n,
    0 <= steps < step_limit env ->
    play_loop fuel env m s ret steps = Val (ret', n) ->
    steps < n <= step_limit env /\
    exists s',
      greedy_pos env m s (Z.to_nat (n - steps)) = Val s' /\
      (s' = goal env \/ n = step_limit env) /\
      forall k, (0 < k < Z.to_nat (n - steps))%nat ->
        exists sk, greedy_pos env m s k = Val sk /\ sk <> goal env.
Proof.
  intros Hlim. induction fuel as [|fuel IH]; intros s ret steps ret' n Hs E;
    [discriminate|].
  cbn [play_loop] in E.
  apply bind_Val_inv in E as (a & Ea & E).
  pose proof (env_step_done env s a) as Hd.
  assert (Hone : forall k, greedy_pos env m s (S k) = greedy_pos env m (env_step env s a).1.1 k).
  { intros k. cbn [greedy_pos]. rewrite Ea, bind_Val. reflexivity. }
  destruct (env_step env s a) as [[ns r] dn]. cbn [fst snd] in Hd, Hone.
  assert (Ew : wrap_int (steps + 1) = steps + 1)
    by (apply wrap_int_id; unfold is_int, INT_MIN, INT_MAX in *; lia).
  rewrite Ew in E.
  destruct (dn || (steps + 1 >=? step_limit env)) eqn:Ex.
  - injection E as <- <-. split; [lia|]. exists ns.
    replace (Z.to_nat (steps + 1 - steps)) with 1%nat by lia.
    split; [rewrite Hone; reflexivity|]. split.
    + destruct dn; [left; apply Hd; reflexivity|]. right. cbn [orb] in Ex.
      destruct (Z.geb_spec (steps + 1) (step_limit env)); [lia | discriminate].
    + intros k Hk. lia.
  - apply orb_false_iff in Ex as [-> Ex].
    destruct (Z.geb_spec (steps + 1) (step_limit env)); [discriminate|].
    apply IH in E; [|lia]. destruct E as (Hn & s' & Hpos & Hend & Hbefore).
    split; [lia|]. exists s'.
    replace (Z.to_nat (n - steps)) with (S (Z.to_nat (n - (steps + 1)))) by lia.
    split; [rewrite Hone; exact Hpos|]. split; [exact Hend|].
    intros k Hk. destruct k as [|k]; [lia|]. rewrite Hone.
    destruct k as [|k].
    + exists ns. split; [reflexivity|]. intros Eg. apply Hd in Eg. discriminate.
    + apply Hbefore. lia.
Qed.

Lemma train_loop_trace `{L : Libc} env alpha gamma eps fuel :
  is_int (step_limit env) ->
  forall m s ret steps g m' n ret' g',
    0 <= steps < step_limit env ->
    train_loop fuel env alpha gamma eps m s steps ret g = Val (m', n, ret', g') ->
    steps < n <= step_limit env /\
    exists s',
      train_steps (Z.to_nat (n - steps)) env alpha gamma eps m s g = Val (m', s', g') /\
      (s' = goal env \/ n = step_limit env) /\
      forall k, (0 < k < Z.to_nat (n - steps))%nat ->
        exists mk sk gk,
          train_steps k env alpha gamma eps m s g = Val (mk, sk, gk) /\ sk <> goal env.
Proof.
  intros Hlim. induction fuel as [|fuel IH];
    intros m s ret steps g m' n ret' g' Hs E; [discriminate|].
  cbn [train_loop] in E.
  apply bind_Val_inv in E as ([[[[m1 ns] r] dn] g1] & Est & E).
  assert (Hone : forall k, train_steps (S k) env alpha gamma eps m s g =
                           train_steps k env alpha gamma eps m1 ns g1).
  { intros k. cbn [train_steps]. rewrite Est, bind_Val. reflexivity. }
  destruct (train_step_shape _ _ _ _ _ _ _ _ _ _ _ _ Est) as [_ [a Ea]].
  pose proof (env_step_done env s a) as Hd. rewrite <- Ea in Hd. cbn [fst snd] in Hd.
  assert (Ew : wrap_int (steps + 1) = steps + 1)
    by (apply wrap_int_id; unfold is_int, INT_MIN, INT_MAX in *; lia).
  rewrite Ew in E.
  destruct (dn || (steps + 1 >=? step_limit env)) eqn:Ex.
  - injection E as <- <- <- <-. split; [lia|]. exists ns.
    replace (Z.to_nat (steps + 1 - steps)) with 1%nat by lia.
    split; [rewrite Hone; reflexivity|]. split.
    + destruct dn; [left; apply Hd; reflexivity|]. right. cbn [orb] in Ex.
      destruct (Z.geb_spec (steps + 1) (step_limit env)); [lia | discriminate].
    + intros k Hk. lia.
  - apply orb_false_iff in Ex as [-> Ex].
    destruct (Z.geb_spec (steps + 1) (step_limit env)); [discriminate|].
    apply IH in E; [|lia]. destruct E as (Hn & s' & Hpos & Hend & Hbefore).
    split; [lia|]. exists s'.
    replace (Z.to_nat (n - steps)) with (S (Z.to_nat (n - (steps + 1)))) by lia.
    split; [rewrite Hone; exact Hpos|]. split; [exact Hend|].
    intros k Hk. destruct k as [|k]; [lia|]. rewrite Hone.
    destruct k as [|k].
    + exists m1, ns, g1. split; [reflexivity|]. intros Eg. apply Hd in Eg. discriminate.
    + apply Hbefore. lia.
Qed.

(** C9. Every episode of [train] and of [play_greedy] ends after at most
    [step_limit] passes through the loop body.  From the start cell, with
    any fitting table and any generator state, an iteration budget of
    [step_limit] is enough for the episode loop to return; the count [n] it
    returns lies between 1 and [step_limit]; and the loop left at the first
    opportunity: pass [n] ended on the goal or brought the count to
    [step_limit], and no earlier pass ended on the goal.  Hence a run of
    fewer than [INT_MAX] episodes returns and every step count it records
    is at most [step_limit]. *)
Theorem episodes_bounded `{L : Libc} env m alpha gamma eps es em ed g fuel :
  rand_in_range L ->
  env_wf env -> table_fits env m ->
  env_valid env (start_x env) (start_y env) = true ->
  1 <= step_limit env <= INT_MAX ->
  (Z.to_nat (step_limit env) <= fuel)%nat ->
  let start := mkPos (start_x env) (start_y env) in
  (exists m' n ret g' s',
     train_loop fuel env alpha gamma eps m start 0 fzero g = Val (m', n, ret, g') /\
     1 <= n <= step_limit env /\
     train_steps (Z.to_nat n) env alpha gamma eps m start g = Val (m', s', g') /\
     (s' = goal env \/ n = step_limit env) /\
     (forall k, (0 < k < Z.to_nat n)%nat ->
        exists mk sk gk,
          train_steps k env alpha gamma eps m start g = Val (mk, sk, gk) /\
          sk <> goal env)) /\
  (exists ret n s',
     play_loop fuel env m start fzero 0 = Val (ret, n) /\
     1 <= n <= step_limit env /\
     greedy_pos env m start (Z.to_nat n) = Val s' /\
     (s' = goal env \/ n = step_limit env) /\
     (forall k, (0 < k < Z.to_nat n)%nat ->
        exists sk, greedy_pos env m start k = Val sk /\ sk <> goal env)) /\
  (forall episodes, episodes < INT_MAX ->
     (exists m' g' log,
        train fuel env m episodes alpha gamma es em ed g = Val (m', g', log) /\
        length log = Z.to_nat episodes /\
        Forall (fun sr => 1 <= sr.1 <= step_limit env) log) /\
     (exists outs,
        play_greedy fuel env m episodes = Val outs /\
        length outs = Z.to_nat episodes /\
        Forall (fun rs => 1 <= rs.2 <= step_limit env) outs)).
Proof.
  intros Hr Hwf Hfit Hst Hlim Hfuel start.
  assert (Hint : is_int (step_limit env)) by (unfold is_int, INT_MIN, INT_MAX in *; lia).
  split; [|split].
  - destruct (train_loop_bounded Hr env alpha gamma eps fuel Hwf (proj2 Hlim)
                m start 0 fzero g Hfit Hst)
      as (m' & n & ret & g' & Hrun & Hb & _); [lia | rewrite Z.sub_0_r; exact Hfuel |].
    destruct (train_loop_trace env alpha gamma eps fuel Hint m start fzero 0 g m' n ret g'
                ltac:(lia) Hrun) as (_ & s' & Hpos & Hend & Hbefore).
    rewrite Z.sub_0_r in Hpos, Hbefore.
    exists m', n, ret, g', s'. split; [exact Hrun|]. split; [lia|].
    split; [exact Hpos|]. split; [exact Hend | exact Hbefore].
  - destruct (play_loop_bounded env m fuel Hwf Hfit (proj2 Hlim) start fzero 0 Hst)
      as (ret & n & Hrun & Hb); [lia | rewrite Z.sub_0_r; exact Hfuel |].
    destruct (play_loop_trace env m fuel Hint start fzero 0 ret n ltac:(lia) Hrun)
      as (_ & s' & Hpos & Hend & Hbefore).
    rewrite Z.sub_0_r in Hpos, Hbefore.
    exists ret, n, s'. split; [exact Hrun|]. split; [lia|].
    split; [exact Hpos|]. split; [exact Hend | exact Hbefore].
  - intros episodes Hep. split.
    + destruct (train_episodes_bounded Hr env alpha gamma es em ed fuel Hwf Hlim Hst Hfuel
                  (episode_indices episodes) m g Hfit) as (m' & g' & log & H1 & H2 & H3 & _).
      exists m', g', log. rewrite train_below by exact Hep.
      rewrite <- episode_indices_length. auto.
    + destruct (play_episodes_bounded env m fuel Hwf Hfit Hlim Hst Hfuel
                  (episode_indices episodes)) as (outs & H1 & H2 & H3).
      exists outs. rewrite play_greedy_below by exact Hep.
      rewrite <- episode_indices_length. auto.
Qed.

(** ** Bytes, words and the stream functions *)

Lemma Z_of_byte_range b : 0 <= Z_of_byte b < 256.
Proof.
  unfold Z_of_byte. pose proof (Byte.to_N_bounded b). lia.
Qed.

Lemma Z_of_byte_of_Z z : Z_of_byte (byte_of_Z z) = z mod 256.
Proof.
  unfold Z_of_byte, byte_of_Z.
  pose proof (Z.mod_pos_bound z 256 ltac:(lia)) as Hb.
  destruct (Byte.of_N (Z.to_N (z mod 256))) as [b|] eqn:E; simpl.
  - apply Byte.to_of_N in E. rewrite E. lia.
  - apply Byte.of_N_None_iff in E. lia.
Qed.

Lemma byte_of_Z_eq z b : z mod 256 = Z_of_byte b -> byte_of_Z z = b.
Proof.
  intros H. unfold byte_of_Z. rewrite H. unfold Z_of_byte.
  rewrite N2Z.id, Byte.of_to_N. reflexivity.
Qed.

Lemma word_of_bytes_range b0 b1 b2 b3 : is_word (word_of_bytes b0 b1 b2 b3).
Proof.
  unfold is_word, word_of_bytes.
  pose proof (Z_of_byte_range b0). pose proof (Z_of_byte_range b1).
  pose proof (Z_of_byte_range b2). pose proof (Z_of_byte_range b3). lia.
Qed.

Lemma word_of_word_bytes v :
  is_word v ->
  word_of_bytes (byte_of_Z v) (byte_of_Z (v / 256)) (byte_of_Z (v / 65536))
                (byte_of_Z (v / 16777216)) = v.
Proof.
  unfold is_word, word_of_bytes. intros Hv. rewrite !Z_of_byte_of_Z.
  Z.div_mod_to_equations. lia.
Qed.

Lemma word_bytes_of_bytes b0 b1 b2 b3 :
  word_bytes (word_of_bytes b0 b1 b2 b3) = [b0; b1; b2; b3].
Proof.
  unfold word_bytes, word_of_bytes.
  pose proof (Z_of_byte_range b0). pose proof (Z_of_byte_range b1).
  pose proof (Z_of_byte_range b2). pose proof (Z_of_byte_range b3).
  repeat f_equal; apply byte_of_Z_eq; Z.div_mod_to_equations; lia.
Qed.

Lemma int_of_int_bytes z :
  is_int z ->
  int_of_bytes (byte_of_Z (z mod 4294967296)) (byte_of_Z (z mod 4294967296 / 256))
               (byte_of_Z (z mod 4294967296 / 65536))
               (byte_of_Z (z mod 4294967296 / 16777216)) = z.
Proof.
  intros Hz. unfold int_of_bytes. rewrite word_of_word_bytes.
  - unfold wrap_int, is_int, INT_MIN, INT_MAX in *. Z.div_mod_to_equations. lia.
  - unfold is_word. apply Z.mod_pos_bound. lia.
Qed.

Lemma fread_int_bytes z rest :
  is_int z -> fread_int (int_bytes z ++ rest) = Some (z, rest).
Proof.
  intros Hz. unfold int_bytes, word_bytes. cbn [app fread_int].
  rewrite int_of_int_bytes by assumption. reflexivity.
Qed.

Lemma fread_floats_end n bs : (length bs < 4)%nat -> fread_floats n bs = [].
Proof.
  destruct bs as [|? [|? [|? [|? ?]]]]; simpl; intros; try reflexivity; lia.
Qed.

Lemma fread_floats_words ws rest :
  Forall is_word ws ->
  fread_floats (Z.of_nat (length ws)) (flat_map word_bytes ws ++ rest) = ws.
Proof.
  induction 1 as [|v ws Hv Hws IH].
  - simpl. destruct rest as [|? [|? [|? [|? ?]]]]; reflexivity.
  - cbn [flat_map word_bytes app fread_floats length].
    destruct (Z.of_nat (S (length ws)) <=? 0) eqn:E; [apply Z.leb_le in E; lia|].
    rewrite word_of_word_bytes by assumption.
    replace (Z.of_nat (S (length ws)) - 1) with (Z.of_nat (length ws)) by lia.
    rewrite IH. reflexivity.
Qed.

(** What [fread_floats] returns is a prefix of the stream, cut into words,
    and holds at most [n] items. *)
Lemma fread_floats_prefix k : forall n bs,
  (length bs <= k)%nat ->
  let ws := fread_floats n bs in
  flat_map word_bytes ws = take (4 * length ws) bs /\
  Z.of_nat (length ws) <= Z.max 0 n /\
  (4 * length ws <= length bs)%nat.
Proof.
  induction k as [|k IH]; intros n bs Hk.
  - destruct bs; [|simpl in Hk; lia]. simpl. repeat split; lia.
  - destruct bs as [|b0 [|b1 [|b2 [|b3 rest]]]];
      try (simpl; repeat split; (reflexivity || lia)).
    cbn [fread_floats]. destruct (n <=? 0) eqn:E.
    + simpl. repeat split; lia.
    + destruct (IH (n - 1) rest) as (H1 & H2 & H3); [simpl in Hk; lia|].
      cbv zeta. cbn [flat_map length].
      rewrite word_bytes_of_bytes, H1.
      replace (4 * S (length (fread_floats (n - 1) rest)))%nat
        with (S (S (S (S (4 * length (fread_floats (n - 1) rest)))))) by lia.
      cbn [take app]. repeat split; [lia | simpl; lia].
Qed.

(** ** Saving and loading *)

Lemma qmodel_alloc_ok w h :
  table_size w h * 4 <= SIZE_MAX ->
  qmodel_alloc w h = Val (mkQModel w h (replicate (Z.to_nat (table_size w h)) 0)).
Proof.
  intros H. unfold qmodel_alloc.
  destruct (table_size w h * 4 <=? SIZE_MAX) eqn:E; [reflexivity|].
  apply Z.leb_gt in E. lia.
Qed.

Lemma load_qtable_header fs path w h rest :
  path ∉ fs_denied fs ->
  fs_files fs !! path = Some (int_bytes w ++ int_bytes h ++ rest) ->
  is_int w -> is_int h ->
  load_qtable fs path =
    (qmodel_alloc w h ≫= fun _ =>
     let items := fread_floats (table_size w h) rest in
     if Z.of_nat (length items) =? table_size w h
     then Val (Some (mkQModel w h items)) else Val None).
Proof.
  intros Hd Hf Hw Hh. unfold load_qtable.
  destruct (decide (path ∈ fs_denied fs)); [contradiction|].
  rewrite Hf, fread_int_bytes by assumption.
  rewrite fread_int_bytes by assumption. reflexivity.
Qed.

Lemma save_qtable_readonly fs path m :
  path ∈ fs_readonly fs -> save_qtable fs path m = Exit 1.
Proof.
  intros H. unfold save_qtable.
  destruct (decide (path ∈ fs_denied fs)); [reflexivity|].
  destruct (decide (path ∈ fs_readonly fs)); [reflexivity | contradiction].
Qed.

Lemma save_load_roundtrip_run fs path m :
  qmodel_wf m -> path ∉ fs_denied fs -> path ∉ fs_readonly fs ->
  exists fs',
    save_qtable fs path m = Val fs' /\
    load_qtable fs' path = Val (Some m).
Proof.
  intros (Hw & Hh & Halloc & Hlen & Hwords) Hd Hro.
  unfold save_qtable.
  destruct (decide (path ∈ fs_denied fs)); [contradiction|].
  destruct (decide (path ∈ fs_readonly fs)); [contradiction|].
  destruct (table_size (qm_w m) (qm_h m) <=? Z.of_nat (length (qm_q m))) eqn:E;
    [|apply Z.leb_gt in E; lia].
  eexists. split; [reflexivity|].
  rewrite take_ge by lia.
  erewrite load_qtable_header with (rest := flat_map word_bytes (qm_q m));
    [| exact Hd | apply lookup_insert_eq | exact Hw | exact Hh].
  rewrite qmodel_alloc_ok, bind_Val by exact Halloc. cbv zeta.
  rewrite <- Hlen.
  rewrite <- (app_nil_r (flat_map word_bytes (qm_q m))).
  rewrite fread_floats_words by exact Hwords.
  rewrite Z.eqb_refl. destruct m; reflexivity.
Qed.

Lemma load_qtable_short fs path bs :
  fs_files fs !! path = Some bs -> (length bs < 8)%nat ->
  load_qtable fs path = Val None.
Proof.
  intros Hf Hlen. unfold load_qtable.
  destruct (decide (path ∈ fs_denied fs)); [reflexivity|]. rewrite Hf.
  destruct bs as [|b0 [|b1 [|b2 [|b3 [|b4 [|b5 [|b6 [|b7 rest]]]]]]]];
    try reflexivity.
  simpl in Hlen. lia.
Qed.

Lemma table_size_exact w h :
  is_int (w * h) -> 0 <= w * h * ACTIONS <= INT_MAX ->
  table_size w h = w * h * ACTIONS.
Proof.
  intros H1 H2. unfold table_size, size_t_of_int.
  rewrite (wrap_int_id (w * h)) by assumption.
  rewrite wrap_int_id by (unfold is_int, INT_MIN, INT_MAX in *; lia).
  apply Z.mod_small. unfold SIZE_MAX, INT_MAX in *. lia.
Qed.

Lemma load_qtable_truncated fs path w h rest :
  path ∉ fs_denied fs ->
  fs_files fs !! path = Some (int_bytes w ++ int_bytes h ++ rest) ->
  is_int w -> is_int h -> is_int (w * h) -> is_int (w * h * ACTIONS) ->
  Z.of_nat (length rest) < 4 * (w * h * ACTIONS) ->
  load_qtable fs path = Val None.
Proof.
  intros Hd Hf Hw Hh Hwh Hn Hshort.
  assert (Hsz : table_size w h = w * h * ACTIONS).
  { apply table_size_exact; [assumption|]. unfold is_int in Hn. lia. }
  rewrite (load_qtable_header fs path w h rest Hd Hf Hw Hh).
  rewrite qmodel_alloc_ok, bind_Val
    by (rewrite Hsz; unfold is_int, INT_MAX, SIZE_MAX in *; lia).
  cbv zeta. rewrite Hsz.
  destruct (fread_floats_prefix (length rest) (w * h * ACTIONS) rest (le_n _))
    as (_ & _ & Hl).
  destruct (Z.of_nat (length (fread_floats (w * h * ACTIONS) rest)) =? w * h * ACTIONS) eqn:E;
    [|reflexivity].
  apply Z.eqb_eq in E. lia.
Qed.

Lemma load_qtable_success fs path m :
  load_qtable fs path = Val (Some m) ->
  exists b0 b1 b2 b3 b4 b5 b6 b7 rest,
    fs_files fs !! path = Some (b0 :: b1 :: b2 :: b3 :: b4 :: b5 :: b6 :: b7 :: rest) /\
    qm_w m = int_of_bytes b0 b1 b2 b3 /\
    qm_h m = int_of_bytes b4 b5 b6 b7 /\
    Z.of_nat (length (qm_q m)) = table_size (qm_w m) (qm_h m) /\
    flat_map word_bytes (qm_q m) = take (4 * length (qm_q m)) rest.
Proof.
  unfold load_qtable. intros H.
  destruct (decide (path ∈ fs_denied fs)); [discriminate|].
  destruct (fs_files fs !! path) as [bs|] eqn:Hf; [|discriminate].
  destruct bs as [|b0 [|b1 [|b2 [|b3 [|b4 [|b5 [|b6 [|b7 rest]]]]]]]];
    try discriminate.
  cbn [fread_int] in H.
  destruct (qmodel_alloc _ _); try discriminate. rewrite bind_Val in H.
  cbv zeta in H.
  match type of H with context [Z.eqb ?a ?b] => destruct (Z.eqb a b) eqn:E end;
    [|discriminate].
  injection H as <-. cbn [qm_w qm_h qm_q].
  exists b0, b1, b2, b3, b4, b5, b6, b7, rest.
  split; [reflexivity|]. split; [reflexivity|]. split; [reflexivity|].
  split; [apply Z.eqb_eq; exact E|].
  exact (proj1 (fread_floats_prefix (length rest) _ rest (le_n _))).
Qed.

Lemma main_run_rejects_mismatch `{L : Libc} fuel args fs p q :
  load_path args = Some p ->
  load_qtable fs p = Val (Some q) ->
  qm_w q <> arg_W args \/ qm_h q <> arg_H args ->
  main_run fuel args fs = Exit 1.
Proof.
  intros Hp Hl Hne. unfold main_run.
  destruct (_ || _ || _ || _); [reflexivity|].
  rewrite Hp, Hl, bind_Val.
  assert (negb (qm_w q =? arg_W args) || negb (qm_h q =? arg_H args) = true) as ->.
  { apply orb_true_iff. destruct Hne as [H|H]; [left|right];
      apply negb_true_iff, Z.eqb_neq; exact H. }
  reflexivity.
Qed.

Lemma main_parsed `{L : Libc} `{C : Strconv} fuel argv now fs args :
  parse_args (tail argv) (default_args now) = Some args ->
  main fuel argv now fs =
    ('(fs', q, plays) ← main_run fuel args fs; Val (Ran fs' q plays)).
Proof. intros E. unfold main. rewrite E. reflexivity. Qed.

Lemma main_rejects_mismatch `{L : Libc} `{C : Strconv} fuel argv now fs args p q :
  parse_args (tail argv) (default_args now) = Some args ->
  load_path args = Some p ->
  load_qtable fs p = Val (Some q) ->
  qm_w q <> arg_W args \/ qm_h q <> arg_H args ->
  main fuel argv now fs = Exit 1.
Proof.
  intros Ea Hp Hl Hne. rewrite (main_parsed _ _ _ _ _ Ea).
  rewrite (main_run_rejects_mismatch fuel args fs p q Hp Hl Hne). reflexivity.
Qed.

Lemma fread_floats_full k : forall n bs,
  (length bs <= k)%nat -> 0 <= n -> 4 * n <= Z.of_nat (length bs) ->
  Z.of_nat (length (fread_floats n bs)) = n.
Proof.
  induction k as [|k IH]; intros n bs Hk Hn Hlen.
  - destruct bs; [cbn in *; lia | cbn in Hk; lia].
  - destruct bs as [|b0 [|b1 [|b2 [|b3 rest]]]]; try (cbn in *; lia).
    cbn [fread_floats]. destruct (Z.leb_spec n 0); [cbn; lia|].
    cbn [length] in *. rewrite Nat2Z.inj_succ, IH; lia.
Qed.

(** What [load_qtable] does with a file of at least eight bytes. *)
Lemma load_qtable_body fs path b0 b1 b2 b3 b4 b5 b6 b7 rest :
  path ∉ fs_denied fs ->
  fs_files fs !! path = Some (b0 :: b1 :: b2 :: b3 :: b4 :: b5 :: b6 :: b7 :: rest) ->
  let w := int_of_bytes b0 b1 b2 b3 in
  let h := int_of_bytes b4 b5 b6 b7 in
  let n := table_size w h in
  (is_int (w * h) -> 0 <= w * h * ACTIONS <= INT_MAX -> n = w * h * ACTIONS) /\
  (SIZE_MAX < n * 4 -> load_qtable fs path = Exit 1) /\
  (n * 4 <= SIZE_MAX -> Z.of_nat (length rest) < 4 * n ->
     load_qtable fs path = Val None) /\
  (n * 4 <= SIZE_MAX -> 4 * n <= Z.of_nat (length rest) ->
     load_qtable fs path = Val (Some (mkQModel w h (fread_floats n rest)))).
Proof.
  intros Hd Hf w h n.
  assert (Hn0 : 0 <= n).
  { unfold n, table_size, size_t_of_int. apply Z.mod_pos_bound. unfold SIZE_MAX. lia. }
  assert (Hl : load_qtable fs path =
            (qmodel_alloc w h ≫= fun _ =>
             if Z.of_nat (length (fread_floats n rest)) =? n
             then Val (Some (mkQModel w h (fread_floats n rest))) else Val None)).
  { unfold load_qtable. destruct (decide (path ∈ fs_denied fs)); [contradiction|].
    rewrite Hf. reflexivity. }
  split; [apply table_size_exact|]. split; [|split].
  - intros Hbig. rewrite Hl. unfold qmodel_alloc. fold n.
    destruct (Z.leb_spec (n * 4) SIZE_MAX); [lia | reflexivity].
  - intros Hfit Hshort. rewrite Hl, qmodel_alloc_ok, bind_Val by exact Hfit.
    destruct (fread_floats_prefix (length rest) n rest (le_n _)) as (_ & _ & Hle).
    destruct (Z.eqb_spec (Z.of_nat (length (fread_floats n rest))) n); [lia | reflexivity].
  - intros Hfit Hlong. rewrite Hl, qmodel_alloc_ok, bind_Val by exact Hfit.
    rewrite (fread_floats_full (length rest)) by lia.
    rewrite Z.eqb_refl. reflexivity.
Qed.

(** A table that was well formed before training can be saved and loaded
    back unchanged afterwards. *)
Lemma trained_table_roundtrip `{L : Libc} env m episodes alpha gamma es em ed g fuel fs path :
  rand_in_range L ->
  env_wf env -> table_fits env m -> qmodel_wf m ->
  env_valid env (start_x env) (start_y env) = true ->
  1 <= step_limit env <= INT_MAX ->
  (Z.to_nat (step_limit env) <= fuel)%nat ->
  episodes < INT_MAX ->
  path ∉ fs_denied fs -> path ∉ fs_readonly fs ->
  exists m' g' log fs',
    train fuel env m episodes alpha gamma es em ed g = Val (m', g', log) /\
    save_qtable fs path m' = Val fs' /\
    load_qtable fs' path = Val (Some m').
Proof.
  intros Hr Hwf Hfit Hm Hst Hlim Hfuel Hep Hd Hro.
  destruct (train_episodes_bounded Hr env alpha gamma es em ed fuel Hwf Hlim Hst Hfuel
              (episode_indices episodes) m g Hfit) as (m' & g' & log & Hrun & _ & _ & Hsh).
  destruct (save_load_roundtrip_run fs path m' (same_shape_wf m m' Hm Hsh) Hd Hro)
    as (fs' & Hsave & Hload).
  exists m', g', log, fs'. rewrite train_below by exact Hep. auto.
Qed.

(** C3. On a path that can be opened, for writing and then for reading,
    saving a table and loading it back succeeds and returns the same table:
    same [w], same [h], the same 32-bit pattern in every slot.  (On a path
    that cannot be opened for writing [save_qtable] ends the process: see
    [save_refused_path].) *)
Theorem save_load_roundtrip fs path m :
  qmodel_wf m -> path ∉ fs_denied fs -> path ∉ fs_readonly fs ->
  exists fs',
    save_qtable fs path m = Val fs' /\
    load_qtable fs' path = Val (Some m).
Proof. exact (save_load_roundtrip_run fs path m). Qed.

(** X28. What [load_qtable] returns, case by case.  It returns 0 when the
    file cannot be opened and when it holds fewer than the 8 header bytes.
    On a longer file, with [n] the slot count the code computes from the
    header ([w*h*ACTIONS] in [int] arithmetic, converted to [size_t]; this
    is the product itself when nothing overflows): the process exits with
    status 1 when a buffer of [n] floats cannot be requested, [load_qtable]
    returns 0 when fewer than [n] floats follow the header, and otherwise
    it returns 1 with the header's [w] and [h] and the first [n] floats.
    A table it returns carries the [w], [h] and values read from the file;
    it compares them with no environment, and the check of [main] is what
    rejects a table of another size. *)
Theorem load_qtable_spec `{L : Libc} `{C : Strconv} fs path :
  (path ∈ fs_denied fs \/ fs_files fs !! path = None -> load_qtable fs path = Val None) /\
  (forall bs, fs_files fs !! path = Some bs -> (length bs < 8)%nat ->
     load_qtable fs path = Val None) /\
  (forall b0 b1 b2 b3 b4 b5 b6 b7 rest,
     path ∉ fs_denied fs ->
     fs_files fs !! path = Some (b0 :: b1 :: b2 :: b3 :: b4 :: b5 :: b6 :: b7 :: rest) ->
     let w := int_of_bytes b0 b1 b2 b3 in
     let h := int_of_bytes b4 b5 b6 b7 in
     let n := table_size w h in
     (is_int (w * h) -> 0 <= w * h * ACTIONS <= INT_MAX -> n = w * h * ACTIONS) /\
     (SIZE_MAX < n * 4 -> load_qtable fs path = Exit 1) /\
     (n * 4 <= SIZE_MAX -> Z.of_nat (length rest) < 4 * n ->
        load_qtable fs path = Val None) /\
     (n * 4 <= SIZE_MAX -> 4 * n <= Z.of_nat (length rest) ->
        load_qtable fs path = Val (Some (mkQModel w h (fread_floats n rest))))) /\
  (forall m, load_qtable fs path = Val (Some m) ->
     exists b0 b1 b2 b3 b4 b5 b6 b7 rest,
       fs_files fs !! path = Some (b0 :: b1 :: b2 :: b3 :: b4 :: b5 :: b6 :: b7 :: rest) /\
       qm_w m = int_of_bytes b0 b1 b2 b3 /\
       qm_h m = int_of_bytes b4 b5 b6 b7 /\
       Z.of_nat (length (qm_q m)) = table_size (qm_w m) (qm_h m) /\
       flat_map word_bytes (qm_q m) = take (4 * length (qm_q m)) rest) /\
  (forall m fuel argv now args,
     parse_args (tail argv) (default_args now) = Some args ->
     load_path args = Some path ->
     load_qtable fs path = Val (Some m) ->
     qm_w m <> arg_W args \/ qm_h m <> arg_H args ->
     main fuel argv now fs = Exit 1).
Proof.
  split; [|split; [|split; [|split]]].
  - intros [Hd | Hn]; unfold load_qtable.
    + destruct (decide (path ∈ fs_denied fs)); [reflexivity | contradiction].
    + destruct (decide (path ∈ fs_denied fs)); [reflexivity|]. rewrite Hn. reflexivity.
  - apply load_qtable_short.
  - intros b0 b1 b2 b3 b4 b5 b6 b7 rest Hd Hf.
    exact (load_qtable_body fs path b0 b1 b2 b3 b4 b5 b6 b7 rest Hd Hf).
  - apply load_qtable_success.
  - intros m fuel argv now args. apply main_rejects_mismatch.
Qed.

(** ** Signs *)

Lemma binary_round_aux_sign sx mx ex lx :
  match binary_round_aux 24 128 sx mx ex lx with
  | S754_zero s | S754_infinity s | S754_finite s _ _ => s = sx
  | S754_nan => True
  end.
Proof.
  unfold binary_round_aux.
  destruct (shr_fexp 24 128 mx ex lx) as [mrs' e'].
  destruct (shr_fexp 24 128 _ e' loc_Exact) as [mrs'' e''].
  destruct (shr_m mrs''); [reflexivity| |exact I].
  destruct (e'' <=? 128 - 24); reflexivity.
Qed.

Lemma float_of_int_sign z : 0 <= z -> sign_clear (float_of_int z) = true.
Proof.
  intros Hz. unfold float_of_int, binary_normalize.
  destruct z as [|p|p]; [reflexivity| |lia].
  unfold binary_round. destruct (shl_align _ _ _) as [mz ez].
  pose proof (binary_round_aux_sign false (Z.pos mz) ez loc_Exact) as H.
  destruct (binary_round_aux 24 128 false (Z.pos mz) ez loc_Exact); simpl; subst; reflexivity.
Qed.

Lemma fdiv_sign x y :
  sign_clear x = true -> sign_clear y = true -> sign_clear (fdiv x y) = true.
Proof.
  unfold fdiv, SFdiv.
  destruct x as [[]|[]| |[] mx ex], y as [[]|[]| |[] my ey]; simpl; try discriminate;
    try reflexivity.
  intros _ _. destruct (SFdiv_core_binary 24 128 (Z.pos mx) ex (Z.pos my) ey) as [[mz ez] lz].
  pose proof (binary_round_aux_sign false mz ez lz) as H.
  destruct (binary_round_aux 24 128 false mz ez lz); simpl in *; subst; reflexivity.
Qed.

Lemma flt_zero_sign x : sign_clear x = true -> flt x fzero = false.
Proof. destruct x as [[]|[]| |[] ? ?]; simpl; try discriminate; reflexivity. Qed.

(** ** Rounding never passes a representable bound *)

Lemma digits2_pos_bounds p :
  2 ^ (Z.pos (digits2_pos p) - 1) <= Z.pos p < 2 ^ Z.pos (digits2_pos p).
Proof.
  induction p as [p IH|p IH|]; cbn [digits2_pos].
  - rewrite Pos2Z.inj_succ.
    replace (Z.succ (Z.pos (digits2_pos p)) - 1) with (Z.succ (Z.pos (digits2_pos p) - 1)) by lia.
    rewrite !Z.pow_succ_r by lia. lia.
  - rewrite Pos2Z.inj_succ.
    replace (Z.succ (Z.pos (digits2_pos p)) - 1) with (Z.succ (Z.pos (digits2_pos p) - 1)) by lia.
    rewrite !Z.pow_succ_r by lia. lia.
  - simpl. lia.
Qed.

Lemma digits2_pos_le p k : 0 <= k -> Z.pos p < 2 ^ k -> Z.pos (digits2_pos p) <= k.
Proof.
  intros Hk Hp. destruct (Z_le_gt_dec (Z.pos (digits2_pos p)) k) as [H|H]; [exact H|].
  pose proof (digits2_pos_bounds p) as [Hlo _].
  assert (2 ^ k <= 2 ^ (Z.pos (digits2_pos p) - 1)) by (apply Z.pow_le_mono_r; lia).
  lia.
Qed.

Lemma iter_pos_nat {A : Type} (f : A -> A) p x :
  SpecFloat.iter_pos f p x = Nat.iter (Pos.to_nat p) f x.
Proof.
  revert x. induction p as [p IH|p IH|]; intros x; cbn [SpecFloat.iter_pos].
  - rewrite !IH, Pos2Nat.inj_xI.
    replace (S (2 * Pos.to_nat p)) with (Pos.to_nat p + (Pos.to_nat p + 1))%nat by lia.
    rewrite !Nat.iter_add. reflexivity.
  - rewrite !IH, Pos2Nat.inj_xO.
    replace (2 * Pos.to_nat p)%nat with (Pos.to_nat p + Pos.to_nat p)%nat by lia.
    rewrite Nat.iter_add. reflexivity.
  - reflexivity.
Qed.

Lemma shr_1_spec m r s :
  0 <= m ->
  shr_1 (Build_shr_record m r s) = Build_shr_record (m / 2) (Z.odd m) (r || s).
Proof.
  intros Hm. destruct m as [|p|p]; [reflexivity| |lia].
  destruct p as [p|p|]; cbn [shr_1].
  - f_equal. Z.div_mod_to_equations. lia.
  - f_equal. Z.div_mod_to_equations. lia.
  - reflexivity.
Qed.

Lemma shr_iter k : forall m,
  0 <= m ->
  let st := Nat.iter k shr_1 (Build_shr_record m false false) in
  shr_m st = m / 2 ^ Z.of_nat k /\
  (m mod 2 ^ Z.of_nat k = 0 -> shr_r st = false /\ shr_s st = false).
Proof.
  induction k as [|k IH]; intros m Hm; cbv zeta.
  - simpl. rewrite Z.div_1_r. auto.
  - rewrite !Nat.iter_succ. destruct (IH m Hm) as [Hq Hex].
    destruct (Nat.iter k shr_1 (Build_shr_record m false false)) as [m' r' s'] eqn:Est.
    cbn [shr_m shr_r shr_s] in *.
    assert (H2k : 0 < 2 ^ Z.of_nat k) by (apply Z.pow_pos_nonneg; lia).
    assert (Hm' : 0 <= m') by (subst m'; apply Z.div_pos; lia).
    rewrite shr_1_spec by exact Hm'. cbn [shr_m shr_r shr_s].
    rewrite Nat2Z.inj_succ, Z.pow_succ_r by lia.
    split.
    + subst m'. rewrite Z.div_div by lia. f_equal. lia.
    + intros Hmod.
      assert (m mod 2 ^ Z.of_nat k = 0 /\ Z.odd m' = false) as [Hk Hodd].
      { subst m'. clear -Hmod H2k Hm.
        set (P := 2 ^ Z.of_nat k) in *.
        apply Z.div_exact in Hmod; [|lia].
        set (q := m / (2 * P)) in *.
        assert (Hm2 : m = 2 * q * P) by lia.
        split.
        - rewrite Hm2. apply Z.mod_mul. lia.
        - rewrite Hm2, Z.div_mul by lia.
          pose proof (Zmod_odd (2 * q)) as Ho.
          replace (2 * q) with (q * 2) in Ho at 1 by lia.
          rewrite Z.mod_mul in Ho by lia.
          destruct (Z.odd (2 * q)); [discriminate | reflexivity]. }
      destruct (Hex Hk) as [-> ->]. rewrite Hodd. auto.
Qed.

Lemma shr_fexp_exact m e :
  0 <= m ->
  let n := fexp 24 128 (Zdigits2 m + e) - e in
  (n <= 0 -> shr_fexp 24 128 m e loc_Exact = (Build_shr_record m false false, e)) /\
  (0 < n -> exists r s,
     shr_fexp 24 128 m e loc_Exact = (Build_shr_record (m / 2 ^ n) r s, e + n) /\
     (m mod 2 ^ n = 0 -> r = false /\ s = false)).
Proof.
  intros Hm n. unfold shr_fexp, shr. fold n. cbn [shr_record_of_loc].
  destruct n as [|p|p] eqn:En.
  - split; [reflexivity | lia].
  - split; [lia|]. intros _.
    rewrite iter_pos_nat.
    destruct (shr_iter (Pos.to_nat p) m Hm) as [Hq Hex].
    rewrite positive_nat_Z in Hq, Hex.
    destruct (Nat.iter (Pos.to_nat p) shr_1 _) as [m' r s].
    cbn [shr_m shr_r shr_s] in *. subst m'. exists r, s. split; [reflexivity | exact Hex].
  - split; [reflexivity | lia].
Qed.

Lemma round_nearest_even_bounds m r s :
  let m' := round_nearest_even m (loc_of_shr_record (Build_shr_record m r s)) in
  m <= m' <= m + 1 /\ (r = false -> s = false -> m' = m).
Proof.
  destruct r, s; cbn; try destruct (Z.even m); split; try lia; intros; congruence.
Qed.

Lemma bounded_facts mx ex :
  bounded 24 128 mx ex = true ->
  -149 <= ex <= 104 /\ Z.pos mx < 2 ^ 24 /\
  Z.pos (digits2_pos mx) <= 24.
Proof.
  unfold bounded, canonical_mantissa, fexp, emin. intros H.
  apply andb_true_iff in H as [H1 H2]. apply Z.eqb_eq in H1. apply Z.leb_le in H2.
  assert (Hd : Z.pos (digits2_pos mx) <= 24) by lia.
  repeat split; try lia.
  pose proof (digits2_pos_bounds mx) as [_ Hlt].
  assert (2 ^ Z.pos (digits2_pos mx) <= 2 ^ 24) by (apply Z.pow_le_mono_r; lia).
  lia.
Qed.

Lemma flt_finite_le mx ex mf ef :
  ef <= ex -> (ef = ex -> Z.pos mf <= Z.pos mx) ->
  flt (S754_finite false mx ex) (S754_finite false mf ef) = false.
Proof.
  intros He Hm. unfold flt, SFltb. cbn [SFcompare].
  destruct (Z.compare_spec ex ef) as [Heq|Hlt|Hgt]; [|lia|reflexivity].
  change (Pos.compare_cont Eq mx mf) with (Pos.compare mx mf).
  destruct (Pos.compare_spec mx mf); try reflexivity.
  specialize (Hm (eq_sym Heq)). lia.
Qed.

Lemma round_le_representable pM E mx ex :
  bounded 24 128 mx ex = true -> E <= ex ->
  Z.pos pM <= Z.pos mx * 2 ^ (ex - E) ->
  flt (S754_finite false mx ex)
      (binary_round_aux 24 128 false (Z.pos pM) E loc_Exact) = false.
Proof.
  intros Hb HE HM.
  destruct (bounded_facts mx ex Hb) as (Hex & Hmx & Hdx).
  set (M := Z.pos pM) in *.
  pose proof (digits2_pos_bounds pM) as [HdMlo HdMhi]. fold M in HdMlo, HdMhi.
  set (dM := Z.pos (digits2_pos pM)) in *.
  assert (HdM : dM + E <= 24 + ex).
  { assert (M < 2 ^ (24 + ex - E)).
    { replace (24 + ex - E) with (24 + (ex - E)) by lia.
      rewrite Z.pow_add_r by lia.
      assert (0 < 2 ^ (ex - E)) by (apply Z.pow_pos_nonneg; lia). nia. }
    assert (dM <= 24 + ex - E) by (apply digits2_pos_le; [lia | assumption]). lia. }
  unfold binary_round_aux.
  destruct (shr_fexp_exact M E ltac:(lia)) as [Hn0 Hn1].
  change (Zdigits2 M) with dM in Hn0, Hn1.
  set (e1 := fexp 24 128 (dM + E)) in *.
  assert (He1 : -149 <= e1 <= ex /\ dM + E - 24 <= e1) by (unfold e1, fexp, emin; lia).
  destruct (Z_le_gt_dec (e1 - E) 0) as [Hn|Hn].
  - (* the product is already representable *)
    rewrite (Hn0 Hn). cbn [shr_m loc_of_shr_record round_nearest_even].
    rewrite (Hn0 Hn). cbn [shr_m]. fold M.
    destruct (E <=? 128 - 24) eqn:Ele; [|apply Z.leb_gt in Ele; lia].
    apply flt_finite_le; [exact HE|]. intros ->. rewrite Z.sub_diag in HM. lia.
  - destruct (Hn1 ltac:(lia)) as (r & s & Hs1 & Hexact). rewrite Hs1.
    cbn [shr_m]. clear Hn0 Hn1 Hs1.
    set (n := e1 - E) in *.
    replace (E + n) with e1 by (unfold n; lia).
    set (m1 := M / 2 ^ n) in *.
    destruct (round_nearest_even_bounds m1 r s) as [Hm2 Hm2x].
    set (m2 := round_nearest_even m1 _) in *.
    assert (H2n : 0 < 2 ^ n) by (apply Z.pow_pos_nonneg; lia).
    set (K := Z.pos mx * 2 ^ (ex - e1)).
    assert (HMK : M <= K * 2 ^ n).
    { unfold K. rewrite <- Z.mul_assoc, <- Z.pow_add_r by lia.
      replace (ex - e1 + n) with (ex - E) by (unfold n; lia). exact HM. }
    assert (Hm1 : 0 <= m1 <= K).
    { split; [apply Z.div_pos; lia|].
      unfold m1. apply Z.div_le_upper_bound; lia. }
    assert (Hm1' : m1 < 2 ^ 24).
    { unfold m1. apply Z.div_lt_upper_bound; [lia|].
      assert (2 ^ dM <= 2 ^ (n + 24)) by (apply Z.pow_le_mono_r; unfold n; lia).
      rewrite Z.pow_add_r in H by lia. lia. }
    assert (Hm2K : m2 <= K).
    { destruct (Z.eq_dec m1 K) as [Heq|Hne]; [|lia].
      assert (M mod 2 ^ n = 0).
      { pose proof (Z.mul_div_le M (2 ^ n) H2n). fold m1 in H. rewrite Heq in H.
        assert (M = K * 2 ^ n) by lia. subst M. rewrite H0. apply Z.mod_mul. lia. }
      destruct (Hexact H) as [-> ->]. rewrite Hm2x by reflexivity. lia. }
    assert (HK : ex = e1 -> K = Z.pos mx).
    { intros ->. unfold K. rewrite Z.sub_diag. lia. }
    assert (HK1 : ex = e1 + 1 -> K = 2 * Z.pos mx).
    { intros ->. unfold K. replace (e1 + 1 - e1) with 1 by lia. lia. }
    destruct (shr_fexp_exact m2 e1 ltac:(lia)) as [Hn0 Hn1].
    destruct (Z_le_gt_dec (fexp 24 128 (Zdigits2 m2 + e1) - e1) 0) as [Hn2|Hn2].
    + rewrite (Hn0 Hn2). cbn [shr_m].
      destruct m2 as [|p2|p2] eqn:Em2; [reflexivity| |lia].
      destruct (e1 <=? 128 - 24) eqn:Ele; [|apply Z.leb_gt in Ele; lia].
      apply flt_finite_le; [lia|]. intros Heq. rewrite <- (HK (eq_sym Heq)). lia.
    + destruct (Hn1 ltac:(lia)) as (r2 & s2 & Hs2 & _). rewrite Hs2. cbn [shr_m].
      assert (Hm2big : m2 = 2 ^ 24).
      { destruct m2 as [|p2|p2] eqn:Em2; [cbn in Hn2; unfold fexp, emin in Hn2; lia| |lia].
        cbn [Zdigits2] in Hn2.
        pose proof (digits2_pos_bounds p2) as [Hlo _].
        assert (25 <= Z.pos (digits2_pos p2)) by (unfold fexp, emin in Hn2; lia).
        assert (2 ^ 24 <= 2 ^ (Z.pos (digits2_pos p2) - 1)) by (apply Z.pow_le_mono_r; lia).
        lia. }
      rewrite Hm2big.
      change (Zdigits2 (2 ^ 24)) with 25.
      replace (fexp 24 128 (25 + e1) - e1) with 1 by (unfold fexp, emin; lia).
      change (2 ^ 24 / 2 ^ 1) with (Z.pos 8388608).
      assert (e1 < ex).
      { destruct (Z.eq_dec e1 ex) as [Heq|]; [|lia]. rewrite (HK (eq_sym Heq)) in Hm2K. lia. }
      destruct (e1 + 1 <=? 128 - 24) eqn:Ele; [|apply Z.leb_gt in Ele; lia].
      apply flt_finite_le; [lia|]. intros Heq.
      rewrite (HK1 (eq_sym Heq)) in Hm2K. change (2 ^ 24) with 16777216 in *. lia.
Qed.

Lemma fle_fone_finite my ey :
  fle (S754_finite false my ey) fone = true ->
  ey < -23 \/ (ey = -23 /\ Z.pos my <= 8388608).
Proof.
  intros H. unfold fle, SFleb, fone in H. cbn [SFcompare] in H.
  destruct (Z.compare_spec ey (-23)) as [Heq|Hlt|Hgt]; [|left; exact Hlt|discriminate].
  right. split; [exact Heq|]. apply Pos2Z.pos_le_pos.
  unfold Pos.le, Pos.compare. intros Hc. rewrite Hc in H. discriminate.
Qed.

Lemma fmul_not_above x y :
  valid_binary 24 128 x = true -> valid_binary 24 128 y = true ->
  fle fzero x = true -> fle fzero y = true -> fle y fone = true ->
  flt x (fmul x y) = false.
Proof.
  intros Vx Vy Hx Hy0 Hy1.
  destruct x as [sx|[]| |[] mx ex]; try discriminate;
    destruct y as [sy|[]| |[] my ey]; try discriminate; try reflexivity.
  cbn [valid_binary] in Vx, Vy. unfold fmul. cbn [SFmul xorb].
  destruct (bounded_facts my ey Vy) as (Hey & Hmy & _).
  apply fle_fone_finite in Hy1. clear Hx Hy0 Vy.
  assert (Hy : ey <= -23 /\ Z.pos my <= 2 ^ (- ey)).
  { destruct Hy1 as [Hlt | [-> Hle]].
    - split; [lia|].
      assert (2 ^ 24 <= 2 ^ (- ey)) by (apply Z.pow_le_mono_r; lia). lia.
    - split; [lia|]. change (2 ^ (- -23)) with 8388608. lia. }
  clear Hy1 Hmy Hey.
  apply round_le_representable; [exact Vx | lia |]. clear Vx.
  replace (ex - (ex + ey)) with (- ey) by lia.
  rewrite Pos2Z.inj_mul. apply Z.mul_le_mono_nonneg_l; lia.
Qed.

Lemma is_nan_eq x : is_nan x = true -> x = S754_nan.
Proof. destruct x; try discriminate; reflexivity. Qed.

Lemma fmul_nan_r x : fmul x S754_nan = S754_nan.
Proof. destruct x; reflexivity. Qed.

Lemma decay_argument ed i :
  fle fzero ed = true -> 0 <= i ->
  let x := fmul (fneg ed) (float_of_int i) in
  is_nan x = true \/ fle x fzero = true.
Proof.
  intros Hed Hi x. subst x.
  pose proof (float_of_int_sign i Hi) as Hs.
  destruct ed as [sd|[]| |[] md de]; try discriminate;
    destruct (float_of_int i) as [si|[]| |[] mi ei]; try discriminate;
    cbn; auto.
  unfold fmul. cbn [SFmul xorb].
  pose proof (binary_round_aux_sign true (Z.pos (md * mi)) (de + ei) loc_Exact) as H.
  destruct (binary_round_aux 24 128 true _ _ loc_Exact) as [s|s| |s m e];
    try subst s; cbn; auto.
Qed.

Lemma fmaxf_between s x y :
  fle x s = true -> flt s y = false ->
  fle x (fmaxf x y) = true /\ fle (fmaxf x y) s = true.
Proof.
  intros Hxs Hsy. destruct (fle_not_nan x s Hxs) as [Nx Ns].
  unfold fmaxf. rewrite Nx.
  destruct (is_nan y) eqn:Ny; [split; [apply fle_refl; exact Nx | exact Hxs]|].
  destruct (flt x y) eqn:E.
  - split; [apply flt_fle, E | apply fle_total; assumption].
  - split; [apply fle_refl; exact Nx | exact Hxs].
Qed.

Lemma epsilon_in_range `{L : Libc} es em ed i :
  expf_decays L ->
  valid_binary 24 128 es = true -> fle fzero es = true ->
  fle fzero ed = true -> fle em es = true -> 0 <= i ->
  fle em (epsilon_at es em ed i) = true /\ fle (epsilon_at es em ed i) es = true.
Proof.
  intros [Hnan Hexp] Ves Hes Hed Hem Hi. unfold epsilon_at.
  apply fmaxf_between; [exact Hem|].
  destruct (decay_argument ed i Hed Hi) as [Hx|Hx].
  - apply is_nan_eq in Hx. cbv zeta in Hx. rewrite Hx, Hnan, fmul_nan_r.
    destruct es as [?|[]| |[] ? ?]; reflexivity.
  - cbv zeta in Hx. destruct (Hexp _ Hx) as (Hv & H0 & H1).
    apply fmul_not_above; assumption.
Qed.

(** ** A valid float read back from its slot is the float written *)

Lemma bounded_normal_or_subnormal m e :
  bounded 24 128 m e = true ->
  (Z.pos m < 8388608 /\ e = -149) \/
  (8388608 <= Z.pos m < 16777216 /\ -149 <= e <= 104).
Proof.
  intros Hb. destruct (bounded_facts m e Hb) as (He & Hm & Hd).
  unfold bounded, canonical_mantissa, fexp, emin in Hb.
  apply andb_true_iff in Hb as [Hc _]. apply Z.eqb_eq in Hc.
  pose proof (digits2_pos_bounds m) as [Hlo Hhi].
  change (2 ^ 24) with 16777216 in Hm.
  destruct (Z_lt_le_dec (Z.pos (digits2_pos m)) 24) as [Hlt|Hge].
  - left. split; [|lia].
    assert (2 ^ Z.pos (digits2_pos m) <= 2 ^ 23) by (apply Z.pow_le_mono_r; lia).
    change (2 ^ 23) with 8388608 in H. lia.
  - right. assert (Z.pos (digits2_pos m) = 24) as Hd24 by lia.
    rewrite Hd24 in Hlo. change (2 ^ (24 - 1)) with 8388608 in Hlo. lia.
Qed.

Lemma float_of_bits_eq b s ex mant :
  0 <= mant < 8388608 -> 0 <= ex < 256 ->
  b = sign_bit s + ex * 8388608 + mant ->
  float_of_bits b =
    if ex =? 0 then
      (if mant =? 0 then S754_zero s else S754_finite s (Z.to_pos mant) (-149))
    else if ex =? 255 then
      (if mant =? 0 then S754_infinity s else S754_nan)
    else S754_finite s (Z.to_pos (mant + 0x800000)) (ex - 150).
Proof.
  intros Hm He Hb.
  assert (Hw : is_word b) by (unfold is_word, sign_bit in *; destruct s; lia).
  destruct (float_of_bits_fields b Hw) as (Hs & Hex & Hmant & _ & _ & _ & _).
  unfold float_of_bits. rewrite Hs, Hex, Hmant.
  assert (b / 2147483648 = (if s then 1 else 0) /\ (b / 8388608) mod 256 = ex /\
          b mod 8388608 = mant) as (-> & -> & ->).
  { unfold sign_bit in Hb. destruct s; Z.div_mod_to_equations; lia. }
  destruct s; reflexivity.
Qed.

Lemma float_of_bits_of_float x :
  valid_binary 24 128 x = true -> float_of_bits (bits_of_float x) = x.
Proof.
  destruct x as [s|s| |s m e]; intros Hv; cbn [bits_of_float].
  - rewrite (float_of_bits_eq _ s 0 0) by lia. reflexivity.
  - rewrite (float_of_bits_eq _ s 255 0) by lia. reflexivity.
  - reflexivity.
  - cbn [valid_binary] in Hv.
    destruct (bounded_normal_or_subnormal m e Hv) as [[Hm He]|[Hm He]].
    + destruct (Z.ltb_spec (Z.pos m) 8388608); [|lia].
      rewrite Z.mod_small by lia.
      rewrite (float_of_bits_eq _ s 0 (Z.pos m)) by lia.
      cbn [Z.eqb]. rewrite He. reflexivity.
    + destruct (Z.ltb_spec (Z.pos m) 8388608); [lia|].
      rewrite Z.mod_small by lia.
      rewrite (float_of_bits_eq _ s (e + 150) (Z.pos m - 8388608)) by lia.
      destruct (Z.eqb_spec (e + 150) 0); [lia|].
      destruct (Z.eqb_spec (e + 150) 255); [lia|].
      replace (Z.pos m - 8388608 + 8388608) with (Z.pos m) by lia.
      replace (e + 150 - 150) with e by lia. reflexivity.
Qed.

(** ** Exploration rate *)

Lemma fmaxf_not_below x y : flt (fmaxf x y) x = false.
Proof.
  unfold fmaxf. destruct (is_nan x) eqn:Nx.
  - destruct x; try discriminate. clear. float_order.
  - destruct (is_nan y) eqn:Ny; [apply flt_irrefl|].
    destruct (flt x y) eqn:E; [|apply flt_irrefl].
    apply fle_not_flt, flt_fle, E.
Qed.

Lemma flt_nan_r x y : is_nan y = true -> flt x y = false.
Proof. float_order. Qed.

Lemma fmaxf_not_above s x y :
  flt s (fmaxf x y) = false <-> flt s x = false /\ flt s y = false.
Proof.
  unfold fmaxf. destruct (is_nan x) eqn:Nx.
  - rewrite (flt_nan_r s x Nx). tauto.
  - destruct (is_nan y) eqn:Ny.
    + rewrite (flt_nan_r s y Ny). tauto.
    + destruct (flt x y) eqn:E.
      * split; [|tauto]. intros H. split; [|exact H].
        destruct (flt s x) eqn:E2; [|reflexivity].
        rewrite (flt_trans s x y E2 E) in H. discriminate.
      * split; [|tauto]. intros H. split; [exact H|].
        destruct (flt s y) eqn:E2; [|reflexivity].
        rewrite (flt_fle_trans s y x E2 (fle_total x y Nx Ny E)) in H. discriminate.
Qed.

Lemma episode_indices_lookup episodes k :
  (k < Z.to_nat episodes)%nat ->
  episode_indices episodes !! k = Some (Z.of_nat k + 1).
Proof.
  intros Hk. unfold episode_indices.
  rewrite list_lookup_fmap, lookup_seq_lt by exact Hk. simpl. f_equal. lia.
Qed.

(** C7 (amended). Episodes are numbered from 1, episode [i] runs with
    [fmaxf em (es * expf (-ed * (float)i))], and this rate is never below
    [em].  It is not above [es] exactly when neither [em] nor the decayed
    term [es * expf (-ed * (float)i)] is above [es]; in particular it stays
    between [em] and [es] when [em <= es], [es >= 0], [ed >= 0] and [expf]
    maps arguments that are at most 0 into [0,1]. *)
Theorem epsilon_schedule `{L : Libc} fuel env alpha gamma es em ed m g :
  (forall episodes k, (k < Z.to_nat episodes)%nat ->
     episode_indices episodes !! k = Some (Z.of_nat k + 1)) /\
  (forall i rest,
     train_episodes fuel env alpha gamma es em ed (i :: rest) m g =
       ('(m1, steps, ret, g1) ←
          train_loop fuel env alpha gamma
            (fmaxf em (fmul es (expf (fmul (fneg ed) (float_of_int i)))))
            m (mkPos (start_x env) (start_y env)) 0 fzero g;
        '(m2, g2, log) ←
          train_episodes fuel env alpha gamma es em ed rest m1 g1;
        Val (m2, g2, (steps, ret) :: log))) /\
  (forall i,
     let decayed := fmul es (expf (fmul (fneg ed) (float_of_int i))) in
     let eps := epsilon_at es em ed i in
     eps = fmaxf em decayed /\
     flt eps em = false /\
     (flt es eps = false <-> flt es em = false /\ flt es decayed = false)) /\
  (expf_decays L ->
   valid_binary 24 128 es = true -> fle fzero es = true ->
   fle fzero ed = true -> fle em es = true ->
   forall i, 1 <= i ->
     fle em (epsilon_at es em ed i) = true /\
     fle (epsilon_at es em ed i) es = true).
Proof.
  split; [|split; [|split]].
  - apply episode_indices_lookup.
  - intros i rest. reflexivity.
  - intros i decayed eps. split; [reflexivity|]. split.
    + apply fmaxf_not_below.
    + apply fmaxf_not_above.
  - intros Hexp Ves Hes Hed Hem i Hi. apply epsilon_in_range; try assumption. lia.
Qed.

(** C7 as stated fails: with [es] = 0.25 and [em] = 0.5 the rate of the
    first episode is 0.5, above [es]. *)
Lemma epsilon_above_start :
  ~ (forall (L : Libc) (es em ed : float) (i : Z),
       1 <= i -> flt es (epsilon_at es em ed i) = false).
Proof.
  intros H.
  specialize (H ansi_libc (float_of_bits 0x3E800000) (float_of_bits 0x3F000000)
                demo_eps_decay 1 ltac:(lia)).
  vm_compute in H. discriminate H.
Qed.

(** ** Action selection *)

Section Selection.
Context {L : Libc}.
Hypothesis rand_ok : rand_in_range L.

Lemma eps_greedy_action_draws m env s eps g :
  let u := fdiv (float_of_int (rand g).1) (float_of_int RAND_MAX) in
  eps_greedy_action m env s eps g =
    if flt u eps
    then Val (Z.rem (rand (rand g).2).1 ACTIONS, (rand (rand g).2).2)
    else (a ← argmax_a m env s; Val (a, (rand g).2)).
Proof.
  unfold eps_greedy_action. destruct (rand g) as [r1 g1]. simpl.
  destruct (flt _ eps); [|reflexivity].
  destruct (rand g1) as [r2 g2]. reflexivity.
Qed.

Lemma eps_greedy_action_random_range g : 0 <= Z.rem (rand g).1 ACTIONS < ACTIONS.
Proof.
  pose proof (rand_ok g). apply Z.rem_bound_pos; unfold ACTIONS; lia.
Qed.

Lemma eps_greedy_action_eps_zero m env s g :
  eps_greedy_action m env s fzero g = (a ← argmax_a m env s; Val (a, (rand g).2)).
Proof.
  rewrite eps_greedy_action_draws. cbv zeta.
  rewrite flt_zero_sign; [reflexivity|].
  pose proof (rand_ok g) as [H0 H1].
  apply fdiv_sign; apply float_of_int_sign; lia.
Qed.

End Selection.

(** Every action has the same number of preimages under [% ACTIONS] when
    [RAND_MAX + 1] is a multiple of [ACTIONS]. *)
Lemma rem_actions_uniform (R a r : Z) :
  (R + 1) mod ACTIONS = 0 -> 0 <= a < ACTIONS ->
  (0 <= r <= R /\ Z.rem r ACTIONS = a) <->
  (exists k, 0 <= k < (R + 1) / ACTIONS /\ r = ACTIONS * k + a).
Proof.
  unfold ACTIONS. intros HR Ha. split.
  - intros [Hr Hrem]. rewrite Z.rem_mod_nonneg in Hrem by lia.
    exists (r / 4). split; Z.div_mod_to_equations; lia.
  - intros (k & Hk & ->). split; [Z.div_mod_to_equations; lia|].
    rewrite Z.rem_mod_nonneg by lia. Z.div_mod_to_equations. lia.
Qed.

(** With [eps] = 1 a draw whose quotient rounds to 1 selects the greedy
    action: the test [1 < 1] fails. *)
Lemma eps_greedy_action_unit_draw `{L : Libc} m env s g :
  fdiv (float_of_int (rand g).1) (float_of_int RAND_MAX) = fone ->
  eps_greedy_action m env s fone g = (a ← argmax_a m env s; Val (a, (rand g).2)).
Proof.
  intros Hu. unfold eps_greedy_action. destruct (rand g) as [r1 g1]. cbn [fst snd] in *.
  rewrite Hu. reflexivity.
Qed.

(** The quotient is 1 when [rand] returns [RAND_MAX], and with a 31-bit
    [RAND_MAX] already for the 65 largest values, which [(float)] rounds up
    to 2^31. *)
Lemma unit_quotients :
  fdiv (float_of_int 32767) (float_of_int 32767) = fone /\
  fdiv (float_of_int 2147483647) (float_of_int 2147483647) = fone /\
  fdiv (float_of_int 2147483584) (float_of_int 2147483647) = fone.
Proof. vm_compute. repeat split. Qed.

(** C8 at a failing input. With [eps] = 1 and a first draw equal to
    [RAND_MAX] the quotient is exactly 1, the test [1 < 1] fails, and the
    greedy action is returned after a single draw. *)
Theorem eps_greedy_action_eps_one_greedy :
  let g := ansi_srand 24884 in
  (ansi_rand g).1 = 32767 /\
  fdiv (float_of_int 32767) (float_of_int 32767) = fone /\
  eps_greedy_action (L := ansi_libc) demo_table demo_env 0 fone g =
    (a ← argmax_a demo_table demo_env 0; Val (a, (ansi_rand g).2)) /\
  eps_greedy_action (L := ansi_libc) demo_table demo_env 0 fone g =
    Val (0, (ansi_rand g).2).
Proof. vm_compute. repeat split. Qed.

(** ** Reproducibility *)

(** The argument loop passes the seed on untouched or replaces it: two
    starting points that differ in the seed only end in results that
    differ in the seed only. *)
Lemma parse_args_two `{C : Strconv} a v rest1 o :
  parse_args (a :: v :: rest1) o =
    let rest := v :: rest1 in
    if String.eqb a "--train" then parse_args rest1 (set_train_eps (atoi v) o)
    else if String.eqb a "--play" then parse_args rest1 (set_play_eps (atoi v) o)
    else if String.eqb a "--render" then parse_args rest o
    else if String.eqb a "--render-every" then parse_args rest1 o
    else if String.eqb a "--save" then parse_args rest1 (set_save_path v o)
    else if String.eqb a "--load" then parse_args rest1 (set_load_path v o)
    else if String.eqb a "--seed"
         then parse_args rest1 (set_seed (atoi v mod 4294967296) o)
    else if String.eqb a "--size" then
      match rest1 with
      | v2 :: rest2 => parse_args rest2 (set_size (atoi v) (atoi v2) o)
      | [] => parse_args rest o
      end
    else if String.eqb a "--alpha" then parse_args rest1 (set_alpha (strtof v) o)
    else if String.eqb a "--gamma" then parse_args rest1 (set_gamma (strtof v) o)
    else if String.eqb a "--eps-start" then parse_args rest1 (set_eps_start (strtof v) o)
    else if String.eqb a "--eps-min" then parse_args rest1 (set_eps_min (strtof v) o)
    else if String.eqb a "--eps-decay" then parse_args rest1 (set_eps_decay (strtof v) o)
    else if String.eqb a "--help" then None
    else parse_args rest o.
Proof. reflexivity. Qed.

Ltac parse_step IH Hab a b :=
  first [ exact I
        | apply IH;
          [ cbn [length] in *; lia
          | first [ exact Hab
                  | destruct a, b;
                    unfold same_but_seed, set_train_eps, set_play_eps, set_seed,
                      set_save_path, set_load_path, set_size, set_alpha, set_gamma,
                      set_eps_start, set_eps_min, set_eps_decay in *;
                    cbn in Hab |- *; congruence ] ] ].

Lemma parse_args_seed `{C : Strconv} n : forall argv a b,
  (length argv <= n)%nat ->
  same_but_seed a b ->
  agree_but_seed (parse_args argv a) (parse_args argv b).
Proof.
  induction n as [|n IH]; intros argv a b Hn Hab.
  - destruct argv; [exact Hab | cbn in Hn; lia].
  - destruct argv as [|x rest]; [exact Hab|].
    destruct rest as [|v rest1].
    + cbn [parse_args]. destruct (String.eqb x "--help"); [exact I | exact Hab].
    + rewrite !parse_args_two. cbv zeta.
      destruct (String.eqb x "--train"); [parse_step IH Hab a b|].
      destruct (String.eqb x "--play"); [parse_step IH Hab a b|].
      destruct (String.eqb x "--render"); [parse_step IH Hab a b|].
      destruct (String.eqb x "--render-every"); [parse_step IH Hab a b|].
      destruct (String.eqb x "--save"); [parse_step IH Hab a b|].
      destruct (String.eqb x "--load"); [parse_step IH Hab a b|].
      destruct (String.eqb x "--seed"); [parse_step IH Hab a b|].
      destruct (String.eqb x "--size");
        [destruct rest1 as [|v2 rest2]; parse_step IH Hab a b|].
      destruct (String.eqb x "--alpha"); [parse_step IH Hab a b|].
      destruct (String.eqb x "--gamma"); [parse_step IH Hab a b|].
      destruct (String.eqb x "--eps-start"); [parse_step IH Hab a b|].
      destruct (String.eqb x "--eps-min"); [parse_step IH Hab a b|].
      destruct (String.eqb x "--eps-decay"); [parse_step IH Hab a b|].
      destruct (String.eqb x "--help"); parse_step IH Hab a b.
Qed.

Lemma default_args_seed now now' : same_but_seed (default_args now) (default_args now').
Proof. reflexivity. Qed.

Lemma same_but_seed_eq a b : same_but_seed a b -> seed a = seed b -> a = b.
Proof. destruct a, b. unfold same_but_seed, set_seed. cbn. intros E1 E2. congruence. Qed.

(** The table a run of [main_run] ends with: the initial table (fresh, or
    the one loaded) when no training is asked for, and otherwise the table
    [train] computes from it and the generator state [srand (seed args)]. *)
Lemma main_run_table `{L : Libc} fuel args fs fs' q plays :
  main_run fuel args fs = Val (fs', q, plays) ->
  exists q0,
    match load_path args with
    | Some p => load_qtable fs p = Val (Some q0)
    | None => qmodel_alloc (arg_W args) (arg_H args) = Val q0
    end /\
    if train_eps args >? 0
    then exists g' log,
           train fuel (env_init (arg_W args) (arg_H args)) q0 (train_eps args)
                 (arg_alpha args) (arg_gamma args) (arg_eps_start args) (arg_eps_min args)
                 (arg_eps_decay args) (srand (seed args)) = Val (q, g', log)
    else q = q0.
Proof.
  unfold main_run.
  destruct (_ || _ || _ || _); [discriminate|]. intros E.
  apply bind_Val_inv in E as (q0 & Ea & E).
  apply bind_Val_inv in E as ([q1 fs1] & Etr & E).
  apply bind_Val_inv in E as (pl & _ & E). injection E as <- <- <-.
  exists q0. split.
  - destruct (load_path args) as [p|]; [|exact Ea].
    apply bind_Val_inv in Ea as ([q0'|] & El & Ea); [|discriminate].
    destruct (negb _ || negb _); [discriminate|]. injection Ea as ->. exact El.
  - destruct (train_eps args >? 0).
    + apply bind_Val_inv in Etr as ([[q' g'] log] & Etr & E).
      exists g', log.
      destruct (save_path args).
      * apply bind_Val_inv in E as (fs2 & _ & E). injection E as <- <-. exact Etr.
      * injection E as <- <-. exact Etr.
    + injection Etr as <- <-. reflexivity.
Qed.

(** C4. Two independent runs of the program with the same seed, the same
    hyper-parameters, the same grid size and the same number of training
    episodes, started from equal initial tables (both fresh, or both loaded
    from files that hold the same table), end with bit-identical tables,
    whatever else differs between them: the files present, the path the
    table is saved to, the number of greedy episodes.  The time of the run
    does not matter either: started at two times [now] and [now'] on the
    same command line and the same files, the program ends in the same way
    (same exit, same files, same table, same play results) whenever both
    runs use the same seed, and they do when [--seed] is the first option.
    (Without [--seed] the seed is the time of the run: see
    [unseeded_runs_differ].) *)
Theorem training_deterministic `{L : Libc} `{C : Strconv} fuel :
  (forall a a' fs fs' fs1 fs1' q q' plays plays',
     seed a = seed a' ->
     arg_W a = arg_W a' -> arg_H a = arg_H a' ->
     arg_alpha a = arg_alpha a' -> arg_gamma a = arg_gamma a' ->
     arg_eps_start a = arg_eps_start a' -> arg_eps_min a = arg_eps_min a' ->
     arg_eps_decay a = arg_eps_decay a' ->
     train_eps a = train_eps a' ->
     (load_path a = None /\ load_path a' = None) \/
     (exists p p', load_path a = Some p /\ load_path a' = Some p' /\
                   load_qtable fs p = load_qtable fs' p') ->
     main_run fuel a fs = Val (fs1, q, plays) ->
     main_run fuel a' fs' = Val (fs1', q', plays') ->
     q = q') /\
  (forall argv now now' fs,
     (forall a a', parse_args (tail argv) (default_args now) = Some a ->
                   parse_args (tail argv) (default_args now') = Some a' ->
                   seed a = seed a') ->
     main fuel argv now fs = main fuel argv now' fs) /\
  (forall prog v rest now now' fs,
     main fuel (prog :: "--seed"%string :: v :: rest) now fs =
     main fuel (prog :: "--seed"%string :: v :: rest) now' fs).
Proof.
  assert (Hgen : forall argv now now' fs,
            (forall a a', parse_args (tail argv) (default_args now) = Some a ->
                 parse_args (tail argv) (default_args now') = Some a' ->
                 seed a = seed a') ->
                 main fuel argv now fs = main fuel argv now' fs).
  { intros argv now now' fs Hseed. unfold main.
    pose proof (parse_args_seed (length (tail argv)) (tail argv) (default_args now)
                  (default_args now') (le_n _) (default_args_seed now now')) as Hp.
    destruct (parse_args (tail argv) (default_args now)) as [a|],
             (parse_args (tail argv) (default_args now')) as [a'|];
      try contradiction; [|reflexivity].
    rewrite (same_but_seed_eq a a' Hp (Hseed a a' eq_refl eq_refl)). reflexivity. }
  split; [|split; [exact Hgen|]].
  - intros a a' fs fs' fs1 fs1' q q' plays plays' Es Ew Eh Eal Ega Ees Eem Eed Et Hinit R R'.
    apply main_run_table in R as (q0 & Hq0 & Hq).
    apply main_run_table in R' as (q0' & Hq0' & Hq').
    rewrite <- Es, <- Ew, <- Eh, <- Eal, <- Ega, <- Ees, <- Eem, <- Eed, <- Et in *.
    assert (E0 : q0 = q0').
    { destruct Hinit as [[Hl Hl'] | (p & p' & Hl & Hl' & Hsame)].
      - rewrite Hl in Hq0. rewrite Hl' in Hq0'. congruence.
      - rewrite Hl in Hq0. rewrite Hl' in Hq0'. congruence. }
    subst q0'.
    destruct (train_eps a >? 0).
    + destruct Hq as (g1 & log1 & T1), Hq' as (g2 & log2 & T2). congruence.
    + congruence.
  - intros prog v rest now now' fs. apply Hgen. cbn [tail]. intros a a' Ea Ea'.
    assert (Efirst : forall t, parse_args ("--seed"%string :: v :: rest) (default_args t) =
                     parse_args rest (set_seed (atoi v mod 4294967296) (default_args t)))
      by reflexivity.
    rewrite Efirst in Ea, Ea'.
    assert (Esame : set_seed (atoi v mod 4294967296) (default_args now) =
                    set_seed (atoi v mod 4294967296) (default_args now')) by reflexivity.
    rewrite Esame in Ea. congruence.
Qed.

(** ** The theorems at sample inputs *)

Lemma ansi_rand_in_range : rand_in_range ansi_libc.
Proof.
  intros g. cbn. unfold ansi_rand. cbn.
  pose proof (Z.mod_pos_bound ((((g * 1103515245 + 12345) mod (SIZE_MAX + 1)) / 65536) mod 4294967296) 32768).
  lia.
Qed.

Lemma demo_env_wf : env_wf demo_env.
Proof. unfold env_wf, MAX_W, MAX_H. simpl. lia. Defined.

Lemma demo_table_fits : table_fits demo_env demo_table.
Proof. reflexivity. Defined.

Lemma env_step_spec_witness :
  let m := moved_cell (mkPos 0 0) 1 in
  let '(ns, r, dn) := env_step demo_env (mkPos 0 0) 1 in
  (in_bounds demo_env m /\ ~ obstacle demo_env m -> ns = m) /\
  (~ in_bounds demo_env m \/ obstacle demo_env m -> ns = mkPos 0 0) /\
  (dn = true <-> ns = goal demo_env) /\
  r = (if dn then goal_reward demo_env else step_reward demo_env).
Proof.
  apply (env_step_spec demo_env (mkPos 0 0) 1);
    [unfold is_int, INT_MIN, INT_MAX; simpl; lia
    |unfold is_int, INT_MIN, INT_MAX; simpl; lia
    |reflexivity
    |lia].
Defined.

Lemma env_step_valid_witness :
  let ns := (env_step demo_env (mkPos 1 1) 1).1.1 in
  (in_bounds demo_env ns /\ ~ obstacle demo_env ns) /\
  (ns = moved_cell (mkPos 1 1) 1 \/ ns = mkPos 1 1).
Proof.
  apply (env_step_valid demo_env (mkPos 1 1) 1);
    [unfold is_int, INT_MIN, INT_MAX; simpl; lia
    |unfold is_int, INT_MIN, INT_MAX; simpl; lia
    |unfold in_bounds; simpl; lia
    |unfold obstacle; vm_compute; intros H; apply H; reflexivity
    |lia].
Defined.

Lemma argmax_a_spec_witness :
  let vals := [fzero; fzero; fzero; fzero] in
  exists a va,
    argmax_a demo_table demo_env 0 = Val a /\ vals !! Z.to_nat a = Some va /\ 0 <= a <= 3 /\
    (forall v, v ∈ vals -> flt va v = false) /\
    (forall i v, (i < Z.to_nat a)%nat -> vals !! i = Some v -> feq v va = false) /\
    ((exists vj, is_max vals vj) ->
       (forall v, v ∈ vals -> fle v va = true) /\
       (forall i v, (i < Z.to_nat a)%nat -> vals !! i = Some v -> flt v va = true)) /\
    (fzero = fzero -> fzero = fzero -> fzero = fzero -> a = 0).
Proof.
  apply (argmax_a_spec demo_table demo_env 0 fzero fzero fzero fzero); reflexivity.
Defined.

Lemma train_step_update_witness :
  let env := demo_env in let m := demo_table in
  let alpha := demo_alpha in let gamma := demo_gamma in
  let eps := fone in let s := mkPos 0 0 in let g := ansi_srand 42 in
  let s_id := state_id env (pos_x s) (pos_y s) in
  exists a g1,
    eps_greedy_action (L := ansi_libc) m env s_id eps g = Val (a, g1) /\
    let '(ns, r, dn) := env_step env s a in
    let ns_id := state_id env (pos_x ns) (pos_y ns) in
    let i := Z.to_nat (idxQ env s_id a) in
    exists old_bits mq m',
      qm_q m !! i = Some old_bits /\
      maxQ m env ns_id = Val mq /\
      let old := float_of_bits old_bits in
      let td_target := fadd r (if dn then fzero else fmul gamma mq) in
      let new := fadd old (fmul alpha (fsub td_target old)) in
      train_step (L := ansi_libc) env m alpha gamma eps s g = Val (m', ns, r, dn, g1) /\
      qm_q m' = <[i := bits_of_float new]> (qm_q m) /\
      qm_q m' !! i = Some (bits_of_float new) /\
      (forall j, j <> i -> qm_q m' !! j = qm_q m !! j) /\
      length (qm_q m') = length (qm_q m) /\
      qm_w m' = qm_w m /\ qm_h m' = qm_h m.
Proof.
  exact (train_step_update (L := ansi_libc) ansi_rand_in_range demo_env demo_table
           demo_alpha demo_gamma fone (mkPos 0 0) (ansi_srand 42)
           demo_env_wf demo_table_fits eq_refl).
Defined.

Lemma episodes_bounded_witness :
  let start := mkPos (start_x demo_env) (start_y demo_env) in
  (exists m' n ret g' s',
     train_loop (L := ansi_libc) 100 demo_env demo_alpha demo_gamma fone demo_table
                start 0 fzero (ansi_srand 42) = Val (m', n, ret, g') /\
     1 <= n <= step_limit demo_env /\
     train_steps (L := ansi_libc) (Z.to_nat n) demo_env demo_alpha demo_gamma fone
                 demo_table start (ansi_srand 42) = Val (m', s', g') /\
     (s' = goal demo_env \/ n = step_limit demo_env) /\
     (forall k, (0 < k < Z.to_nat n)%nat ->
        exists mk sk gk,
          train_steps (L := ansi_libc) k demo_env demo_alpha demo_gamma fone
                      demo_table start (ansi_srand 42) = Val (mk, sk, gk) /\
          sk <> goal demo_env)) /\
  (exists ret n s',
     play_loop 100 demo_env demo_table start fzero 0 = Val (ret, n) /\
     1 <= n <= step_limit demo_env /\
     greedy_pos demo_env demo_table start (Z.to_nat n) = Val s' /\
     (s' = goal demo_env \/ n = step_limit demo_env) /\
     (forall k, (0 < k < Z.to_nat n)%nat ->
        exists sk, greedy_pos demo_env demo_table start k = Val sk /\ sk <> goal demo_env)) /\
  (forall episodes, episodes < INT_MAX ->
     (exists m' g' log,
        train (L := ansi_libc) 100 demo_env demo_table episodes demo_alpha demo_gamma
              fone demo_eps_min demo_eps_decay (ansi_srand 42) = Val (m', g', log) /\
        length log = Z.to_nat episodes /\
        Forall (fun sr => 1 <= sr.1 <= step_limit demo_env) log) /\
     (exists outs,
        play_greedy 100 demo_env demo_table episodes = Val outs /\
        length outs = Z.to_nat episodes /\
        Forall (fun rs => 1 <= rs.2 <= step_limit demo_env) outs)).
Proof.
  apply (episodes_bounded (L := ansi_libc) demo_env demo_table demo_alpha demo_gamma fone
           fone demo_eps_min demo_eps_decay (ansi_srand 42) 100 ansi_rand_in_range
           demo_env_wf demo_table_fits eq_refl).
  - change (step_limit demo_env) with 100. unfold INT_MAX. lia.
  - vm_compute. apply le_n.
Defined.

Lemma demo_small_wf : qmodel_wf demo_small.
Proof.
  unfold qmodel_wf, demo_small. cbn [qm_w qm_h qm_q].
  change (table_size 1 1) with 4.
  unfold is_int, INT_MIN, INT_MAX, SIZE_MAX.
  repeat split; try lia; try reflexivity.
  repeat constructor; unfold is_word; lia.
Defined.

Lemma save_load_roundtrip_witness :
  exists fs',
    save_qtable demo_fs demo_path demo_small = Val fs' /\
    load_qtable fs' demo_path = Val (Some demo_small).
Proof.
  apply (save_load_roundtrip demo_fs demo_path demo_small demo_small_wf);
    apply not_elem_of_empty.
Defined.

(** C3 as stated, for any path, fails: [demo_path] holds a file that can be
    read and cannot be written, the table is well formed, and [save_qtable]
    ends the process with status 1 instead of returning. *)
Lemma save_refused_path :
  ~ (forall fs path m, qmodel_wf m ->
       exists fs', save_qtable fs path m = Val fs' /\
                   load_qtable fs' path = Val (Some m)).
Proof.
  intros H.
  destruct (H demo_readonly_fs demo_path demo_small demo_small_wf) as (fs' & Hs & _).
  rewrite save_qtable_readonly in Hs; [discriminate|].
  unfold demo_readonly_fs. cbn [fs_readonly]. apply elem_of_singleton_2. reflexivity.
Qed.

(** C10. A file of 8 bytes whose header announces 65536 x 65536 cells and
    which holds no value is truncated, and [load_qtable] returns 1 with an
    empty table of that size: the slot count [w*h*ACTIONS] the code
    computes wraps to 0, so no float is asked of [fread] and [r == n].  In
    the same way a header of 1073741825 x 1 cells followed by four values
    loads as a table of four slots, the count wrapping to 4. *)
Theorem load_qtable_wrapped_header :
  fs_files demo_wrapped_fs !! demo_path = Some (int_bytes 65536 ++ int_bytes 65536) /\
  table_size 65536 65536 = 0 /\
  load_qtable demo_wrapped_fs demo_path = Val (Some (mkQModel 65536 65536 [])) /\
  fs_files demo_wrapped_four_fs !! demo_path =
    Some (int_bytes 1073741825 ++ int_bytes 1 ++ flat_map word_bytes (qm_q demo_small)) /\
  table_size 1073741825 1 = 4 /\
  load_qtable demo_wrapped_four_fs demo_path =
    Val (Some (mkQModel 1073741825 1 (qm_q demo_small))).
Proof. repeat split. Qed.

Lemma load_qtable_spec_witness :
  load_qtable demo_fs demo_path = Val None /\
  load_qtable demo_truncated_fs demo_path = Val None /\
  load_qtable demo_saved_fs demo_path = Val (Some demo_small) /\
  main (L := ansi_libc) (C := ansi_strconv) 100 demo_load_argv 42 demo_saved_fs = Exit 1.
Proof.
  split; [|split; [|split]].
  - apply (proj1 (load_qtable_spec (L := ansi_libc) (C := ansi_strconv) demo_fs demo_path)).
    right. reflexivity.
  - apply (proj1 (proj2 (proj2 (proj1 (proj2 (proj2
             (load_qtable_spec (L := ansi_libc) (C := ansi_strconv)
                demo_truncated_fs demo_path)))
             Byte.x02 Byte.x00 Byte.x00 Byte.x00 Byte.x02 Byte.x00 Byte.x00 Byte.x00
             (word_bytes 0x3F800000) (not_elem_of_empty demo_path) eq_refl))));
      vm_compute; [discriminate | reflexivity].
  - apply (proj2 (proj2 (proj2 (proj1 (proj2 (proj2
             (load_qtable_spec (L := ansi_libc) (C := ansi_strconv)
                demo_saved_fs demo_path)))
             Byte.x01 Byte.x00 Byte.x00 Byte.x00 Byte.x01 Byte.x00 Byte.x00 Byte.x00
             (flat_map word_bytes (qm_q demo_small)) (not_elem_of_empty demo_path) eq_refl))));
      vm_compute; discriminate.
  - apply (proj2 (proj2 (proj2 (proj2 (load_qtable_spec (L := ansi_libc) (C := ansi_strconv)
                                          demo_saved_fs demo_path))))
             demo_small 100%nat demo_load_argv 42 demo_load_args);
      [reflexivity | reflexivity | reflexivity | left; cbn; lia].
Defined.

Lemma training_deterministic_witness :
  (exists q plays q' plays',
     main_run (L := ansi_libc) 16 demo_seed_args demo_fs = Val (demo_fs, q, plays) /\
     main_run (L := ansi_libc) 16 demo_seed_play_args demo_saved_fs =
       Val (demo_saved_fs, q', plays') /\
     q = q') /\
  main (L := ansi_libc) (C := ansi_strconv) 16 demo_seed_argv 1 demo_fs =
  main (L := ansi_libc) (C := ansi_strconv) 16 demo_seed_argv 2 demo_fs.
Proof.
  assert (R1 : main_run (L := ansi_libc) 16 demo_seed_args demo_fs =
               Val (demo_fs, demo_trained.1.1, [])) by (vm_compute; reflexivity).
  assert (R2 : main_run (L := ansi_libc) 16 demo_seed_play_args demo_saved_fs =
               Val (demo_saved_fs, demo_trained.1.1, demo_trained_play))
    by (vm_compute; reflexivity).
  split.
  - exists demo_trained.1.1, [], demo_trained.1.1, demo_trained_play.
    split; [exact R1|]. split; [exact R2|].
    exact (proj1 (training_deterministic (L := ansi_libc) (C := ansi_strconv) 16)
             demo_seed_args demo_seed_play_args demo_fs demo_saved_fs
             demo_fs demo_saved_fs demo_trained.1.1 demo_trained.1.1 [] demo_trained_play
             eq_refl eq_refl eq_refl eq_refl eq_refl eq_refl eq_refl eq_refl eq_refl
             (or_introl (conj eq_refl eq_refl)) R1 R2).
  - exact (proj2 (proj2 (training_deterministic (L := ansi_libc) (C := ansi_strconv) 16))
             "qgrid"%string "42"%string ["--size"; "2"; "2"; "--train"; "100"]%string
             1 2 demo_fs).
Defined.

Lemma expf_sample_decays : expf_decays ansi_libc.
Proof.
  split; [reflexivity|]. intros x Hx. cbn [expf ansi_libc]. unfold expf_sample.
  destruct (fle_not_nan x fzero Hx) as [-> _]. rewrite Hx. cbv zeta.
  destruct (valid_binary 24 128 _ && fle fzero _ && fle _ fone) eqn:E.
  - apply andb_true_iff in E as [E E3]. apply andb_true_iff in E as [E1 E2]. auto.
  - repeat split; reflexivity.
Qed.

Lemma epsilon_schedule_witness :
  fle demo_eps_min (epsilon_at (L := ansi_libc) fone demo_eps_min demo_eps_decay 1) = true /\
  fle (epsilon_at (L := ansi_libc) fone demo_eps_min demo_eps_decay 1) fone = true.
Proof.
  apply (proj2 (proj2 (proj2 (epsilon_schedule (L := ansi_libc) 100 demo_env demo_alpha
                                 demo_gamma fone demo_eps_min demo_eps_decay
                                 demo_table (ansi_srand 42))))
           expf_sample_decays eq_refl eq_refl eq_refl eq_refl 1).
  lia.
Defined.

(** ** Sample runs *)

(** The first value of the standard's sample generator after [srand(1)]. *)
Example ansi_rand_first_draw : (ansi_rand (ansi_srand 1)).1 = 16838.
Proof. reflexivity. Qed.

Example float_bits_samples :
  float_of_bits 0x3F800000 = fone /\
  bits_of_float (fneg fone) = 0xBF800000 /\
  bits_of_float (float_of_int 10) = 0x41200000 /\
  float_of_bits 0x7F800000 = S754_infinity false /\
  float_of_bits 0x00000001 = S754_finite false 1 (-149).
Proof. repeat split. Qed.

(** After 60 training episodes on the default maze the greedy policy walks
    from the start to the goal in 8 steps, for a return of 3. *)
Example trained_greedy_run :
  match train (L := ansi_libc) 100 demo_env demo_table 60 demo_alpha demo_gamma fone
              demo_eps_min demo_eps_decay (ansi_srand 42) with
  | Val (m, _, _) => play_greedy 100 demo_env m 1
  | _ => Fuel
  end = Val [(float_of_int 3, 8)].
Proof. vm_compute. reflexivity. Qed.


(** The seeded command line of [demo_seed_argv] ends with the table of
    [demo_trained] whenever it is started. *)
Example seeded_runs_agree :
  main (L := ansi_libc) (C := ansi_strconv) 16 demo_seed_argv 1 demo_fs =
    Val (Ran demo_fs demo_trained.1.1 []) /\
  main (L := ansi_libc) (C := ansi_strconv) 16 demo_seed_argv 2 demo_fs =
    Val (Ran demo_fs demo_trained.1.1 []).
Proof. split; vm_compute; reflexivity. Qed.

(** Without [--seed] the seed is the time of the run, and runs started at
    different times end with different tables. *)
Example unseeded_runs_differ :
  main (L := ansi_libc) (C := ansi_strconv) 16 demo_unseeded_argv 1 demo_fs <>
  main (L := ansi_libc) (C := ansi_strconv) 16 demo_unseeded_argv 2 demo_fs.
Proof. intros E. vm_compute in E. discriminate E. Qed.

(** [--help] ends the run with status 0 wherever it stands, also after a
    size the program would refuse. *)
Example help_before_size_check :
  main (L := ansi_libc) (C := ansi_strconv) 16 demo_help_argv 0 demo_fs = Val Helped.
Proof. reflexivity. Qed.
(** * Further properties of the program *)

(** ** The helpers [clamp], [state_id] and [idxQ] *)

(** X1. [clamp] returns a value between its bounds whenever the bounds are
    in order: the argument itself when it lies between them, the nearer
    bound otherwise; clamping twice changes nothing. *)
Theorem clamp_range v lo hi :
  lo <= hi ->
  lo <= clamp v lo hi <= hi /\
  (lo <= v <= hi -> clamp v lo hi = v) /\
  (v < lo -> clamp v lo hi = lo) /\
  (hi < v -> clamp v lo hi = hi) /\
  clamp (clamp v lo hi) lo hi = clamp v lo hi.
Proof.
  intros Hle. unfold clamp.
  destruct (Z.ltb_spec v lo); [|destruct (Z.gtb_spec v hi)].
  - destruct (Z.ltb_spec lo lo); [lia|]. destruct (Z.gtb_spec lo hi); lia.
  - destruct (Z.ltb_spec hi lo); [lia|]. destruct (Z.gtb_spec hi hi); lia.
  - destruct (Z.ltb_spec v lo); [lia|]. destruct (Z.gtb_spec v hi); lia.
Qed.

Lemma clamp_range_witness :
  0 <= clamp 12 0 9 <= 9 /\
  (0 <= 12 <= 9 -> clamp 12 0 9 = 12) /\
  (12 < 0 -> clamp 12 0 9 = 0) /\
  (9 < 12 -> clamp 12 0 9 = 9) /\
  clamp (clamp 12 0 9) 0 9 = clamp 12 0 9.
Proof. apply (clamp_range 12 0 9). lia. Defined.

Lemma state_id_exact env x y :
  env_wf env -> 0 <= x < env_w env -> 0 <= y < env_h env ->
  state_id env x y = y * env_w env + x /\ 0 <= y * env_w env + x < env_w env * env_h env.
Proof.
  intros [Hw Hh] Hx Hy. unfold state_id, MAX_W, MAX_H in *.
  assert (0 <= y * env_w env <= 9 * 10).
  { split; [apply Z.mul_nonneg_nonneg; lia | apply Z.mul_le_mono_nonneg; lia]. }
  assert (y * env_w env <= (env_h env - 1) * env_w env)
    by (apply Z.mul_le_mono_nonneg_r; lia).
  rewrite (wrap_int_id (y * env_w env)) by (unfold is_int, INT_MIN, INT_MAX; lia).
  rewrite wrap_int_id by (unfold is_int, INT_MIN, INT_MAX; lia).
  split; [reflexivity | lia].
Qed.

(** X2. On a grid that fits the [walls] array, [state_id] numbers the
    cells: every cell gets a number below [w*h], two different cells get
    different numbers, and every number below [w*h] is the number of the
    cell in column [s mod w] of row [s / w]. *)
Theorem state_id_bijection env :
  env_wf env ->
  (forall x y, 0 <= x < env_w env -> 0 <= y < env_h env ->
     0 <= state_id env x y < env_w env * env_h env) /\
  (forall x y x' y',
     0 <= x < env_w env -> 0 <= y < env_h env ->
     0 <= x' < env_w env -> 0 <= y' < env_h env ->
     state_id env x y = state_id env x' y' -> x = x' /\ y = y') /\
  (forall s, 0 <= s < env_w env * env_h env ->
     0 <= s mod env_w env < env_w env /\ 0 <= s / env_w env < env_h env /\
     state_id env (s mod env_w env) (s / env_w env) = s).
Proof.
  intros Hwf. split; [|split].
  - intros x y Hx Hy. destruct (state_id_exact env x y Hwf Hx Hy) as [-> ?]. assumption.
  - intros x y x' y' Hx Hy Hx' Hy' E.
    destruct (state_id_exact env x y Hwf Hx Hy) as [E1 _].
    destruct (state_id_exact env x' y' Hwf Hx' Hy') as [E2 _].
    rewrite E1, E2 in E.
    assert (y = y').
    { assert (Hd : (y * env_w env + x) / env_w env = (y' * env_w env + x') / env_w env)
        by (rewrite E; reflexivity).
      rewrite !Z.div_add_l, !(Z.div_small _ (env_w env)) in Hd by lia. lia. }
    subst y'. split; [lia | reflexivity].
  - intros s Hs.
    assert (Hwpos : 0 < env_w env).
    { destruct (Z_lt_le_dec 0 (env_w env)); [assumption|].
      destruct Hwf as [[? ?] _]. assert (env_w env = 0) as E0 by lia. rewrite E0 in Hs. lia. }
    pose proof (Z.mod_pos_bound s (env_w env) Hwpos) as Hm.
    assert (Hq : 0 <= s / env_w env < env_h env).
    { split; [apply Z.div_pos; lia|]. apply Z.div_lt_upper_bound; lia. }
    split; [exact Hm|]. split; [exact Hq|].
    destruct (state_id_exact env _ _ Hwf Hm Hq) as [-> _].
    pose proof (Z.div_mod s (env_w env) ltac:(lia)). lia.
Qed.

Lemma state_id_bijection_witness :
  (forall x y, 0 <= x < env_w demo_env -> 0 <= y < env_h demo_env ->
     0 <= state_id demo_env x y < env_w demo_env * env_h demo_env) /\
  (forall x y x' y',
     0 <= x < env_w demo_env -> 0 <= y < env_h demo_env ->
     0 <= x' < env_w demo_env -> 0 <= y' < env_h demo_env ->
     state_id demo_env x y = state_id demo_env x' y' -> x = x' /\ y = y') /\
  (forall s, 0 <= s < env_w demo_env * env_h demo_env ->
     0 <= s mod env_w demo_env < env_w demo_env /\
     0 <= s / env_w demo_env < env_h demo_env /\
     state_id demo_env (s mod env_w demo_env) (s / env_w demo_env) = s).
Proof. exact (state_id_bijection demo_env demo_env_wf). Defined.

Lemma idxQ_exact env s a :
  env_wf env -> 0 <= s < env_w env * env_h env -> 0 <= a < ACTIONS ->
  idxQ env s a = s * 4 + a /\ 0 <= s * 4 + a < env_w env * env_h env * ACTIONS.
Proof.
  intros [Hw Hh] Hs Ha. unfold idxQ, ACTIONS, MAX_W, MAX_H in *.
  assert (env_w env * env_h env <= 10 * 10) by (apply Z.mul_le_mono_nonneg; lia).
  rewrite (wrap_int_id (s * 4)) by (unfold is_int, INT_MIN, INT_MAX; lia).
  rewrite wrap_int_id by (unfold is_int, INT_MIN, INT_MAX; lia).
  split; [reflexivity | lia].
Qed.

(** X3. [idxQ] gives every (state, action) pair a slot of its own inside
    the table: the index is below [w*h*ACTIONS], and two pairs with the same
    index are the same pair. *)
Theorem idxQ_injective env s a s' a' :
  env_wf env ->
  0 <= s < env_w env * env_h env -> 0 <= a < ACTIONS ->
  0 <= s' < env_w env * env_h env -> 0 <= a' < ACTIONS ->
  0 <= idxQ env s a < env_w env * env_h env * ACTIONS /\
  (idxQ env s a = idxQ env s' a' -> s = s' /\ a = a').
Proof.
  intros Hwf Hs Ha Hs' Ha'.
  destruct (idxQ_exact env s a Hwf Hs Ha) as [-> Hr].
  destruct (idxQ_exact env s' a' Hwf Hs' Ha') as [-> _].
  unfold ACTIONS in *. split; [exact Hr | lia].
Qed.

Lemma idxQ_injective_witness :
  0 <= idxQ demo_env 3 1 < env_w demo_env * env_h demo_env * ACTIONS /\
  (idxQ demo_env 3 1 = idxQ demo_env 7 2 -> 3 = 7 /\ 1 = 2).
Proof.
  apply (idxQ_injective demo_env 3 1 7 2 demo_env_wf);
    change (env_w demo_env * env_h demo_env) with 25; unfold ACTIONS; lia.
Defined.

(** ** The grid built by [env_init] *)

Ltac walls_cell :=
  match goal with
  | |- ?l <> 0 <-> _ =>
      let v := eval vm_compute in l in
      change l with v; split; [try (intros Hn; exfalso; apply Hn; reflexivity); intros _; lia
                              | try lia; intros _; discriminate]
  end.

Lemma env_init_walls_at W H x y :
  0 <= x < MAX_W -> 0 <= y < MAX_H ->
  (walls_at (env_init W H) y x <> 0 <->
   5 <= W /\ 5 <= H /\
   ((x = 2 /\ y = 1) \/ (x = 2 /\ y = 2) \/ (x = 2 /\ y = 3) \/ (x = 1 /\ y = 3))).
Proof.
  unfold MAX_W, MAX_H. intros Hx Hy.
  unfold walls_at, env_init. cbn [walls].
  assert (Hc : exists i j, (i < 10)%nat /\ (j < 10)%nat /\ y = Z.of_nat i /\ x = Z.of_nat j)
    by (exists (Z.to_nat y), (Z.to_nat x); lia).
  destruct Hc as (i & j & Hi & Hj & -> & ->). rewrite !Nat2Z.id. clear Hx Hy.
  destruct (Z.geb_spec W 5) as [HW|HW], (Z.geb_spec H 5) as [HH|HH]; cbn [andb];
  do 10 (destruct i as [|i]; [do 10 (destruct j as [|j]; [walls_cell|]); lia|]); lia.
Qed.

Lemma env_init_valid_cell W H x y :
  size_ok W H -> 0 <= x < W -> 0 <= y < H ->
  (env_valid (env_init W H) x y = true <->
   ~ (5 <= W /\ 5 <= H /\
      ((x = 2 /\ y = 1) \/ (x = 2 /\ y = 2) \/ (x = 2 /\ y = 3) \/ (x = 1 /\ y = 3)))).
Proof.
  unfold size_ok, MAX_W, MAX_H. intros [HW HH] Hx Hy.
  rewrite env_valid_iff. cbn [env_w env_h env_init].
  pose proof (env_init_walls_at W H x y) as Hwalls. unfold MAX_W, MAX_H in Hwalls.
  specialize (Hwalls ltac:(lia) ltac:(lia)).
  destruct (Z.eq_dec (walls_at (env_init W H) y x) 0) as [E|E].
  - split; [intros _ Hc; apply Hwalls in Hc; contradiction | intros _; split; [lia | exact E]].
  - split; [intros [_ E']; contradiction | intros Hn; exfalso; apply Hn, Hwalls, E].
Qed.

Lemma size_ok_ints W H : size_ok W H ->
  wrap_int (W - 1) = W - 1 /\ wrap_int (H - 1) = H - 1 /\
  wrap_int (wrap_int (W * H) * 4) = 4 * W * H /\ 16 <= 4 * W * H <= 400.
Proof.
  unfold size_ok, MAX_W, MAX_H. intros [HW HH].
  assert (2 * 2 <= W * H <= 10 * 10) by (split; apply Z.mul_le_mono_nonneg; lia).
  rewrite !(wrap_int_id (_ - 1)) by (unfold is_int, INT_MIN, INT_MAX; lia).
  rewrite (wrap_int_id (W * H)) by (unfold is_int, INT_MIN, INT_MAX; lia).
  rewrite wrap_int_id by (unfold is_int, INT_MIN, INT_MAX; lia).
  repeat split; lia.
Qed.

Lemma env_init_layout_run W H :
  size_ok W H ->
  let env := env_init W H in
  env_wf env /\
  env_valid env (start_x env) (start_y env) = true /\
  env_valid env (goal_x env) (goal_y env) = true /\
  goal env = mkPos (W - 1) (H - 1) /\
  mkPos (start_x env) (start_y env) <> goal env /\
  step_limit env = 4 * W * H /\ 16 <= step_limit env <= 400.
Proof.
  intros Hs env. pose proof (size_ok_ints W H Hs) as (EW & EH & EL & HL).
  pose proof Hs as [HW HH]. unfold MAX_W, MAX_H in HW, HH.
  assert (Egx : goal_x env = W - 1) by exact EW.
  assert (Egy : goal_y env = H - 1) by exact EH.
  split; [|split; [|split; [|split; [|split; [|split]]]]].
  - unfold env_wf, MAX_W, MAX_H. cbn [env env_init env_w env_h]. lia.
  - apply env_init_valid_cell; [assumption | cbn; lia | cbn; lia |].
    cbn [env env_init start_x start_y]. lia.
  - rewrite Egx, Egy. apply env_init_valid_cell; [assumption | lia | lia | lia].
  - unfold goal. rewrite Egx, Egy. reflexivity.
  - unfold goal. rewrite Egx, Egy. cbn [env env_init start_x start_y].
    intros E. inversion E. lia.
  - exact EL.
  - change (step_limit env) with (wrap_int (wrap_int (W * H) * 4)). rewrite EL. exact HL.
Qed.

(** X4. For every size [main] accepts, [env_init] builds a grid that fits
    the [walls] array, whose start cell (0,0) and goal cell (W-1,H-1) are
    free and different, and whose step limit is [4*W*H], between 16 and
    400: no arithmetic of [env_init] overflows. *)
Theorem env_init_layout W H :
  size_ok W H ->
  let env := env_init W H in
  env_wf env /\
  env_valid env (start_x env) (start_y env) = true /\
  env_valid env (goal_x env) (goal_y env) = true /\
  goal env = mkPos (W - 1) (H - 1) /\
  mkPos (start_x env) (start_y env) <> goal env /\
  step_limit env = 4 * W * H /\ 16 <= step_limit env <= 400.
Proof. exact (env_init_layout_run W H). Qed.

Lemma size_ok_demo : size_ok 5 5.
Proof. unfold size_ok, MAX_W, MAX_H. lia. Defined.

Lemma size_ok_small : size_ok 2 2.
Proof. unfold size_ok, MAX_W, MAX_H. lia. Defined.

Lemma env_init_layout_witness :
  env_wf demo_env /\
  env_valid demo_env (start_x demo_env) (start_y demo_env) = true /\
  env_valid demo_env (goal_x demo_env) (goal_y demo_env) = true /\
  goal demo_env = mkPos (5 - 1) (5 - 1) /\
  mkPos (start_x demo_env) (start_y demo_env) <> goal demo_env /\
  step_limit demo_env = 4 * 5 * 5 /\ 16 <= step_limit demo_env <= 400.
Proof. exact (env_init_layout 5 5 size_ok_demo). Defined.

(** X5. The obstacles of [env_init]: a grid with [W >= 5] and [H >= 5] has
    walls in exactly the four cells (2,1), (2,2), (2,3) and (1,3), a smaller
    grid has none; so on an accepted size a cell of the grid is valid
    exactly when it is not one of these walls. *)
Theorem env_init_walls W H x y :
  0 <= x < MAX_W -> 0 <= y < MAX_H ->
  let wall :=
    5 <= W /\ 5 <= H /\
    ((x = 2 /\ y = 1) \/ (x = 2 /\ y = 2) \/ (x = 2 /\ y = 3) \/ (x = 1 /\ y = 3)) in
  (walls_at (env_init W H) y x <> 0 <-> wall) /\
  (size_ok W H -> x < W -> y < H ->
   (env_valid (env_init W H) x y = true <-> ~ wall)).
Proof.
  intros Hx Hy wall. split.
  - apply env_init_walls_at; assumption.
  - intros Hs HxW HyH. apply env_init_valid_cell; [assumption | lia | lia].
Qed.

Lemma env_init_walls_witness :
  let wall :=
    5 <= 5 /\ 5 <= 5 /\
    ((2 = 2 /\ 3 = 1) \/ (2 = 2 /\ 3 = 2) \/ (2 = 2 /\ 3 = 3) \/ (2 = 1 /\ 3 = 3)) in
  (walls_at (env_init 5 5) 3 2 <> 0 <-> wall) /\
  (size_ok 5 5 -> 2 < 5 -> 3 < 5 ->
   (env_valid (env_init 5 5) 2 3 = true <-> ~ wall)).
Proof. apply (env_init_walls 5 5 2 3); unfold MAX_W, MAX_H; lia. Defined.

(** ** Moving through the grid *)

(** A step onto a free cell of the grid lands there. *)
Lemma env_step_free env p a :
  is_int (env_w env) -> is_int (env_h env) ->
  env_valid env (pos_x p) (pos_y p) = true -> 0 <= a <= 3 ->
  env_valid env (pos_x (moved_cell p a)) (pos_y (moved_cell p a)) = true ->
  (env_step env p a).1.1 = moved_cell p a.
Proof.
  intros Hw Hh Hp Ha Hm. unfold env_step.
  rewrite (moved_cell_no_wrap env p a Hw Hh Hp Ha). rewrite Hm. reflexivity.
Qed.

Lemma walk_app env p xs ys : walk env p (xs ++ ys) = walk env (walk env p xs) ys.
Proof. revert p. induction xs as [|a xs IH]; intros p; [reflexivity | apply IH]. Qed.

Lemma walk_right W H k : forall x,
  size_ok W H -> 0 <= x -> x + Z.of_nat k <= W - 1 ->
  walk (env_init W H) (mkPos x 0) (replicate k 1) = mkPos (x + Z.of_nat k) 0.
Proof.
  induction k as [|k IH]; intros x Hs Hx Hk.
  - cbn. f_equal. lia.
  - cbn [replicate walk].
    pose proof Hs as [HW HH]. unfold MAX_W, MAX_H in HW, HH.
    rewrite env_step_free.
    + change (moved_cell (mkPos x 0) 1) with (mkPos (x + 1) 0).
      rewrite IH by (try assumption; lia). f_equal. lia.
    + cbn; unfold is_int, INT_MIN, INT_MAX; lia.
    + cbn; unfold is_int, INT_MIN, INT_MAX; lia.
    + apply env_init_valid_cell; [assumption | cbn; lia | cbn; lia | cbn; lia].
    + lia.
    + apply env_init_valid_cell; [assumption | cbn; lia | cbn; lia | cbn; lia].
Qed.

Lemma walk_down W H k : forall y,
  size_ok W H -> 0 <= y -> y + Z.of_nat k <= H - 1 ->
  walk (env_init W H) (mkPos (W - 1) y) (replicate k 2) = mkPos (W - 1) (y + Z.of_nat k).
Proof.
  induction k as [|k IH]; intros y Hs Hy Hk.
  - cbn. f_equal. lia.
  - cbn [replicate walk].
    pose proof Hs as [HW HH]. unfold MAX_W, MAX_H in HW, HH.
    rewrite env_step_free.
    + change (moved_cell (mkPos (W - 1) y) 2) with (mkPos (W - 1) (y + 1)).
      rewrite IH by (try assumption; lia). f_equal. lia.
    + cbn; unfold is_int, INT_MIN, INT_MAX; lia.
    + cbn; unfold is_int, INT_MIN, INT_MAX; lia.
    + apply env_init_valid_cell; [assumption | cbn; lia | cbn; lia | cbn; lia].
    + lia.
    + apply env_init_valid_cell; [assumption | cbn; lia | cbn; lia | cbn; lia].
Qed.

(** X6. The maze of [env_init] can be solved on every accepted size: going
    right [W-1] times along the top row and then down [H-1] times along the
    last column takes the agent from the start to the goal, in [W+H-2]
    steps, which is fewer than the step limit of an episode. *)
Theorem goal_reachable W H :
  size_ok W H ->
  let env := env_init W H in
  let path := replicate (Z.to_nat (W - 1)) 1 ++ replicate (Z.to_nat (H - 1)) 2 in
  walk env (mkPos (start_x env) (start_y env)) path = goal env /\
  Z.of_nat (length path) = W + H - 2 /\
  Z.of_nat (length path) < step_limit env.
Proof.
  intros Hs env path.
  pose proof (size_ok_ints W H Hs) as (EW & EH & EL & HL).
  pose proof Hs as [HW HH]. unfold MAX_W, MAX_H in HW, HH.
  assert (Hlen : Z.of_nat (length path) = W + H - 2).
  { unfold path. rewrite length_app, !length_replicate. lia. }
  split; [|split; [exact Hlen|]].
  - unfold path. rewrite walk_app.
    change (mkPos (start_x env) (start_y env)) with (mkPos 0 0).
    unfold env. rewrite walk_right by (try assumption; lia).
    replace (0 + Z.of_nat (Z.to_nat (W - 1))) with (W - 1) by lia.
    rewrite walk_down by (try assumption; lia).
    unfold goal. cbn [goal_x goal_y env_init]. rewrite EW, EH. f_equal. lia.
  - rewrite Hlen. change (step_limit env) with (wrap_int (wrap_int (W * H) * 4)).
    rewrite EL. nia.
Qed.

Lemma goal_reachable_witness :
  let path := replicate (Z.to_nat (5 - 1)) 1 ++ replicate (Z.to_nat (5 - 1)) 2 in
  walk demo_env (mkPos (start_x demo_env) (start_y demo_env)) path = goal demo_env /\
  Z.of_nat (length path) = 5 + 5 - 2 /\
  Z.of_nat (length path) < step_limit demo_env.
Proof. exact (goal_reachable 5 5 size_ok_demo). Defined.

(** X7. An action number outside 0..3 moves nothing: [env_step] returns
    the position it was given, and the episode is done, with the goal
    reward, exactly when that position is the goal. *)
Theorem env_step_bad_action env p a :
  a < 0 \/ 3 < a ->
  let '(ns, r, dn) := env_step env p a in
  ns = p /\
  (dn = true <-> p = goal env) /\
  r = (if dn then goal_reward env else step_reward env).
Proof.
  intros Ha. unfold env_step.
  destruct (Z.eqb_spec a 0); [lia|]. destruct (Z.eqb_spec a 1); [lia|].
  destruct (Z.eqb_spec a 2); [lia|]. destruct (Z.eqb_spec a 3); [lia|].
  assert (E : (if negb (env_valid env (pos_x p) (pos_y p)) then p else p) = p)
    by (destruct (negb _); reflexivity).
  rewrite E. split; [reflexivity|]. split; [|reflexivity].
  unfold goal. destruct p as [x y]; cbn [pos_x pos_y].
  rewrite andb_true_iff, !Z.eqb_eq.
  split; [intros [-> ->]; reflexivity | intros E'; inversion E'; auto].
Qed.

Lemma env_step_bad_action_witness :
  let '(ns, r, dn) := env_step demo_env (mkPos 1 1) 7 in
  ns = mkPos 1 1 /\
  (dn = true <-> mkPos 1 1 = goal demo_env) /\
  r = (if dn then goal_reward demo_env else step_reward demo_env).
Proof. apply (env_step_bad_action demo_env (mkPos 1 1) 7). lia. Defined.

(** X8. A step that moved the agent went to the neighbouring cell the
    action points at, one cell away, and the opposite action takes the agent
    straight back. *)
Theorem env_step_undo env p a :
  is_int (env_w env) -> is_int (env_h env) ->
  env_valid env (pos_x p) (pos_y p) = true -> 0 <= a <= 3 ->
  let ns := (env_step env p a).1.1 in
  ns <> p ->
  ns = moved_cell p a /\
  Z.abs (pos_x ns - pos_x p) + Z.abs (pos_y ns - pos_y p) = 1 /\
  (env_step env ns (opposite a)).1.1 = p.
Proof.
  intros Hw Hh Hp Ha ns Hne.
  assert (Hns : ns = moved_cell p a /\ env_valid env (pos_x ns) (pos_y ns) = true).
  { split; [|apply env_step_keeps_valid; exact Hp].
    assert (Es : ns = if negb (env_valid env (pos_x (moved_cell p a)) (pos_y (moved_cell p a)))
                      then p else moved_cell p a).
    { unfold ns, env_step. rewrite (moved_cell_no_wrap env p a Hw Hh Hp Ha). reflexivity. }
    rewrite Es in Hne |- *.
    destruct (negb _); [contradiction Hne; reflexivity | reflexivity]. }
  destruct Hns as [Ens Hv]. split; [exact Ens|].
  assert (Hop : 0 <= opposite a <= 3)
    by (unfold opposite; pose proof (Z.mod_pos_bound (a + 2) 4); lia).
  assert (Eback : moved_cell ns (opposite a) = p).
  { rewrite Ens. destruct p as [x y]. unfold opposite, moved_cell.
    assert (a = 0 \/ a = 1 \/ a = 2 \/ a = 3) as [-> | [-> | [-> | ->]]] by lia;
      cbn; f_equal; lia. }
  split.
  - rewrite Ens. destruct p as [x y]. unfold moved_cell.
    assert (a = 0 \/ a = 1 \/ a = 2 \/ a = 3) as [-> | [-> | [-> | ->]]] by lia; cbn; lia.
  - rewrite env_step_free by (try assumption; rewrite Eback; exact Hp). exact Eback.
Qed.

Lemma env_step_undo_witness :
  let ns := (env_step demo_env (mkPos 0 0) 1).1.1 in
  ns = moved_cell (mkPos 0 0) 1 /\
  Z.abs (pos_x ns - 0) + Z.abs (pos_y ns - 0) = 1 /\
  (env_step demo_env ns (opposite 1)).1.1 = mkPos 0 0.
Proof.
  apply (env_step_undo demo_env (mkPos 0 0) 1);
    [unfold is_int, INT_MIN, INT_MAX; simpl; lia
    |unfold is_int, INT_MIN, INT_MAX; simpl; lia
    |reflexivity
    |lia
    |vm_compute; discriminate].
Defined.

(** ** Allocating and reading the table *)

Lemma table_size_negative w h :
  is_int (w * h) -> is_int (w * h * ACTIONS) -> w * h < 0 ->
  SIZE_MAX < table_size w h * 4.
Proof.
  unfold table_size, size_t_of_int, SIZE_MAX, ACTIONS, is_int, INT_MIN, INT_MAX.
  intros H1 H2 Hn.
  rewrite (wrap_int_id (w * h)) by (unfold is_int, INT_MIN, INT_MAX; lia).
  rewrite wrap_int_id by (unfold is_int, INT_MIN, INT_MAX; lia).
  change (18446744073709551615 + 1) with 18446744073709551616.
  assert (Hneg : w * h * 4 < 0) by lia.
  generalize dependent (w * h * 4). intros n Hn4 Hneg.
  Z.div_mod_to_equations. lia.
Qed.

Lemma q_read_zeros w h n i :
  0 <= i < Z.of_nat n -> q_read (mkQModel w h (replicate n 0)) i = Val fzero.
Proof.
  intros Hi. unfold q_read. cbn [qm_q].
  destruct (Z.ltb_spec i 0); [lia|].
  rewrite lookup_replicate_2 by lia. reflexivity.
Qed.

Lemma Forall_is_word_zeros n : Forall is_word (replicate n 0).
Proof. apply Forall_replicate. unfold is_word. lia. Qed.

(** X9. [qmodel_alloc] on dimensions whose products are C ints: a negative
    product turns into a request [calloc] cannot serve, and the process
    exits with status 1; otherwise the table has [w*h*ACTIONS] slots, every
    one of them reads as +0.0, and an index outside 0..w*h*ACTIONS-1 is
    outside the buffer. *)
Theorem qmodel_alloc_outcome w h :
  is_int w -> is_int h -> is_int (w * h) -> is_int (w * h * ACTIONS) ->
  (w * h < 0 -> qmodel_alloc w h = Exit 1) /\
  (0 <= w * h ->
   exists m, qmodel_alloc w h = Val m /\
     qm_w m = w /\ qm_h m = h /\
     Z.of_nat (length (qm_q m)) = w * h * ACTIONS /\
     qmodel_wf m /\
     (forall i, 0 <= i < w * h * ACTIONS -> q_read m i = Val fzero) /\
     (forall i, i < 0 \/ w * h * ACTIONS <= i -> q_read m i = Undef)).
Proof.
  intros Hw Hh H1 H2. split.
  - intros Hn. pose proof (table_size_negative w h H1 H2 Hn) as Hbig.
    unfold qmodel_alloc. destruct (Z.leb_spec (table_size w h * 4) SIZE_MAX); [lia | reflexivity].
  - intros Hp.
    assert (Ets : table_size w h = w * h * ACTIONS)
      by (apply table_size_exact; [assumption | unfold is_int, INT_MIN, INT_MAX, ACTIONS in *; lia]).
    assert (Hfit : table_size w h * 4 <= SIZE_MAX)
      by (rewrite Ets; unfold is_int, INT_MIN, INT_MAX, SIZE_MAX, ACTIONS in *; lia).
    rewrite (qmodel_alloc_ok w h Hfit). eexists; split; [reflexivity|].
    cbn [qm_w qm_h qm_q]. rewrite length_replicate, Ets.
    assert (Hnn : 0 <= w * h * ACTIONS) by (unfold ACTIONS; lia).
    split; [reflexivity|]. split; [reflexivity|]. split; [lia|]. split; [|split].
    + unfold qmodel_wf. cbn [qm_w qm_h qm_q]. rewrite length_replicate.
      split; [assumption|]. split; [assumption|]. split; [assumption|].
      split; [rewrite Ets; lia | apply Forall_is_word_zeros].
    + intros i Hi. apply q_read_zeros. lia.
    + intros i Hi. unfold q_read. cbn [qm_q].
      destruct (Z.ltb_spec i 0); [reflexivity|].
      assert (E : replicate (Z.to_nat (w * h * ACTIONS)) 0 !! Z.to_nat i = None)
        by (apply lookup_replicate_None; lia).
      rewrite E. reflexivity.
Qed.

Lemma qmodel_alloc_outcome_witness :
  (2 * 2 < 0 -> qmodel_alloc 2 2 = Exit 1) /\
  (0 <= 2 * 2 ->
   exists m, qmodel_alloc 2 2 = Val m /\
     qm_w m = 2 /\ qm_h m = 2 /\
     Z.of_nat (length (qm_q m)) = 2 * 2 * ACTIONS /\
     qmodel_wf m /\
     (forall i, 0 <= i < 2 * 2 * ACTIONS -> q_read m i = Val fzero) /\
     (forall i, i < 0 \/ 2 * 2 * ACTIONS <= i -> q_read m i = Undef)).
Proof.
  apply (qmodel_alloc_outcome 2 2); unfold is_int, INT_MIN, INT_MAX, ACTIONS; lia.
Defined.

Lemma table_size_wrapped_negative w h :
  wrap_int (wrap_int (w * h) * ACTIONS) < 0 -> SIZE_MAX < table_size w h * 4.
Proof.
  unfold table_size, size_t_of_int, SIZE_MAX.
  generalize (wrap_int (w * h) * ACTIONS). intros z Hn.
  assert (Hlo : - 2147483648 <= wrap_int z).
  { unfold wrap_int. pose proof (Z.mod_pos_bound (z + 2147483648) 4294967296). lia. }
  change (18446744073709551615 + 1) with 18446744073709551616.
  generalize dependent (wrap_int z). intros n Hn Hlo.
  Z.div_mod_to_equations. lia.
Qed.

(** X10. A file whose header holds dimensions for which the slot count the
    code computes, [w*h*ACTIONS] in [int] arithmetic, is negative (a
    corrupt or hostile file) does not make [load_qtable] return 0: the
    allocation fails and the process exits with status 1, and so does
    [main] when it is asked to load that file.  Every header whose products
    [w*h] and [w*h*ACTIONS] are negative C ints is such a header. *)
Theorem load_qtable_negative_size `{L : Libc} `{C : Strconv} fs path w h rest :
  path ∉ fs_denied fs ->
  fs_files fs !! path = Some (int_bytes w ++ int_bytes h ++ rest) ->
  is_int w -> is_int h ->
  wrap_int (wrap_int (w * h) * ACTIONS) < 0 ->
  load_qtable fs path = Exit 1 /\
  (forall fuel argv now args,
     parse_args (tail argv) (default_args now) = Some args ->
     load_path args = Some path -> size_ok (arg_W args) (arg_H args) ->
     main fuel argv now fs = Exit 1) /\
  (forall w' h', is_int (w' * h') -> is_int (w' * h' * ACTIONS) -> w' * h' < 0 ->
     wrap_int (wrap_int (w' * h') * ACTIONS) < 0).
Proof.
  intros Hd Hf Hw Hh Hn.
  assert (El : load_qtable fs path = Exit 1).
  { rewrite (load_qtable_header fs path w h rest Hd Hf Hw Hh).
    pose proof (table_size_wrapped_negative w h Hn) as Hbig.
    unfold qmodel_alloc.
    destruct (Z.leb_spec (table_size w h * 4) SIZE_MAX); [lia | reflexivity]. }
  split; [exact El|]. split.
  - intros fuel argv now args Ea Hl [HW HH].
    rewrite (main_parsed _ _ _ _ _ Ea). unfold main_run, MAX_W, MAX_H in *.
    destruct (Z.ltb_spec (arg_W args) 2); [lia|].
    destruct (Z.ltb_spec (arg_H args) 2); [lia|].
    destruct (Z.gtb_spec (arg_W args) 10); [lia|].
    destruct (Z.gtb_spec (arg_H args) 10); [lia|].
    cbn [orb]. rewrite Hl, El. reflexivity.
  - intros w' h' H1 H2 Hneg.
    rewrite (wrap_int_id (w' * h')) by exact H1.
    rewrite wrap_int_id by exact H2. unfold ACTIONS. lia.
Qed.

Lemma load_qtable_negative_size_witness :
  load_qtable demo_negative_fs demo_path = Exit 1 /\
  main (L := ansi_libc) (C := ansi_strconv) 100 demo_load_argv 42 demo_negative_fs = Exit 1.
Proof.
  destruct (load_qtable_negative_size (L := ansi_libc) (C := ansi_strconv)
              demo_negative_fs demo_path (-1) 1 [])
    as (El & Em & _);
    [apply not_elem_of_empty | reflexivity
    | unfold is_int, INT_MIN, INT_MAX; lia | unfold is_int, INT_MIN, INT_MAX; lia
    | vm_compute; reflexivity |].
  split; [exact El|].
  apply (Em 100%nat demo_load_argv 42 demo_load_args);
    [reflexivity | reflexivity | unfold size_ok, MAX_W, MAX_H; cbn; lia].
Defined.

(** X11. [maxQ] returns the value stored for the action [argmax_a] picks.
    No action of the state has a larger value, and when the four values
    have a largest element at all (no NaN among them) the result is one. *)
Theorem maxQ_bound m env s v0 v1 v2 v3 :
  q_read m (idxQ env s 0) = Val v0 ->
  q_read m (idxQ env s 1) = Val v1 ->
  q_read m (idxQ env s 2) = Val v2 ->
  q_read m (idxQ env s 3) = Val v3 ->
  let vals := [v0; v1; v2; v3] in
  exists a mq,
    maxQ m env s = Val mq /\
    argmax_a m env s = Val a /\ vals !! Z.to_nat a = Some mq /\
    (forall v, v ∈ vals -> flt mq v = false) /\
    ((exists vj, is_max vals vj) -> is_max vals mq).
Proof.
  intros R0 R1 R2 R3 vals.
  destruct (maxQ_argmax m env s v0 v1 v2 v3 R0 R1 R2 R3) as (a & va & Ea & Rva & Em).
  destruct (argmax_a_scan_max m env s v0 v1 v2 v3 R0 R1 R2 R3)
    as (a' & va' & Ea' & Hl & Hr & Hnlt & _ & Hmax & _).
  rewrite Ea in Ea'. injection Ea' as <-.
  assert (va' = va).
  { assert (a = 0 \/ a = 1 \/ a = 2 \/ a = 3) as [-> | [-> | [-> | ->]]] by lia;
      unfold vals in Hl; vm_compute in Hl; congruence. }
  subst va'. exists a, va. split; [exact Em|]. split; [exact Ea|]. split; [exact Hl|].
  split; [exact Hnlt|].
  intros Hex. split.
  - apply (list_elem_of_lookup_2 _ (Z.to_nat a)). exact Hl.
  - apply Hmax. exact Hex.
Qed.

Lemma maxQ_bound_witness :
  let vals := [fone; fzero; float_of_int 10; fneg fone] in
  exists a mq,
    maxQ demo_small (env_init 1 1) 0 = Val mq /\
    argmax_a demo_small (env_init 1 1) 0 = Val a /\ vals !! Z.to_nat a = Some mq /\
    (forall v, v ∈ vals -> flt mq v = false) /\
    ((exists vj, is_max vals vj) -> is_max vals mq).
Proof.
  apply (maxQ_bound demo_small (env_init 1 1) 0 fone fzero (float_of_int 10) (fneg fone));
    reflexivity.
Defined.

(** ** Choosing an action *)

Lemma flt_nonpos eps u :
  sign_clear u = true -> is_nan eps = true \/ fle eps fzero = true -> flt u eps = false.
Proof.
  unfold fzero, sign_clear. intros Hu [Hn|Hle]; revert Hu.
  - destruct eps; try discriminate. destruct u as [[]|[]| |[] ? ?]; reflexivity.
  - revert Hle. float_order.
Qed.

Section Exploration.

Context {L : Libc}.
Hypothesis rand_ok : rand_in_range L.

(** X12. On a valid state [eps_greedy_action] always returns an action in
    0..3: either the greedy one after one draw from the generator, or a
    random one after two draws.  With an exploration rate that is zero,
    negative or NaN it never explores: the greedy action, one draw. *)
Theorem eps_greedy_action_outcome env m x y eps g :
  env_wf env -> table_fits env m -> env_valid env x y = true ->
  let s := state_id env x y in
  exists greedy,
    argmax_a m env s = Val greedy /\ 0 <= greedy <= 3 /\
    (eps_greedy_action m env s eps g = Val (greedy, (rand g).2) \/
     exists a, 0 <= a <= 3 /\
       eps_greedy_action m env s eps g = Val (a, (rand (rand g).2).2)) /\
    (is_nan eps = true \/ fle eps fzero = true ->
     eps_greedy_action m env s eps g = Val (greedy, (rand g).2)).
Proof.
  intros Hwf Hfit Hv s. subst s.
  destruct (argmax_a_total env m x y Hwf Hfit Hv) as (ag & Eg & Hg).
  exists ag. split; [exact Eg|]. split; [exact Hg|].
  assert (Hdraw : eps_greedy_action m env (state_id env x y) eps g =
    if flt (fdiv (float_of_int (rand g).1) (float_of_int RAND_MAX)) eps
    then Val (Z.rem (rand (rand g).2).1 ACTIONS, (rand (rand g).2).2)
    else Val (ag, (rand g).2)).
  { unfold eps_greedy_action. destruct (rand g) as [r1 g1]. cbn [fst snd].
    destruct (flt _ eps); [destruct (rand g1); reflexivity|].
    rewrite Eg. reflexivity. }
  rewrite Hdraw. split.
  - destruct (flt _ eps); [right | left; reflexivity].
    eexists; split; [|reflexivity].
    pose proof (rand_ok (rand g).2) as Hr. unfold ACTIONS.
    pose proof (Z.rem_bound_pos (rand (rand g).2).1 4). lia.
  - intros Heps. rewrite flt_nonpos; [reflexivity | | exact Heps].
    pose proof (rand_ok g) as Hr.
    apply fdiv_sign; apply float_of_int_sign; lia.
Qed.

End Exploration.

Lemma eps_greedy_action_outcome_witness :
  let s := state_id demo_env 0 0 in
  let g := ansi_srand 42 in
  exists greedy,
    argmax_a demo_table demo_env s = Val greedy /\ 0 <= greedy <= 3 /\
    (eps_greedy_action (L := ansi_libc) demo_table demo_env s fzero g
       = Val (greedy, (ansi_rand g).2) \/
     exists a, 0 <= a <= 3 /\
       eps_greedy_action (L := ansi_libc) demo_table demo_env s fzero g
         = Val (a, (ansi_rand (ansi_rand g).2).2)) /\
    (is_nan fzero = true \/ fle fzero fzero = true ->
     eps_greedy_action (L := ansi_libc) demo_table demo_env s fzero g
       = Val (greedy, (ansi_rand g).2)).
Proof.
  exact (eps_greedy_action_outcome (L := ansi_libc) ansi_rand_in_range demo_env demo_table
           0 0 fzero (ansi_srand 42) demo_env_wf demo_table_fits eq_refl).
Defined.

(** ** What training and greedy play keep fixed *)

Section Shape.

Context {L : Libc}.

Lemma train_loop_shape env alpha gamma eps fuel : forall m s steps ret g m' steps' ret' g',
  train_loop fuel env alpha gamma eps m s steps ret g = Val (m', steps', ret', g') ->
  same_shape m m'.
Proof.
  induction fuel as [|fuel IH]; intros m s steps ret g m' steps' ret' g' E; [discriminate|].
  cbn [train_loop] in E.
  apply bind_Val_inv in E as ([[[[m1 ns] r] dn] g1] & Es & E).
  apply train_step_shape in Es as [Hs _].
  destruct (dn || _).
  - injection E as <- <- <- <-. exact Hs.
  - apply IH in E. exact (same_shape_trans _ _ _ Hs E).
Qed.

Lemma train_episodes_shape env alpha gamma es em ed fuel : forall eps m g m' g' log,
  train_episodes fuel env alpha gamma es em ed eps m g = Val (m', g', log) ->
  same_shape m m' /\ length log = length eps.
Proof.
  induction eps as [|ep eps IH]; intros m g m' g' log E.
  - injection E as <- <- <-. split; [apply same_shape_refl | reflexivity].
  - cbn [train_episodes] in E.
    apply bind_Val_inv in E as ([[[m1 steps] ret] g1] & El & E).
    apply bind_Val_inv in E as ([[m2 g2] log2] & Ee & E).
    injection E as <- <- <-.
    apply train_loop_shape in El. apply IH in Ee as [Hs Hlen].
    split; [exact (same_shape_trans _ _ _ El Hs) | cbn; rewrite Hlen; reflexivity].
Qed.

Lemma train_shape_run fuel env m episodes alpha gamma es em ed g m' g' log :
  train fuel env m episodes alpha gamma es em ed g = Val (m', g', log) ->
  qm_w m' = qm_w m /\ qm_h m' = qm_h m /\
  length (qm_q m') = length (qm_q m) /\
  (table_fits env m -> table_fits env m') /\
  (qmodel_wf m -> qmodel_wf m') /\
  length log = Z.to_nat episodes /\
  (episodes <= 0 -> m' = m /\ g' = g).
Proof.
  intros E. apply train_Val_inv in E as [_ E].
  destruct (train_episodes_shape env alpha gamma es em ed fuel _ _ _ _ _ _ E) as [Hs Hlen].
  pose proof Hs as (Hw & Hh & Hl & _).
  split; [exact Hw|]. split; [exact Hh|]. split; [exact Hl|].
  split; [intros Hf; exact (same_shape_fits _ _ _ Hf Hs)|].
  split; [intros Hf; exact (same_shape_wf _ _ Hf Hs)|].
  split; [rewrite Hlen; apply episode_indices_length|].
  intros Hle. unfold episode_indices in E.
  replace (Z.to_nat episodes) with 0%nat in E by lia.
  cbn in E. injection E as <- <- <-. split; reflexivity.
Qed.

End Shape.

(** X13. Whatever the grid, the table and the parameters, a run of [train]
    that returns never resizes the table: same dimensions, same number of
    slots, still fitting the grid and still well formed if it was; it logs
    one (steps, return) pair per episode, and with a number of episodes
    that is zero or negative it changes neither the table nor the
    generator. *)
Theorem train_shape `{L : Libc} fuel env m episodes alpha gamma es em ed g m' g' log :
  train fuel env m episodes alpha gamma es em ed g = Val (m', g', log) ->
  qm_w m' = qm_w m /\ qm_h m' = qm_h m /\
  length (qm_q m') = length (qm_q m) /\
  (table_fits env m -> table_fits env m') /\
  (qmodel_wf m -> qmodel_wf m') /\
  length log = Z.to_nat episodes /\
  (episodes <= 0 -> m' = m /\ g' = g).
Proof. apply train_shape_run. Qed.

Lemma demo_training_run :
  train (L := ansi_libc) 16 demo_grid demo_blank 100 demo_alpha demo_gamma fone
        demo_eps_min demo_eps_decay (ansi_srand 42)
  = Val (demo_trained.1.1, demo_trained.1.2, demo_trained.2).
Proof. vm_compute. reflexivity. Qed.

Lemma train_shape_witness :
  qm_w demo_trained.1.1 = qm_w demo_blank /\ qm_h demo_trained.1.1 = qm_h demo_blank /\
  length (qm_q demo_trained.1.1) = length (qm_q demo_blank) /\
  (table_fits demo_grid demo_blank -> table_fits demo_grid demo_trained.1.1) /\
  (qmodel_wf demo_blank -> qmodel_wf demo_trained.1.1) /\
  length demo_trained.2 = Z.to_nat 100 /\
  (100 <= 0 -> demo_trained.1.1 = demo_blank /\ demo_trained.1.2 = ansi_srand 42).
Proof.
  apply (train_shape (L := ansi_libc) 16 demo_grid demo_blank 100 demo_alpha demo_gamma fone
           demo_eps_min demo_eps_decay (ansi_srand 42)
           demo_trained.1.1 demo_trained.1.2 demo_trained.2).
  exact demo_training_run.
Defined.

Lemma play_episodes_repeat fuel env m : forall eps outs,
  play_episodes fuel env m eps = Val outs ->
  length outs = length eps /\
  forall out, out ∈ outs ->
    play_loop fuel env m (mkPos (start_x env) (start_y env)) fzero 0 = Val out /\
    outs = replicate (length eps) out.
Proof.
  induction eps as [|ep eps IH]; intros outs E.
  - injection E as <-. split; [reflexivity|]. intros out Hin. inversion Hin.
  - cbn [play_episodes] in E.
    apply bind_Val_inv in E as (o & Eo & E).
    apply bind_Val_inv in E as (os & Eos & E).
    injection E as <-.
    destruct (IH os Eos) as [Hlen Hall].
    split; [cbn; rewrite Hlen; reflexivity|].
    assert (Hos : os = replicate (length eps) o).
    { destruct os as [|o' os']; [destruct eps; [reflexivity | discriminate Hlen]|].
      destruct (Hall o' ltac:(left)) as [Eo' Hrep].
      rewrite Eo in Eo'. injection Eo' as <-. exact Hrep. }
    intros out Hin.
    assert (out = o) as ->.
    { apply elem_of_cons in Hin as [-> | Hin]; [reflexivity|].
      rewrite Hos in Hin. apply elem_of_replicate in Hin as [-> _]. reflexivity. }
    split; [exact Eo|]. cbn [length replicate]. rewrite <- Hos. reflexivity.
Qed.

(** ** The return of an episode *)

Lemma env_step_reward env s a :
  (env_step env s a).1.2 =
    if (env_step env s a).2 then goal_reward env else step_reward env.
Proof. reflexivity. Qed.

Lemma play_loop_return env m fuel :
  is_int (step_limit env) ->
  forall s ret steps ret' steps',
    0 <= steps < step_limit env ->
    ret = acc_return env (Z.to_nat steps) ->
    play_loop fuel env m s ret steps = Val (ret', steps') ->
    steps < steps' <= step_limit env /\
    exists reached,
      ret' = episode_return env steps' reached /\
      (steps' < step_limit env -> reached = true).
Proof.
  intros Hlim. induction fuel as [|fuel IH]; intros s ret steps ret' steps' Hs Hret E;
    [discriminate|].
  cbn [play_loop] in E.
  apply bind_Val_inv in E as (a & _ & E).
  pose proof (env_step_reward env s a) as Hr.
  destruct (env_step env s a) as [[ns r] dn]. cbn [fst snd] in Hr.
  assert (Ew : wrap_int (steps + 1) = steps + 1)
    by (apply wrap_int_id; unfold is_int, INT_MIN, INT_MAX in *; lia).
  rewrite Ew in E.
  destruct (dn || (steps + 1 >=? step_limit env)) eqn:Ex.
  - injection E as <- <-. split; [lia|]. exists dn. split.
    + unfold episode_return. replace (steps + 1 - 1) with steps by lia.
      rewrite <- Hret, Hr. reflexivity.
    + intros Hlt. destruct dn; [reflexivity|]. cbn [orb] in Ex.
      destruct (Z.geb_spec (steps + 1) (step_limit env)); [lia | discriminate].
  - apply orb_false_iff in Ex as [-> Ex]. subst r.
    destruct (Z.geb_spec (steps + 1) (step_limit env)); [discriminate|].
    apply IH in E; [destruct E as [Hst Hex]; split; [lia | exact Hex] | lia |].
    rewrite Hret. replace (Z.to_nat (steps + 1)) with (S (Z.to_nat steps)) by lia.
    reflexivity.
Qed.

Section Returns.

Context {L : Libc}.

Lemma train_loop_return env alpha gamma eps fuel :
  is_int (step_limit env) ->
  forall m s ret steps g m' ret' steps' g',
    0 <= steps < step_limit env ->
    ret = acc_return env (Z.to_nat steps) ->
    train_loop fuel env alpha gamma eps m s steps ret g = Val (m', steps', ret', g') ->
    steps < steps' <= step_limit env /\
    exists reached,
      ret' = episode_return env steps' reached /\
      (steps' < step_limit env -> reached = true).
Proof.
  intros Hlim. induction fuel as [|fuel IH];
    intros m s ret steps g m' ret' steps' g' Hs Hret E; [discriminate|].
  cbn [train_loop] in E.
  apply bind_Val_inv in E as ([[[[m1 ns] r] dn] g1] & Est & E).
  apply train_step_shape in Est as [_ [a Est]].
  pose proof (env_step_reward env s a) as Hr. rewrite <- Est in Hr. cbn [fst snd] in Hr.
  assert (Ew : wrap_int (steps + 1) = steps + 1)
    by (apply wrap_int_id; unfold is_int, INT_MIN, INT_MAX in *; lia).
  rewrite Ew in E.
  destruct (dn || (steps + 1 >=? step_limit env)) eqn:Ex.
  - injection E as <- <- <- <-. split; [lia|]. exists dn. split.
    + unfold episode_return. replace (steps + 1 - 1) with steps by lia.
      rewrite <- Hret, Hr. reflexivity.
    + intros Hlt. destruct dn; [reflexivity|]. cbn [orb] in Ex.
      destruct (Z.geb_spec (steps + 1) (step_limit env)); [lia | discriminate].
  - apply orb_false_iff in Ex as [-> Ex]. subst r.
    destruct (Z.geb_spec (steps + 1) (step_limit env)); [discriminate|].
    apply IH in E; [destruct E as [Hst Hex]; split; [lia | exact Hex] | lia |].
    rewrite Hret. replace (Z.to_nat (steps + 1)) with (S (Z.to_nat steps)) by lia.
    reflexivity.
Qed.

Lemma train_episodes_return env alpha gamma es em ed fuel :
  1 <= step_limit env <= INT_MAX ->
  forall eps m g m' g' log,
    train_episodes fuel env alpha gamma es em ed eps m g = Val (m', g', log) ->
    Forall (fun sr => 1 <= sr.1 <= step_limit env /\
              exists reached, sr.2 = episode_return env sr.1 reached /\
                (sr.1 < step_limit env -> reached = true)) log.
Proof.
  intros Hlim. induction eps as [|ep eps IH]; intros m g m' g' log E.
  - injection E as <- <- <-. constructor.
  - cbn [train_episodes] in E.
    apply bind_Val_inv in E as ([[[m1 steps] ret] g1] & El & E).
    apply bind_Val_inv in E as ([[m2 g2] log2] & Ee & E).
    injection E as <- <- <-.
    constructor; [|exact (IH _ _ _ _ _ Ee)].
    apply train_loop_return in El;
      [ | unfold is_int, INT_MIN, INT_MAX in *; lia | lia | reflexivity].
    destruct El as [Hst Hex]. cbn [fst snd]. split; [lia | exact Hex].
Qed.

End Returns.

Lemma episode_returns_run `{L : Libc} fuel env m episodes alpha gamma es em ed g :
  1 <= step_limit env <= INT_MAX ->
  let ok (steps : Z) (ret : float) :=
    1 <= steps <= step_limit env /\
    exists reached, ret = episode_return env steps reached /\
      (steps < step_limit env -> reached = true) in
  (forall m' g' log,
     train fuel env m episodes alpha gamma es em ed g = Val (m', g', log) ->
     Forall (fun sr => ok sr.1 sr.2) log) /\
  (forall outs,
     play_greedy fuel env m episodes = Val outs ->
     Forall (fun rs => ok rs.2 rs.1) outs).
Proof.
  intros Hlim ok. split.
  - intros m' g' log E. apply train_Val_inv in E as [_ E].
    exact (train_episodes_return _ _ _ _ _ _ _ Hlim _ _ _ _ _ _ E).
  - intros outs E. apply play_greedy_Val_inv in E as [_ E].
    apply Forall_forall. intros [ret steps] Hin.
    destruct (play_episodes_repeat _ _ _ _ _ E) as [_ Hall].
    destruct (Hall _ Hin) as [El _].
    apply play_loop_return in El;
      [ | unfold is_int, INT_MIN, INT_MAX in *; lia | lia | reflexivity].
    destruct El as [Hst Hex]. cbn [fst snd]. split; [lia | exact Hex].
Qed.

(** X15. The return of an episode is a function of its length.  In every
    episode that [train] logs or [play_greedy] reports, the step count is
    between 1 and the step limit, and the return is [steps - 1] step rewards
    added up from 0.0, plus the reward of the last step; that last reward is
    the goal reward whenever the episode ended before the step limit. *)
Theorem episode_returns `{L : Libc} fuel env m episodes alpha gamma es em ed g :
  1 <= step_limit env <= INT_MAX ->
  let ok (steps : Z) (ret : float) :=
    1 <= steps <= step_limit env /\
    exists reached, ret = episode_return env steps reached /\
      (steps < step_limit env -> reached = true) in
  (forall m' g' log,
     train fuel env m episodes alpha gamma es em ed g = Val (m', g', log) ->
     Forall (fun sr => ok sr.1 sr.2) log) /\
  (forall outs,
     play_greedy fuel env m episodes = Val outs ->
     Forall (fun rs => ok rs.2 rs.1) outs).
Proof. apply episode_returns_run. Qed.

Lemma episode_returns_witness :
  let ok (steps : Z) (ret : float) :=
    1 <= steps <= step_limit demo_grid /\
    exists reached, ret = episode_return demo_grid steps reached /\
      (steps < step_limit demo_grid -> reached = true) in
  Forall (fun sr => ok sr.1 sr.2) demo_trained.2 /\
  Forall (fun rs => ok rs.2 rs.1) [(float_of_int (-16), 16)].
Proof.
  destruct (episode_returns (L := ansi_libc) 16 demo_grid demo_blank 100 demo_alpha demo_gamma
              fone demo_eps_min demo_eps_decay (ansi_srand 42)) as [Ht _];
    [change (step_limit demo_grid) with 16; unfold INT_MAX; lia|].
  destruct (episode_returns (L := ansi_libc) 16 demo_grid demo_blank 1 demo_alpha demo_gamma
              fone demo_eps_min demo_eps_decay (ansi_srand 42)) as [_ Hp];
    [change (step_limit demo_grid) with 16; unfold INT_MAX; lia|].
  split.
  - apply (Ht demo_trained.1.1 demo_trained.1.2). exact demo_training_run.
  - apply Hp. vm_compute. reflexivity.
Defined.

(** ** Returns on the default rewards *)

(** With the rewards of [env_init] (-1 a step, +10 at the goal) all sums
    of an episode are small integers, which binary32 adds exactly. *)
Lemma default_rewards_exact k :
  (k < 400)%nat ->
  fadd (float_of_int (- Z.of_nat k)) (fneg fone) = float_of_int (- Z.of_nat k - 1) /\
  fadd (float_of_int (- Z.of_nat k)) (float_of_int 10) = float_of_int (10 - Z.of_nat k).
Proof.
  intros Hk.
  assert (Hall : forallb (fun k =>
            bool_decide (fadd (float_of_int (- Z.of_nat k)) (fneg fone)
                         = float_of_int (- Z.of_nat k - 1)) &&
            bool_decide (fadd (float_of_int (- Z.of_nat k)) (float_of_int 10)
                         = float_of_int (10 - Z.of_nat k))) (seq 0 400) = true)
    by (vm_compute; reflexivity).
  rewrite forallb_forall in Hall.
  specialize (Hall k ltac:(apply in_seq; lia)).
  apply andb_true_iff in Hall as [H1 H2].
  apply bool_decide_eq_true in H1, H2. split; assumption.
Qed.

Lemma acc_return_default W H k :
  (k <= 400)%nat -> acc_return (env_init W H) k = float_of_int (- Z.of_nat k).
Proof.
  induction k as [|k IH]; intros Hk; [reflexivity|].
  change (acc_return (env_init W H) (S k))
    with (fadd (acc_return (env_init W H) k) (fneg fone)).
  rewrite IH by lia.
  rewrite (proj1 (default_rewards_exact k ltac:(lia))). f_equal. lia.
Qed.

Lemma episode_return_default W H steps reached :
  1 <= steps <= 400 ->
  episode_return (env_init W H) steps reached =
    float_of_int (if reached then 11 - steps else - steps).
Proof.
  intros Hs. unfold episode_return.
  rewrite acc_return_default by lia.
  change (step_reward (env_init W H)) with (fneg fone).
  change (goal_reward (env_init W H)) with (float_of_int 10).
  destruct (default_rewards_exact (Z.to_nat (steps - 1)) ltac:(lia)) as [E1 E2].
  destruct reached; [rewrite E2 | rewrite E1]; f_equal; lia.
Qed.

(** X16. On the grid of [env_init], for every accepted size, the numbers
    that [train] logs and [play_greedy] reports obey one formula: an
    episode that reached the goal in [steps] steps has return exactly
    [11 - steps], and the only other episodes are those cut off at the step
    limit [4*W*H], with return exactly [-4*W*H].  No rounding occurs. *)
Theorem default_returns `{L : Libc} fuel W H m episodes alpha gamma es em ed g :
  size_ok W H ->
  let env := env_init W H in
  let ok (steps : Z) (ret : float) :=
    1 <= steps <= 4 * W * H /\
    (ret = float_of_int (11 - steps) \/
     (steps = 4 * W * H /\ ret = float_of_int (- steps))) in
  (forall m' g' log,
     train fuel env m episodes alpha gamma es em ed g = Val (m', g', log) ->
     Forall (fun sr => ok sr.1 sr.2) log) /\
  (forall outs,
     play_greedy fuel env m episodes = Val outs ->
     Forall (fun rs => ok rs.2 rs.1) outs).
Proof.
  intros Hs env ok.
  destruct (env_init_layout_run W H Hs) as (_ & _ & _ & _ & _ & Elim & Hlim).
  fold env in Elim, Hlim.
  assert (Hl : 1 <= step_limit env <= INT_MAX) by (unfold INT_MAX; lia).
  assert (Hok : forall steps ret,
    (1 <= steps <= step_limit env /\
     exists reached, ret = episode_return env steps reached /\
       (steps < step_limit env -> reached = true)) -> ok steps ret).
  { intros steps ret [Hst (reached & -> & Hre)]. unfold ok. rewrite <- Elim.
    split; [exact Hst|]. unfold env. rewrite episode_return_default by lia.
    destruct reached; [left; reflexivity|]. right. split; [|reflexivity].
    destruct (Z_lt_le_dec steps (step_limit env)) as [Hlt|Hge]; [|fold env; lia].
    specialize (Hre Hlt). discriminate. }
  destruct (episode_returns_run fuel env m episodes alpha gamma es em ed g Hl) as [Ht Hp].
  split.
  - intros m' g' log E. eapply Forall_impl; [exact (Ht _ _ _ E)|].
    intros [st rt] Hx. apply Hok. exact Hx.
  - intros outs E. eapply Forall_impl; [exact (Hp _ E)|].
    intros [rt st] Hx. apply Hok. exact Hx.
Qed.

Lemma default_returns_witness :
  let ok (steps : Z) (ret : float) :=
    1 <= steps <= 4 * 2 * 2 /\
    (ret = float_of_int (11 - steps) \/
     (steps = 4 * 2 * 2 /\ ret = float_of_int (- steps))) in
  Forall (fun sr => ok sr.1 sr.2) demo_trained.2.
Proof.
  destruct (default_returns (L := ansi_libc) 16 2 2 demo_blank 100 demo_alpha demo_gamma
              fone demo_eps_min demo_eps_decay (ansi_srand 42) size_ok_small) as [Ht _].
  apply (Ht demo_trained.1.1 demo_trained.1.2). exact demo_training_run.
Defined.

(** ** Playing without a trained table *)

Lemma fresh_table W H :
  size_ok W H ->
  let m0 := mkQModel W H (replicate (Z.to_nat (table_size W H)) 0) in
  qmodel_alloc W H = Val m0 /\ qmodel_wf m0 /\ table_fits (env_init W H) m0.
Proof.
  intros [HW HH] m0. unfold MAX_W, MAX_H in *.
  assert (Ets : table_size W H = W * H * 4).
  { apply table_size_exact; unfold is_int, INT_MIN, INT_MAX, ACTIONS; nia. }
  assert (Hfit : table_size W H * 4 <= SIZE_MAX) by (rewrite Ets; unfold SIZE_MAX; nia).
  split; [apply qmodel_alloc_ok; exact Hfit|]. split.
  - unfold qmodel_wf, m0. cbn [qm_w qm_h qm_q]. rewrite length_replicate.
    split; [unfold is_int, INT_MIN, INT_MAX; lia|].
    split; [unfold is_int, INT_MIN, INT_MAX; lia|].
    split; [exact Hfit|]. split; [rewrite Ets; nia | apply Forall_is_word_zeros].
  - unfold table_fits, m0. cbn [qm_q env_init env_w env_h]. rewrite length_replicate, Ets.
    unfold ACTIONS. nia.
Qed.

(** On an all-zero table the greedy action at the start cell is "up"
    (action 0), which bumps into the border. *)
Lemma fresh_greedy_up W H :
  size_ok W H ->
  let env := env_init W H in
  let m0 := mkQModel W H (replicate (Z.to_nat (table_size W H)) 0) in
  state_id env 0 0 = 0 /\
  argmax_a m0 env 0 = Val 0 /\
  env_step env (mkPos 0 0) 0 = (mkPos 0 0, step_reward env, false) /\
  mkPos 0 0 <> goal env.
Proof.
  intros Hs env m0.
  destruct (env_init_layout_run W H Hs) as (_ & _ & _ & Eg & Hne & Elim & Hlim).
  fold env in Eg, Hne, Elim, Hlim.
  pose proof Hs as [HW HH]. unfold MAX_W, MAX_H in HW, HH.
  assert (Ets : table_size W H = W * H * 4).
  { apply table_size_exact; unfold is_int, INT_MIN, INT_MAX, ACTIONS; nia. }
  assert (Hsid : state_id env 0 0 = 0).
  { unfold state_id. rewrite Z.mul_0_l. reflexivity. }
  assert (Hread : forall a, 0 <= a <= 3 -> q_read m0 (idxQ env 0 a) = Val fzero).
  { intros a Ha. unfold idxQ. rewrite Z.mul_0_l. change (wrap_int 0) with 0. rewrite Z.add_0_l.
    rewrite wrap_int_id by (unfold is_int, INT_MIN, INT_MAX; lia).
    apply q_read_zeros. rewrite Ets. nia. }
  assert (Egx : goal_x env = W - 1) by (injection Eg; auto).
  split; [exact Hsid|]. split; [|split].
  - destruct (argmax_a_scan_max m0 env 0 fzero fzero fzero fzero)
      as (a & va & Ea & _ & _ & _ & _ & _ & Hz); try (apply Hread; lia).
    rewrite Ea, Hz; reflexivity.
  - unfold env_step. cbn [Z.eqb pos_x pos_y].
    change (wrap_int (0 - 1)) with (-1).
    assert (Ev : env_valid env 0 (-1) = false).
    { destruct (env_valid env 0 (-1)) eqn:Ev; [|reflexivity].
      apply env_valid_iff in Ev. lia. }
    rewrite Ev. cbn [negb pos_x pos_y].
    rewrite Egx. destruct (Z.eqb_spec 0 (W - 1)); [lia|]. reflexivity.
  - unfold goal. rewrite Egx. intros E. injection E as E _. lia.
Qed.

Lemma greedy_pos_stuck W H :
  size_ok W H ->
  let env := env_init W H in
  let m0 := mkQModel W H (replicate (Z.to_nat (table_size W H)) 0) in
  forall k, greedy_pos env m0 (mkPos 0 0) k = Val (mkPos 0 0).
Proof.
  intros Hs env m0.
  destruct (fresh_greedy_up W H Hs) as (Hsid & Harg & Hstep & _).
  fold env m0 in Hsid, Harg, Hstep.
  induction k as [|k IH]; [reflexivity|].
  cbn [greedy_pos pos_x pos_y]. rewrite Hsid, Harg, bind_Val, Hstep. exact IH.
Qed.

(** So the agent never leaves the start, and an episode lasts until the
    step limit. *)
Lemma play_loop_stuck W H fuel :
  size_ok W H ->
  let env := env_init W H in
  let m0 := mkQModel W H (replicate (Z.to_nat (table_size W H)) 0) in
  forall steps ret,
    0 <= steps < step_limit env ->
    (Z.to_nat (step_limit env - steps) <= fuel)%nat ->
    play_loop fuel env m0 (mkPos 0 0) ret steps =
      Val (Nat.iter (Z.to_nat (step_limit env - steps))
             (fun r => fadd r (step_reward env)) ret, step_limit env).
Proof.
  intros Hs env m0.
  destruct (env_init_layout_run W H Hs) as (_ & _ & _ & _ & _ & Elim & Hlim).
  fold env in Elim, Hlim.
  destruct (fresh_greedy_up W H Hs) as (Hsid & Harg & Hstep & _).
  fold env m0 in Hsid, Harg, Hstep.
  induction fuel as [|fuel IH]; intros steps ret Hst Hf; [lia|].
  cbn [play_loop pos_x pos_y]. rewrite Hsid, Harg, bind_Val, Hstep.
  rewrite wrap_int_id by (unfold is_int, INT_MIN, INT_MAX; lia).
  cbn [orb].
  destruct (Z.geb_spec (steps + 1) (step_limit env)) as [Hge|Hlt].
  - replace (Z.to_nat (step_limit env - steps)) with 1%nat by lia.
    cbn [Nat.iter]. f_equal. f_equal. lia.
  - rewrite IH by lia. f_equal. f_equal.
    replace (Z.to_nat (step_limit env - steps)) with (S (Z.to_nat (step_limit env - (steps + 1))))
      by lia.
    rewrite Nat.iter_succ_r. reflexivity.
Qed.

(** X17. Running the program with [--play] but without [--train] or
    [--load] never reaches the goal.  On every accepted size the table is
    fresh and all zero; at the start cell the greedy action is then "up"
    (action 0), that step bumps into the top border and leaves the agent on
    the start cell, which is not the goal, so after any number of greedy
    steps the agent is still on the start cell.  Every episode lasts the
    full [4*W*H] steps and reports the return [-4*W*H], for any number of
    episodes below [INT_MAX]; the file system is left as it was. *)
Theorem untrained_play `{L : Libc} `{C : Strconv} fuel argv now args fs :
  let W := arg_W args in
  let H := arg_H args in
  parse_args (tail argv) (default_args now) = Some args ->
  size_ok W H -> load_path args = None -> train_eps args <= 0 ->
  play_eps args < INT_MAX ->
  (Z.to_nat (4 * W * H) <= fuel)%nat ->
  exists m0,
    let env := env_init W H in
    let start := mkPos (start_x env) (start_y env) in
    qmodel_alloc W H = Val m0 /\
    argmax_a m0 env (state_id env (pos_x start) (pos_y start)) = Val 0 /\
    env_step env start 0 = (start, step_reward env, false) /\
    start <> goal env /\
    (forall k, greedy_pos env m0 start k = Val start) /\
    main fuel argv now fs =
      Val (Ran fs m0 (replicate (Z.to_nat (play_eps args))
                                (float_of_int (- (4 * W * H)), 4 * W * H))).
Proof.
  intros W H Ea0 Hs Hload Htrain Hplay Hfuel.
  destruct (env_init_layout_run W H Hs) as (_ & _ & _ & _ & _ & Elim & Hlim).
  pose proof Hs as [HW HH]. unfold MAX_W, MAX_H in HW, HH.
  destruct (fresh_table W H Hs) as (Ea & _ & _).
  destruct (fresh_greedy_up W H Hs) as (Hsid & Harg & Hstep & Hng).
  eexists. cbv zeta. split; [exact Ea|].
  change (start_x (env_init W H)) with 0. change (start_y (env_init W H)) with 0.
  cbn [pos_x pos_y]. rewrite Hsid.
  split; [exact Harg|]. split; [exact Hstep|]. split; [exact Hng|].
  split; [exact (greedy_pos_stuck W H Hs)|].
  rewrite (main_parsed _ _ _ _ _ Ea0).
  unfold main_run. fold W H. unfold MAX_W, MAX_H.
  destruct (Z.ltb_spec W 2); [lia|]. destruct (Z.ltb_spec H 2); [lia|].
  destruct (Z.gtb_spec W 10); [lia|]. destruct (Z.gtb_spec H 10); [lia|].
  cbn [orb]. rewrite Hload, Ea, bind_Val.
  destruct (Z.gtb_spec (train_eps args) 0); [lia|]. rewrite bind_Val.
  destruct (Z.gtb_spec (play_eps args) 0) as [Hp|Hp].
  - assert (Eplay : forall eps, play_episodes fuel (env_init W H)
              (mkQModel W H (replicate (Z.to_nat (table_size W H)) 0)) eps =
              Val (replicate (length eps) (float_of_int (- (4 * W * H)), 4 * W * H))).
    { induction eps as [|ep eps IH]; [reflexivity|].
      cbn [play_episodes]. change (start_x (env_init W H)) with 0.
      change (start_y (env_init W H)) with 0.
      rewrite (play_loop_stuck W H fuel Hs) by (rewrite ?Elim; lia).
      rewrite bind_Val, IH, bind_Val. cbn [length replicate].
      rewrite Z.sub_0_r, Elim. fold (acc_return (env_init W H) (Z.to_nat (4 * W * H))).
      rewrite acc_return_default by lia. rewrite Z2Nat.id by lia. reflexivity. }
    rewrite play_greedy_below by exact Hplay.
    rewrite Eplay, bind_Val, episode_indices_length. reflexivity.
  - rewrite bind_Val. replace (Z.to_nat (play_eps args)) with 0%nat by lia. reflexivity.
Qed.

Lemma untrained_play_witness :
  exists m0,
    let env := env_init 5 5 in
    let start := mkPos (start_x env) (start_y env) in
    qmodel_alloc 5 5 = Val m0 /\
    argmax_a m0 env (state_id env (pos_x start) (pos_y start)) = Val 0 /\
    env_step env start 0 = (start, step_reward env, false) /\
    start <> goal env /\
    (forall k, greedy_pos env m0 start k = Val start) /\
    main (L := ansi_libc) (C := ansi_strconv) 100 demo_play_argv 42 demo_fs =
      Val (Ran demo_fs m0 (replicate (Z.to_nat (play_eps demo_play_args))
                                     (float_of_int (- (4 * 5 * 5)), 4 * 5 * 5))).
Proof.
  apply (untrained_play (L := ansi_libc) (C := ansi_strconv) 100 demo_play_argv 42
           demo_play_args demo_fs);
    [reflexivity | exact size_ok_demo | reflexivity | simpl; lia
    | unfold INT_MAX; simpl; lia | vm_compute; apply le_n].
Defined.

(** ** Files written and read *)

Lemma flat_map_word_bytes_length ws : length (flat_map word_bytes ws) = (4 * length ws)%nat.
Proof. induction ws as [|v ws IH]; [reflexivity|]. cbn [flat_map length app word_bytes]. lia. Qed.

Lemma load_qtable_other fs path bs p :
  p <> path ->
  load_qtable (mkFs (<[path := bs]> (fs_files fs)) (fs_denied fs) (fs_readonly fs)) p =
    load_qtable fs p.
Proof.
  intros Hne. unfold load_qtable. cbn [fs_files fs_denied].
  rewrite lookup_insert_ne by congruence. reflexivity.
Qed.

Lemma save_qtable_effect_run fs path m :
  (path ∈ fs_denied fs -> save_qtable fs path m = Exit 1) /\
  (forall fs', save_qtable fs path m = Val fs' ->
     (path ∉ fs_denied fs) /\
     fs_denied fs' = fs_denied fs /\
     (forall p, p <> path ->
        fs_files fs' !! p = fs_files fs !! p /\ load_qtable fs' p = load_qtable fs p) /\
     exists bs, fs_files fs' !! path = Some bs /\
       Z.of_nat (length bs) = 8 + 4 * table_size (qm_w m) (qm_h m)).
Proof.
  unfold save_qtable. split.
  - intros Hd. destruct (decide (path ∈ fs_denied fs)); [reflexivity | contradiction].
  - intros fs' E. destruct (decide (path ∈ fs_denied fs)) as [|Hd]; [discriminate|].
    destruct (decide (path ∈ fs_readonly fs)) as [|Hro]; [discriminate|].
    destruct (Z.leb_spec (table_size (qm_w m) (qm_h m)) (Z.of_nat (length (qm_q m))))
      as [Hle|]; [|discriminate].
    injection E as <-. cbn [fs_files fs_denied].
    split; [exact Hd|]. split; [reflexivity|]. split.
    + intros p Hne. split; [apply lookup_insert_ne; congruence|].
      apply load_qtable_other. exact Hne.
    + eexists. split; [apply lookup_insert_eq|].
      cbn [length]. rewrite flat_map_word_bytes_length, length_take.
      assert (0 <= table_size (qm_w m) (qm_h m)).
      { unfold table_size, size_t_of_int. apply Z.mod_pos_bound. unfold SIZE_MAX. lia. }
      lia.
Qed.

Lemma save_qtable_writable fs path m fs' :
  save_qtable fs path m = Val fs' ->
  (path ∉ fs_readonly fs) /\ fs_readonly fs' = fs_readonly fs.
Proof.
  unfold save_qtable. intros E.
  destruct (decide (path ∈ fs_denied fs)); [discriminate|].
  destruct (decide (path ∈ fs_readonly fs)) as [|Hro]; [discriminate|].
  destruct (_ <=? _); [|discriminate].
  injection E as <-. split; [exact Hro | reflexivity].
Qed.

(** X18. [save_qtable] either fails to open the file and exits with
    status 1, or writes exactly one file: the set of paths that cannot be
    opened and every other file stay as they were (so other saved tables
    still load as before), and the file written is [8 + 4*n] bytes long,
    [n] being the number of slots the dimensions announce.  A path that can
    be opened for reading only is refused in the same way, and the set of
    such paths stays as it was. *)
Theorem save_qtable_effect fs path m :
  (path ∈ fs_denied fs -> save_qtable fs path m = Exit 1) /\
  (forall fs', save_qtable fs path m = Val fs' ->
     (path ∉ fs_denied fs) /\
     fs_denied fs' = fs_denied fs /\
     (forall p, p <> path ->
        fs_files fs' !! p = fs_files fs !! p /\ load_qtable fs' p = load_qtable fs p) /\
     exists bs, fs_files fs' !! path = Some bs /\
       Z.of_nat (length bs) = 8 + 4 * table_size (qm_w m) (qm_h m)) /\
  (path ∈ fs_readonly fs -> save_qtable fs path m = Exit 1) /\
  (forall fs', save_qtable fs path m = Val fs' ->
     (path ∉ fs_readonly fs) /\ fs_readonly fs' = fs_readonly fs).
Proof.
  split; [apply save_qtable_effect_run|]. split; [apply save_qtable_effect_run|].
  split; [apply save_qtable_readonly | apply save_qtable_writable].
Qed.

Lemma save_qtable_effect_witness :
  save_qtable demo_denied_fs demo_path demo_small = Exit 1 /\
  save_qtable demo_readonly_fs demo_path demo_small = Exit 1 /\
  exists bs, fs_files demo_saved_fs !! demo_path = Some bs /\
    Z.of_nat (length bs) = 8 + 4 * table_size (qm_w demo_small) (qm_h demo_small).
Proof.
  split; [|split].
  - apply (proj1 (save_qtable_effect demo_denied_fs demo_path demo_small)).
    unfold demo_denied_fs. cbn [fs_denied]. apply elem_of_singleton_2. reflexivity.
  - apply (proj1 (proj2 (proj2 (save_qtable_effect demo_readonly_fs demo_path demo_small)))).
    unfold demo_readonly_fs. cbn [fs_readonly]. apply elem_of_singleton_2. reflexivity.
  - destruct (proj1 (proj2 (save_qtable_effect demo_fs demo_path demo_small))
                demo_saved_fs eq_refl)
      as (_ & _ & _ & Hfile).
    exact Hfile.
Defined.

(** X19. [load_qtable] reads the header and as many floats as the header
    announces, and nothing after them: a well-formed table followed by any
    number of further bytes loads as that table. *)
Theorem load_qtable_trailing fs path w h q extra :
  path ∉ fs_denied fs ->
  qmodel_wf (mkQModel w h q) ->
  fs_files fs !! path =
    Some (int_bytes w ++ int_bytes h ++ flat_map word_bytes q ++ extra) ->
  load_qtable fs path = Val (Some (mkQModel w h q)).
Proof.
  intros Hd (Hw & Hh & Halloc & Hlen & Hwords) Hf. cbn [qm_w qm_h qm_q] in *.
  rewrite (load_qtable_header fs path w h _ Hd Hf Hw Hh).
  rewrite qmodel_alloc_ok, bind_Val by exact Halloc. cbv zeta.
  rewrite <- Hlen, fread_floats_words by exact Hwords.
  rewrite Z.eqb_refl. reflexivity.
Qed.

Lemma load_qtable_trailing_witness :
  load_qtable demo_padded_fs demo_path = Val (Some (mkQModel 1 1 (qm_q demo_small))).
Proof.
  apply (load_qtable_trailing demo_padded_fs demo_path 1 1 (qm_q demo_small)
           [Byte.x01; Byte.x02; Byte.x03]);
    [apply not_elem_of_empty | exact demo_small_wf | reflexivity].
Defined.

Lemma fread_floats_are_words k : forall n bs,
  (length bs <= k)%nat -> Forall is_word (fread_floats n bs).
Proof.
  induction k as [|k IH]; intros n bs Hk.
  - destruct bs; [constructor | simpl in Hk; lia].
  - destruct bs as [|b0 [|b1 [|b2 [|b3 rest]]]]; try constructor.
    cbn [fread_floats]. destruct (n <=? 0); [constructor|].
    constructor; [apply word_of_bytes_range | apply IH; simpl in Hk; lia].
Qed.

Lemma wrap_int_is_int z : is_int (wrap_int z).
Proof.
  unfold is_int, wrap_int, INT_MIN, INT_MAX.
  pose proof (Z.mod_pos_bound (z + 2147483648) 4294967296). lia.
Qed.

Lemma int_bytes_of_bytes b0 b1 b2 b3 :
  int_bytes (int_of_bytes b0 b1 b2 b3) = [b0; b1; b2; b3].
Proof.
  unfold int_bytes, int_of_bytes.
  pose proof (word_of_bytes_range b0 b1 b2 b3) as Hr. unfold is_word in Hr.
  assert (E : wrap_int (word_of_bytes b0 b1 b2 b3) mod 4294967296 = word_of_bytes b0 b1 b2 b3).
  { unfold wrap_int. generalize dependent (word_of_bytes b0 b1 b2 b3). intros v Hv.
    Z.div_mod_to_equations. lia. }
  rewrite E. apply word_bytes_of_bytes.
Qed.

Lemma load_qtable_wf fs path m : load_qtable fs path = Val (Some m) -> qmodel_wf m.
Proof.
  unfold load_qtable. intros E.
  destruct (decide (path ∈ fs_denied fs)); [discriminate|].
  destruct (fs_files fs !! path) as [bs|]; [|discriminate].
  destruct bs as [|b0 [|b1 [|b2 [|b3 [|b4 [|b5 [|b6 [|b7 rest]]]]]]]]; try discriminate.
  cbn [fread_int] in E.
  apply bind_Val_inv in E as (m0 & Ea & E). cbv zeta in E.
  unfold qmodel_alloc in Ea.
  destruct (Z.leb_spec (table_size (int_of_bytes b0 b1 b2 b3) (int_of_bytes b4 b5 b6 b7) * 4)
              SIZE_MAX) as [Hfit|]; [|discriminate].
  destruct (Z.eqb_spec (Z.of_nat (length (fread_floats
              (table_size (int_of_bytes b0 b1 b2 b3) (int_of_bytes b4 b5 b6 b7)) rest)))
              (table_size (int_of_bytes b0 b1 b2 b3) (int_of_bytes b4 b5 b6 b7)))
    as [Hlen|]; [|discriminate].
  injection E as <-. unfold qmodel_wf. cbn [qm_w qm_h qm_q].
  split; [apply wrap_int_is_int|]. split; [apply wrap_int_is_int|].
  split; [exact Hfit|]. split; [exact Hlen|].
  apply (fread_floats_are_words (length rest)). lia.
Qed.

(** X20. Loading then saving is the identity on the part of the file that
    was read.  A table that [load_qtable] returns is well formed.  When the
    file can be opened for writing, saving the table to the same path
    succeeds and writes back the first [8 + 4*n] bytes of the file it came
    from, and loading that file gives the same table; when the file can
    only be read, saving ends the process with status 1. *)
Theorem load_then_save fs path m :
  load_qtable fs path = Val (Some m) ->
  qmodel_wf m /\
  (path ∈ fs_readonly fs -> save_qtable fs path m = Exit 1) /\
  (path ∉ fs_readonly fs ->
   exists bs fs',
     fs_files fs !! path = Some bs /\
     save_qtable fs path m = Val fs' /\
     fs_files fs' !! path = Some (take (8 + 4 * length (qm_q m)) bs) /\
     load_qtable fs' path = Val (Some m)).
Proof.
  intros E. pose proof (load_qtable_wf fs path m E) as Hwf.
  split; [exact Hwf|]. split; [apply save_qtable_readonly|]. intros Hro.
  destruct (load_qtable_success fs path m E)
    as (b0 & b1 & b2 & b3 & b4 & b5 & b6 & b7 & rest & Hf & Ew & Eh & Hlen & Hbytes).
  assert (Hd : path ∉ fs_denied fs).
  { unfold load_qtable in E. destruct (decide (path ∈ fs_denied fs)); [discriminate | assumption]. }
  destruct (save_load_roundtrip_run fs path m Hwf Hd Hro) as (fs' & Es & El).
  eexists _, fs'. split; [exact Hf|]. split; [exact Es|]. split; [|exact El].
  assert (Efs : fs' = mkFs (<[path := int_bytes (qm_w m) ++ int_bytes (qm_h m) ++
                               flat_map word_bytes (take (Z.to_nat (table_size (qm_w m) (qm_h m)))
                                                         (qm_q m))]> (fs_files fs))
                           (fs_denied fs) (fs_readonly fs)).
  { unfold save_qtable in Es.
    destruct (decide (path ∈ fs_denied fs)); [contradiction|].
    destruct (decide (path ∈ fs_readonly fs)); [contradiction|].
    destruct (Z.leb_spec (table_size (qm_w m) (qm_h m)) (Z.of_nat (length (qm_q m))));
      [congruence | discriminate]. }
  rewrite Efs. unfold fs_files at 1. rewrite lookup_insert_eq. f_equal.
  rewrite take_ge by lia.
  rewrite Ew, Eh, !int_bytes_of_bytes, Hbytes.
  replace (8 + 4 * length (qm_q m))%nat with (S (S (S (S (S (S (S (S (4 * length (qm_q m))))))))))
    by lia.
  reflexivity.
Qed.

Lemma load_then_save_witness :
  (qmodel_wf demo_small /\
   exists bs fs',
     fs_files demo_padded_fs !! demo_path = Some bs /\
     save_qtable demo_padded_fs demo_path demo_small = Val fs' /\
     fs_files fs' !! demo_path = Some (take (8 + 4 * length (qm_q demo_small)) bs) /\
     load_qtable fs' demo_path = Val (Some demo_small)) /\
  save_qtable demo_readonly_fs demo_path demo_small = Exit 1.
Proof.
  split.
  - destruct (load_then_save demo_padded_fs demo_path demo_small eq_refl) as (Hwf & _ & Hw).
    split; [exact Hwf|]. apply Hw. apply not_elem_of_empty.
  - destruct (load_then_save demo_readonly_fs demo_path demo_small eq_refl) as (_ & Hr & _).
    apply Hr. unfold demo_readonly_fs. cbn [fs_readonly]. apply elem_of_singleton_2.
    reflexivity.
Defined.

(** ** Whole runs of [main] *)

Lemma main_run_checked `{L : Libc} fuel args fs :
  size_ok (arg_W args) (arg_H args) ->
  main_run fuel args fs =
    (q ← match load_path args with
         | Some p =>
             r ← load_qtable fs p;
             match r with
             | None => Exit 1
             | Some q =>
                 if negb (qm_w q =? arg_W args) || negb (qm_h q =? arg_H args) then Exit 1
                 else Val q
             end
         | None => qmodel_alloc (arg_W args) (arg_H args)
         end;
     '(q1, fs1) ←
       (if train_eps args >? 0 then
          '(q', _, _) ← train fuel (env_init (arg_W args) (arg_H args)) q (train_eps args)
                           (arg_alpha args) (arg_gamma args)
                           (arg_eps_start args) (arg_eps_min args)
                           (arg_eps_decay args) (srand (seed args));
          match save_path args with
          | Some p => fs' ← save_qtable fs p q'; Val (q', fs')
          | None => Val (q', fs)
          end
        else Val (q, fs));
     plays ← (if play_eps args >? 0
              then play_greedy fuel (env_init (arg_W args) (arg_H args)) q1 (play_eps args)
              else Val []);
     Val (fs1, q1, plays)).
Proof.
  intros [HW HH]. unfold main_run, MAX_W, MAX_H in *.
  destruct (Z.ltb_spec (arg_W args) 2); [lia|].
  destruct (Z.ltb_spec (arg_H args) 2); [lia|].
  destruct (Z.gtb_spec (arg_W args) 10); [lia|].
  destruct (Z.gtb_spec (arg_H args) 10); [lia|].
  reflexivity.
Qed.

Lemma main_run_size_checked `{L : Libc} fuel args fs r :
  main_run fuel args fs = Val r -> size_ok (arg_W args) (arg_H args).
Proof.
  unfold main_run, size_ok, MAX_W, MAX_H.
  destruct (Z.ltb_spec (arg_W args) 2); [discriminate|].
  destruct (Z.ltb_spec (arg_H args) 2); [discriminate|].
  destruct (Z.gtb_spec (arg_W args) 10); [discriminate|].
  destruct (Z.gtb_spec (arg_H args) 10); [discriminate|].
  intros _. lia.
Qed.

Lemma main_run_bad_size `{L : Libc} fuel args fs :
  arg_W args < 2 \/ arg_H args < 2 \/ MAX_W < arg_W args \/ MAX_H < arg_H args ->
  main_run fuel args fs = Exit 1.
Proof.
  intros Hbad. unfold main_run. unfold MAX_W, MAX_H in *.
  destruct (Z.ltb_spec (arg_W args) 2); [reflexivity|].
  destruct (Z.ltb_spec (arg_H args) 2); [reflexivity|].
  destruct (Z.gtb_spec (arg_W args) 10); [reflexivity|].
  destruct (Z.gtb_spec (arg_H args) 10); [reflexivity|]. lia.
Qed.

(** The two ways in which [main] returns 0. *)
Lemma main_Val_inv `{L : Libc} `{C : Strconv} fuel argv now fs o :
  main fuel argv now fs = Val o ->
  match o with
  | Helped => parse_args (tail argv) (default_args now) = None
  | Ran fs' q plays =>
      exists args, parse_args (tail argv) (default_args now) = Some args /\
                   main_run fuel args fs = Val (fs', q, plays)
  end.
Proof.
  unfold main. destruct (parse_args (tail argv) (default_args now)) as [args|].
  - intros E. apply bind_Val_inv in E as ([[fs1 q1] pl] & Er & E).
    injection E as <-. exists args. split; [reflexivity | exact Er].
  - intros E. injection E as <-. reflexivity.
Qed.

Lemma main_run_result `{L : Libc} fuel args fs fs' q plays :
  main_run fuel args fs = Val (fs', q, plays) ->
  size_ok (arg_W args) (arg_H args) /\
  qm_w q = arg_W args /\ qm_h q = arg_H args /\
  length plays = Z.to_nat (play_eps args) /\
  fs_denied fs' = fs_denied fs /\
  fs_readonly fs' = fs_readonly fs /\
  (forall p, save_path args <> Some p -> fs_files fs' !! p = fs_files fs !! p) /\
  (train_eps args <= 0 \/ save_path args = None -> fs' = fs) /\
  (forall p, train_eps args > 0 -> save_path args = Some p ->
     exists bs, fs_files fs' !! p = Some bs /\
       Z.of_nat (length bs) = 8 + 4 * (arg_W args * arg_H args * ACTIONS)).
Proof.
  intros E. pose proof (main_run_size_checked _ _ _ _ E) as Hs.
  split; [exact Hs|].
  rewrite (main_run_checked _ _ _ Hs) in E.
  apply bind_Val_inv in E as (q0 & Eq0 & E).
  apply bind_Val_inv in E as ([q1 fs1] & Et & E).
  apply bind_Val_inv in E as (pl & Ep & E).
  injection E as <- <- <-.
  assert (Hq0 : qm_w q0 = arg_W args /\ qm_h q0 = arg_H args).
  { destruct (load_path args) as [p|].
    - apply bind_Val_inv in Eq0 as ([ql|] & _ & Eq0); [|discriminate].
      destruct (Z.eqb_spec (qm_w ql) (arg_W args)); [|discriminate].
      destruct (Z.eqb_spec (qm_h ql) (arg_H args)); [|discriminate].
      injection Eq0 as <-. split; assumption.
    - destruct (fresh_table _ _ Hs) as [Ea _]. rewrite Ea in Eq0.
      injection Eq0 as <-. split; reflexivity. }
  assert (Hpl : length pl = Z.to_nat (play_eps args)).
  { destruct (Z.gtb_spec (play_eps args) 0).
    - apply play_greedy_Val_inv in Ep as [_ Ep].
      apply play_episodes_repeat in Ep as [-> _].
      apply episode_indices_length.
    - injection Ep as <-. cbn. lia. }
  pose proof Hs as [HW HH]. unfold MAX_W, MAX_H in HW, HH.
  assert (Ets : table_size (arg_W args) (arg_H args) = arg_W args * arg_H args * ACTIONS).
  { apply table_size_exact; unfold is_int, INT_MIN, INT_MAX, ACTIONS; nia. }
  destruct (Z.gtb_spec (train_eps args) 0) as [Hpos|Hnp].
  - apply bind_Val_inv in Et as ([[q' g'] log] & Etr & Et).
    apply train_shape_run in Etr as (Hw & Hh & _).
    destruct (save_path args) as [p|] eqn:Esp.
    + apply bind_Val_inv in Et as (fs2 & Es & Et). injection Et as <- <-.
      destruct (save_qtable_effect_run fs p q') as [_ Hsave].
      destruct (Hsave _ Es) as (_ & Hden & Hoth & bs & Hbs & Hlen).
      destruct (save_qtable_writable _ _ _ _ Es) as [_ Hro].
      split; [lia|]. split; [lia|]. split; [exact Hpl|]. split; [exact Hden|].
      split; [exact Hro|].
      split; [intros p' Hne; apply Hoth; congruence|].
      split; [intros [Hle|Hnone]; [lia | discriminate]|].
      intros p' _ Hp'. injection Hp' as <-. exists bs. split; [exact Hbs|].
      rewrite Hlen, Hw, Hh. destruct Hq0 as [-> ->]. rewrite Ets. reflexivity.
    + injection Et as <- <-.
      split; [lia|]. split; [lia|]. split; [exact Hpl|]. split; [reflexivity|].
      split; [reflexivity|].
      split; [reflexivity|]. split; [reflexivity|]. intros p' _ Hp'. discriminate.
  - injection Et as <- <-.
    split; [tauto|]. split; [tauto|]. split; [exact Hpl|]. split; [reflexivity|].
    split; [reflexivity|].
    split; [reflexivity|]. split; [reflexivity|]. intros p' Hp'. lia.
Qed.

(** X21. What a run of [main] that returns 0 leaves behind.  Either the
    argument loop met [--help]: the run stopped there, before the size
    check and whatever the other arguments were, and touched nothing.  Or
    the arguments were read to the end, the size was an accepted one, the
    table has the dimensions of the grid, there is one play result per
    requested episode, and the file system is the one the run started with
    except for the [--save] path: no other file changes, nothing changes at
    all unless the run trained and was given a save path, and in that case
    the saved file has [8 + 4*W*H*ACTIONS] bytes. *)
Theorem main_result `{L : Libc} `{C : Strconv} fuel argv now fs o :
  main fuel argv now fs = Val o ->
  match o with
  | Helped => parse_args (tail argv) (default_args now) = None
  | Ran fs' q plays =>
      exists args,
        parse_args (tail argv) (default_args now) = Some args /\
        size_ok (arg_W args) (arg_H args) /\
        qm_w q = arg_W args /\ qm_h q = arg_H args /\
        length plays = Z.to_nat (play_eps args) /\
        fs_denied fs' = fs_denied fs /\
        fs_readonly fs' = fs_readonly fs /\
        (forall p, save_path args <> Some p -> fs_files fs' !! p = fs_files fs !! p) /\
        (train_eps args <= 0 \/ save_path args = None -> fs' = fs) /\
        (forall p, train_eps args > 0 -> save_path args = Some p ->
           exists bs, fs_files fs' !! p = Some bs /\
             Z.of_nat (length bs) = 8 + 4 * (arg_W args * arg_H args * ACTIONS))
  end.
Proof.
  intros E. apply main_Val_inv in E. destruct o as [|fs' q plays]; [exact E|].
  destruct E as (args & Ea & Er). exists args. split; [exact Ea|].
  exact (main_run_result fuel args fs fs' q plays Er).
Qed.

Lemma main_result_witness :
  parse_args (C := ansi_strconv) (tail demo_help_argv) (default_args 0) = None /\
  exists args,
    parse_args (C := ansi_strconv) (tail demo_play_argv) (default_args 42) = Some args /\
    size_ok (arg_W args) (arg_H args) /\
    qm_w demo_table = arg_W args /\ qm_h demo_table = arg_H args /\
    length [(float_of_int (-100), 100)] = Z.to_nat (play_eps args) /\
    fs_denied demo_fs = fs_denied demo_fs /\
    fs_readonly demo_fs = fs_readonly demo_fs /\
    (forall p, save_path args <> Some p -> fs_files demo_fs !! p = fs_files demo_fs !! p) /\
    (train_eps args <= 0 \/ save_path args = None -> demo_fs = demo_fs) /\
    (forall p, train_eps args > 0 -> save_path args = Some p ->
       exists bs, fs_files demo_fs !! p = Some bs /\
         Z.of_nat (length bs) = 8 + 4 * (arg_W args * arg_H args * ACTIONS)).
Proof.
  split.
  - apply (main_result (L := ansi_libc) (C := ansi_strconv) 16 demo_help_argv 0 demo_fs Helped).
    reflexivity.
  - apply (main_result (L := ansi_libc) (C := ansi_strconv) 100 demo_play_argv 42 demo_fs
             (Ran demo_fs demo_table [(float_of_int (-100), 100)])).
    vm_compute. reflexivity.
Defined.

Lemma env_init_ready W H :
  size_ok W H ->
  let env := env_init W H in
  env_wf env /\ env_valid env (start_x env) (start_y env) = true /\
  1 <= step_limit env <= INT_MAX /\ step_limit env = 4 * W * H.
Proof.
  intros Hs env.
  destruct (env_init_layout_run W H Hs) as (Hwf & Hst & _ & _ & _ & Elim & Hlim).
  fold env in Hwf, Hst, Elim, Hlim.
  split; [exact Hwf|]. split; [exact Hst|]. split; [unfold INT_MAX; lia | exact Elim].
Qed.

Lemma main_run_save_refused `{L : Libc} fuel args fs p :
  size_ok (arg_W args) (arg_H args) -> rand_in_range L ->
  (Z.to_nat (4 * arg_W args * arg_H args) <= fuel)%nat ->
  load_path args = None -> 0 < train_eps args < INT_MAX ->
  save_path args = Some p -> p ∈ fs_denied fs \/ p ∈ fs_readonly fs ->
  main_run fuel args fs = Exit 1.
Proof.
  intros Hs Hr Hfuel Hl Ht Hsp Hd. rewrite (main_run_checked _ _ _ Hs), Hl.
  destruct (fresh_table _ _ Hs) as (Ea & Hwf0 & Hfit0).
  destruct (env_init_ready _ _ Hs) as (Hwf & Hst & Hlim & Elim).
  rewrite Ea, bind_Val.
  destruct (Z.gtb_spec (train_eps args) 0); [|lia].
  destruct (train_episodes_bounded Hr (env_init (arg_W args) (arg_H args))
              (arg_alpha args) (arg_gamma args)
              (arg_eps_start args) (arg_eps_min args) (arg_eps_decay args) fuel
              Hwf Hlim Hst ltac:(rewrite Elim; exact Hfuel)
              (episode_indices (train_eps args)) _ (srand (seed args)) Hfit0)
    as (m' & g' & log & Etr & _).
  rewrite train_below by lia. rewrite Etr, bind_Val, Hsp.
  assert (Es : save_qtable fs p m' = Exit 1).
  { destruct Hd as [Hd|Hd]; [|apply save_qtable_readonly; exact Hd].
    unfold save_qtable. destruct (decide (p ∈ fs_denied fs)); [reflexivity | contradiction]. }
  rewrite Es. reflexivity.
Qed.

(** X22. How the arguments decide the exit status.  When the argument
    loop meets [--help] the run ends with status 0 at once, whatever else
    is on the command line.  When the arguments are read to the end, the
    run ends with exit status 1 for a size outside 2..10 in either
    direction, before any file is looked at; for a [--load] file that
    [load_qtable] rejects; and for a [--save] path that cannot be opened
    for writing, which is only found out after the training (of fewer than
    [INT_MAX] episodes) has been done. *)
Theorem main_errors `{L : Libc} `{C : Strconv} fuel argv now fs :
  (parse_args (tail argv) (default_args now) = None ->
   main fuel argv now fs = Val Helped) /\
  (forall args, parse_args (tail argv) (default_args now) = Some args ->
     let W := arg_W args in
     let H := arg_H args in
     (W < 2 \/ H < 2 \/ MAX_W < W \/ MAX_H < H -> main fuel argv now fs = Exit 1) /\
     (forall p, size_ok W H -> load_path args = Some p -> load_qtable fs p = Val None ->
        main fuel argv now fs = Exit 1) /\
     (forall p, size_ok W H -> rand_in_range L -> (Z.to_nat (4 * W * H) <= fuel)%nat ->
        load_path args = None -> 0 < train_eps args < INT_MAX ->
        save_path args = Some p -> p ∈ fs_denied fs \/ p ∈ fs_readonly fs ->
        main fuel argv now fs = Exit 1)).
Proof.
  split.
  - intros E. unfold main. rewrite E. reflexivity.
  - intros args Ea W H. rewrite (main_parsed _ _ _ _ _ Ea). split; [|split].
    + intros Hbad. rewrite (main_run_bad_size fuel args fs Hbad). reflexivity.
    + intros p Hs Hl El. rewrite (main_run_checked _ _ _ Hs), Hl, El. reflexivity.
    + intros p Hs Hr Hfuel Hl Ht Hsp Hd.
      rewrite (main_run_save_refused fuel args fs p Hs Hr Hfuel Hl Ht Hsp Hd). reflexivity.
Qed.

Lemma main_errors_witness :
  main (L := ansi_libc) (C := ansi_strconv) 16 demo_help_argv 0 demo_fs = Val Helped /\
  main (L := ansi_libc) (C := ansi_strconv) 16 demo_train_argv 42 demo_denied_fs = Exit 1 /\
  main (L := ansi_libc) (C := ansi_strconv) 16 demo_train_argv 42 demo_readonly_fs = Exit 1.
Proof.
  split; [|split].
  - apply (proj1 (main_errors (L := ansi_libc) (C := ansi_strconv) 16 demo_help_argv 0 demo_fs)).
    reflexivity.
  - apply (proj2 (proj2 (proj2 (main_errors (L := ansi_libc) (C := ansi_strconv) 16
                                   demo_train_argv 42 demo_denied_fs)
                                demo_train_args eq_refl))
             demo_path);
      [exact size_ok_small | exact ansi_rand_in_range | vm_compute; apply le_n
      | reflexivity | unfold INT_MAX; simpl; lia | reflexivity
      | left; unfold demo_denied_fs; cbn [fs_denied]; apply elem_of_singleton_2; reflexivity].
  - apply (proj2 (proj2 (proj2 (main_errors (L := ansi_libc) (C := ansi_strconv) 16
                                   demo_train_argv 42 demo_readonly_fs)
                                demo_train_args eq_refl))
             demo_path);
      [exact size_ok_small | exact ansi_rand_in_range | vm_compute; apply le_n
      | reflexivity | unfold INT_MAX; simpl; lia | reflexivity
      | right; unfold demo_readonly_fs; cbn [fs_readonly]; apply elem_of_singleton_2;
        reflexivity].
Defined.

(** X23. Training in one run and playing in another.  A run that trains
    from a fresh table (fewer than [INT_MAX] episodes, of training and of
    play) and saves to a path that can be opened for writing and for
    reading ends normally, and the file it leaves loads as exactly the
    table it trained.  A later run on the same size that loads this file
    without training again ends normally with that same table, leaves the
    file system alone, and, asked for the same number of episodes, plays
    exactly what the first run played. *)
Theorem main_train_then_load `{L : Libc} `{C : Strconv} fuel argv now args fs p :
  let W := arg_W args in
  let H := arg_H args in
  parse_args (tail argv) (default_args now) = Some args ->
  size_ok W H -> rand_in_range L -> (Z.to_nat (4 * W * H) <= fuel)%nat ->
  load_path args = None -> 0 < train_eps args < INT_MAX -> play_eps args < INT_MAX ->
  save_path args = Some p -> p ∉ fs_denied fs -> p ∉ fs_readonly fs ->
  exists fs' q plays,
    main fuel argv now fs = Val (Ran fs' q plays) /\
    qmodel_wf q /\
    load_qtable fs' p = Val (Some q) /\
    forall argv2 now2 args2,
      parse_args (tail argv2) (default_args now2) = Some args2 ->
      arg_W args2 = W -> arg_H args2 = H ->
      load_path args2 = Some p -> train_eps args2 <= 0 -> play_eps args2 < INT_MAX ->
      exists plays2,
        main fuel argv2 now2 fs' = Val (Ran fs' q plays2) /\
        (play_eps args2 = play_eps args -> plays2 = plays).
Proof.
  intros W H Ea0 Hs Hr Hfuel Hl Ht Hpe Hsp Hd Hro.
  destruct (fresh_table W H Hs) as (Ea & Hwf0 & Hfit0).
  destruct (env_init_ready W H Hs) as (Hwf & Hst & Hlim & Elim).
  assert (Hfuel' : (Z.to_nat (step_limit (env_init W H)) <= fuel)%nat)
    by (rewrite Elim; exact Hfuel).
  destruct (trained_table_roundtrip (env_init W H) _ (train_eps args) (arg_alpha args)
              (arg_gamma args) (arg_eps_start args) (arg_eps_min args)
              (arg_eps_decay args) (srand (seed args)) fuel fs p
              Hr Hwf Hfit0 Hwf0 Hst Hlim Hfuel' (proj2 Ht) Hd Hro)
    as (q & g' & log & fs' & Etr & Es & El).
  assert (Hsh : qm_w q = W /\ qm_h q = H /\ table_fits (env_init W H) q /\ qmodel_wf q).
  { apply train_shape_run in Etr as (Hw & Hh & _ & Hf & Hq & _).
    split; [exact Hw|]. split; [exact Hh|]. split; [exact (Hf Hfit0) | exact (Hq Hwf0)]. }
  destruct Hsh as (Hqw & Hqh & Hqfit & Hqwf).
  assert (Hplay : forall n, n < INT_MAX -> exists pl,
            (if n >? 0 then play_greedy fuel (env_init W H) q n else Val []) = Val pl).
  { intros n Hn. destruct (n >? 0); [|eexists; reflexivity].
    destruct (play_episodes_bounded (env_init W H) q fuel Hwf Hqfit Hlim Hst Hfuel'
                (episode_indices n)) as (outs & Eo & _).
    exists outs. rewrite play_greedy_below by exact Hn. exact Eo. }
  destruct (Hplay (play_eps args) Hpe) as (plays & Ep).
  exists fs', q, plays. split; [|split; [exact Hqwf|split; [exact El|]]].
  - rewrite (main_parsed _ _ _ _ _ Ea0).
    rewrite (main_run_checked _ _ _ Hs), Hl. fold W H. rewrite Ea, bind_Val.
    destruct (Z.gtb_spec (train_eps args) 0); [|lia].
    rewrite Etr, bind_Val, Hsp, Es, !bind_Val, Ep, !bind_Val. reflexivity.
  - intros argv2 now2 args2 Ea2 EW EH Hl2 Ht2 Hpe2.
    destruct (Hplay (play_eps args2) Hpe2) as (plays2 & Ep2).
    exists plays2. split.
    + rewrite (main_parsed _ _ _ _ _ Ea2).
      rewrite main_run_checked by (rewrite EW, EH; exact Hs).
      rewrite Hl2, El, bind_Val, EW, EH, Hqw, Hqh, !Z.eqb_refl. cbn [negb orb].
      rewrite bind_Val.
      destruct (Z.gtb_spec (train_eps args2) 0); [lia|].
      rewrite bind_Val, Ep2, !bind_Val. reflexivity.
    + intros En. rewrite En in Ep2. rewrite Ep in Ep2. injection Ep2 as <-. reflexivity.
Qed.

Lemma main_train_then_load_witness :
  exists fs' q plays,
    main (L := ansi_libc) (C := ansi_strconv) 16 demo_train_argv 42 demo_fs =
      Val (Ran fs' q plays) /\
    qmodel_wf q /\
    load_qtable fs' demo_path = Val (Some q) /\
    forall argv2 now2 args2,
      parse_args (C := ansi_strconv) (tail argv2) (default_args now2) = Some args2 ->
      arg_W args2 = 2 -> arg_H args2 = 2 ->
      load_path args2 = Some demo_path -> train_eps args2 <= 0 -> play_eps args2 < INT_MAX ->
      exists plays2,
        main (L := ansi_libc) (C := ansi_strconv) 16 argv2 now2 fs' = Val (Ran fs' q plays2) /\
        (play_eps args2 = play_eps demo_train_args -> plays2 = plays).
Proof.
  apply (main_train_then_load (L := ansi_libc) (C := ansi_strconv) 16 demo_train_argv 42
           demo_train_args demo_fs demo_path);
    [reflexivity | exact size_ok_small | exact ansi_rand_in_range | vm_compute; apply le_n
    | reflexivity | unfold INT_MAX; simpl; lia | unfold INT_MAX; simpl; lia | reflexivity
    | apply not_elem_of_empty | apply not_elem_of_empty].
Defined.

(** ** The picture drawn by [render] *)

Lemma upto_length n : length (upto n) = Z.to_nat n.
Proof. unfold upto. rewrite length_map, length_seq. reflexivity. Qed.

Lemma upto_lookup n k : (k < Z.to_nat n)%nat -> upto n !! k = Some (Z.of_nat k).
Proof.
  intros Hk. unfold upto. rewrite list_lookup_fmap, lookup_seq_lt by exact Hk. reflexivity.
Qed.

(** A [flat_map] whose pieces all have length [n] is laid out in blocks. *)
Lemma flat_map_blocks {A B : Type} (f : A -> list B) (n : nat) (l : list A) :
  (forall a, a ∈ l -> length (f a) = n) ->
  length (flat_map f l) = (length l * n)%nat /\
  forall i j a, l !! i = Some a -> (j < n)%nat ->
    flat_map f l !! (i * n + j)%nat = f a !! j.
Proof.
  induction l as [|a0 l IH]; intros Hn.
  - split; [reflexivity|]. intros i j a Hl. rewrite lookup_nil in Hl. discriminate.
  - destruct IH as [IHlen IHlk]; [intros a Ha; apply Hn; right; exact Ha|].
    assert (Hn0 : length (f a0) = n) by (apply Hn; left).
    cbn [flat_map]. split; [rewrite length_app, IHlen, Hn0; cbn; lia|].
    intros i j a Hl Hj. destruct i as [|i].
    + injection Hl as <-. cbn. apply lookup_app_l. lia.
    + cbn in Hl. rewrite lookup_app_r by (rewrite Hn0; cbn; lia).
      rewrite Hn0. replace (S i * n + j - n)%nat with (i * n + j)%nat by (cbn; lia).
      apply IHlk; assumption.
Qed.

Lemma render_row_shape env agent y :
  let w := Z.to_nat (env_w env) in
  length (render_row env agent y) = (2 * w + 1)%nat /\
  (forall j, (j < w)%nat ->
     render_row env agent y !! (2 * j)%nat = Some (render_cell env agent (Z.of_nat j) y) /\
     render_row env agent y !! (2 * j + 1)%nat = Some " "%byte) /\
  render_row env agent y !! (2 * w)%nat = Some newline.
Proof.
  intros w. unfold render_row.
  destruct (flat_map_blocks (fun x => [render_cell env agent x y; " "%byte]) 2 (upto (env_w env)))
    as [Hlen Hlk]; [reflexivity|].
  rewrite upto_length in Hlen. fold w in Hlen.
  split; [rewrite length_app, Hlen; cbn; lia|]. split.
  - intros j Hj.
    pose proof (Hlk j 0%nat _ (upto_lookup _ _ Hj) ltac:(lia)) as H0.
    pose proof (Hlk j 1%nat _ (upto_lookup _ _ Hj) ltac:(lia)) as H1.
    rewrite !lookup_app_l by lia.
    replace (2 * j)%nat with (j * 2 + 0)%nat by lia.
    replace (j * 2 + 0 + 1)%nat with (j * 2 + 1)%nat by lia.
    rewrite H0, H1. split; reflexivity.
  - rewrite lookup_app_r by lia. rewrite Hlen.
    replace (2 * w - w * 2)%nat with 0%nat by lia. reflexivity.
Qed.

Lemma render_defined env agent :
  env_wf env ->
  render env agent = Val (flat_map (render_row env agent) (upto (env_h env))).
Proof.
  intros [Hw Hh]. unfold render.
  destruct (Z.ltb_spec MAX_W (env_w env)); [lia|].
  destruct (Z.ltb_spec MAX_H (env_h env)); [lia|].
  rewrite andb_false_r. reflexivity.
Qed.

Lemma render_layout_run env agent :
  env_wf env ->
  let w := Z.to_nat (env_w env) in
  let h := Z.to_nat (env_h env) in
  exists out,
    render env agent = Val out /\
    length out = (h * (2 * w + 1))%nat /\
    forall i, (i < h)%nat ->
      (forall j, (j < w)%nat ->
         out !! (i * (2 * w + 1) + 2 * j)%nat =
           Some (render_cell env agent (Z.of_nat j) (Z.of_nat i)) /\
         out !! (i * (2 * w + 1) + 2 * j + 1)%nat = Some " "%byte) /\
      out !! (i * (2 * w + 1) + 2 * w)%nat = Some newline.
Proof.
  intros Hwf w h. eexists. split; [apply render_defined; exact Hwf|].
  destruct (flat_map_blocks (render_row env agent) (2 * w + 1) (upto (env_h env)))
    as [Hlen Hlk]; [intros y _; apply render_row_shape|].
  rewrite upto_length in Hlen. fold h in Hlen. split; [exact Hlen|].
  intros i Hi.
  destruct (render_row_shape env agent (Z.of_nat i)) as (_ & Hcells & Hnl). fold w in Hcells, Hnl.
  split.
  - intros j Hj. destruct (Hcells j Hj) as [Hc Hsp].
    rewrite <- Nat.add_assoc.
    rewrite !(Hlk i _ _ (upto_lookup _ _ Hi)) by lia. split; assumption.
  - rewrite (Hlk i _ _ (upto_lookup _ _ Hi)) by lia. exact Hnl.
Qed.

(** X24. On a grid that fits the [walls] array [render] writes [h] lines
    of [2*w + 1] bytes: in line [i], byte [2*j] is the character of the cell
    in column [j] of row [i], byte [2*j + 1] is a space, and the last byte
    is a newline. *)
Theorem render_layout env agent :
  env_wf env ->
  let w := Z.to_nat (env_w env) in
  let h := Z.to_nat (env_h env) in
  exists out,
    render env agent = Val out /\
    length out = (h * (2 * w + 1))%nat /\
    forall i, (i < h)%nat ->
      (forall j, (j < w)%nat ->
         out !! (i * (2 * w + 1) + 2 * j)%nat =
           Some (render_cell env agent (Z.of_nat j) (Z.of_nat i)) /\
         out !! (i * (2 * w + 1) + 2 * j + 1)%nat = Some " "%byte) /\
      out !! (i * (2 * w + 1) + 2 * w)%nat = Some newline.
Proof. apply render_layout_run. Qed.

Lemma render_layout_witness :
  exists out,
    render demo_grid (mkPos 1 0) = Val out /\
    length out = (2 * (2 * 2 + 1))%nat /\
    forall i, (i < 2)%nat ->
      (forall j, (j < 2)%nat ->
         out !! (i * (2 * 2 + 1) + 2 * j)%nat =
           Some (render_cell demo_grid (mkPos 1 0) (Z.of_nat j) (Z.of_nat i)) /\
         out !! (i * (2 * 2 + 1) + 2 * j + 1)%nat = Some " "%byte) /\
      out !! (i * (2 * 2 + 1) + 2 * 2)%nat = Some newline.
Proof.
  apply (render_layout demo_grid (mkPos 1 0)).
  unfold env_wf, MAX_W, MAX_H. simpl. lia.
Defined.

Lemma render_cell_agent env agent x y :
  render_cell env agent x y = "A"%byte <-> x = pos_x agent /\ y = pos_y agent.
Proof.
  unfold render_cell.
  destruct (Z.eqb_spec x (pos_x agent)) as [Hx|Hx], (Z.eqb_spec y (pos_y agent)) as [Hy|Hy];
    cbn [andb];
    destruct ((x =? start_x env) && (y =? start_y env));
    destruct ((x =? goal_x env) && (y =? goal_y env));
    destruct (negb (walls_at env y x =? 0));
    cbn; split; try discriminate; try tauto; intros [? ?]; try contradiction; reflexivity.
Qed.

(** X25. The picture shows the agent where it is and nowhere else: with
    the agent inside the grid, the letter A occurs in the output of
    [render] exactly once, at the place of the agent's cell. *)
Theorem render_agent_once env agent :
  env_wf env -> in_bounds env agent ->
  exists out,
    render env agent = Val out /\
    forall k, out !! k = Some "A"%byte <->
      k = (Z.to_nat (pos_y agent) * (2 * Z.to_nat (env_w env) + 1)
           + 2 * Z.to_nat (pos_x agent))%nat.
Proof.
  intros Hwf [Hx Hy].
  destruct (render_layout_run env agent Hwf) as (out & Eo & Hlen & Hlk).
  exists out. split; [exact Eo|].
  set (w := Z.to_nat (env_w env)) in *. set (h := Z.to_nat (env_h env)) in *.
  intros k. split.
  - intros Hk.
    assert (Hlt : (k < h * (2 * w + 1))%nat)
      by (rewrite <- Hlen; apply lookup_lt_is_Some; eexists; exact Hk).
    pose proof (Nat.div_mod_eq k (2 * w + 1)) as Hdm.
    pose proof (Nat.mod_upper_bound k (2 * w + 1) ltac:(lia)) as Hr.
    set (i := (k / (2 * w + 1))%nat) in *. set (r := (k mod (2 * w + 1))%nat) in *.
    clearbody i r.
    assert (Hi : (i < h)%nat).
    { destruct (Nat.lt_ge_cases i h) as [|Hge]; [assumption|].
      assert (Hm : ((2 * w + 1) * h <= (2 * w + 1) * i)%nat)
        by (apply Nat.mul_le_mono_l; exact Hge).
      lia. }
    destruct (Hlk i Hi) as [Hcells Hnl].
    destruct (Nat.eq_dec r (2 * w)%nat) as [Er|Er].
    + replace k with (i * (2 * w + 1) + 2 * w)%nat in Hk by lia.
      rewrite Hnl in Hk. discriminate.
    + pose proof (Nat.div_mod_eq r 2) as Hdm2.
      pose proof (Nat.mod_upper_bound r 2 ltac:(lia)) as Hr2.
      set (j := (r / 2)%nat) in *. clearbody j.
      assert (Hj : (j < w)%nat) by lia.
      destruct (Hcells j Hj) as [Hc Hsp].
      destruct (Nat.eq_dec (r mod 2)%nat 0%nat) as [E0|E0].
      * replace k with (i * (2 * w + 1) + 2 * j)%nat in Hk |- * by lia.
        rewrite Hc in Hk. injection Hk as Hk.
        apply render_cell_agent in Hk as [Hax Hay].
        rewrite <- Hax, <- Hay, !Nat2Z.id. reflexivity.
      * replace k with (i * (2 * w + 1) + 2 * j + 1)%nat in Hk by lia.
        rewrite Hsp in Hk. discriminate.
  - intros ->.
    destruct (Hlk (Z.to_nat (pos_y agent)) ltac:(unfold h; lia)) as [Hcells _].
    destruct (Hcells (Z.to_nat (pos_x agent)) ltac:(unfold w; lia)) as [Hc _].
    rewrite Hc. f_equal. apply render_cell_agent. lia.
Qed.

Lemma render_agent_once_witness :
  exists out,
    render demo_grid (mkPos 1 0) = Val out /\
    forall k, out !! k = Some "A"%byte <->
      k = (Z.to_nat 0 * (2 * Z.to_nat (env_w demo_grid) + 1) + 2 * Z.to_nat 1)%nat.
Proof.
  apply (render_agent_once demo_grid (mkPos 1 0)).
  - unfold env_wf, MAX_W, MAX_H. simpl. lia.
  - unfold in_bounds. simpl. lia.
Defined.

(** X26. Which character a cell gets when several apply: the agent is
    drawn over everything, the start over the goal and over a wall, the
    goal over a wall, and a cell that is none of these is '#' for a wall
    and '.' otherwise. *)
Theorem render_cell_priority env agent x y :
  let at_agent := x = pos_x agent /\ y = pos_y agent in
  let at_start := x = start_x env /\ y = start_y env in
  let at_goal := x = goal_x env /\ y = goal_y env in
  (at_agent -> render_cell env agent x y = "A"%byte) /\
  (~ at_agent -> at_start -> render_cell env agent x y = "S"%byte) /\
  (~ at_agent -> ~ at_start -> at_goal -> render_cell env agent x y = "G"%byte) /\
  (~ at_agent -> ~ at_start -> ~ at_goal ->
     render_cell env agent x y = if walls_at env y x =? 0 then "."%byte else "#"%byte).
Proof.
  unfold render_cell.
  destruct (Z.eqb_spec x (pos_x agent)) as [Hx|Hx], (Z.eqb_spec y (pos_y agent)) as [Hy|Hy];
    destruct (Z.eqb_spec x (start_x env)) as [Hsx|Hsx], (Z.eqb_spec y (start_y env)) as [Hsy|Hsy];
    destruct (Z.eqb_spec x (goal_x env)) as [Hgx|Hgx], (Z.eqb_spec y (goal_y env)) as [Hgy|Hgy];
    destruct (walls_at env y x =? 0);
    cbn; repeat split; intros; try reflexivity; tauto.
Qed.

Lemma render_cell_priority_witness :
  render_cell demo_grid (mkPos 1 0) 0 0 = "S"%byte.
Proof.
  apply (proj1 (proj2 (render_cell_priority demo_grid (mkPos 1 0) 0 0)));
    [vm_compute; intros [E _]; discriminate E | split; reflexivity].
Defined.

(** ** The statistics lines of [train] *)

Lemma train_report_skip : forall chunk rest ep a b,
  0 < ep -> ep + Z.of_nat (length chunk) <= INT_MAX ->
  (forall i, 0 <= i < Z.of_nat (length chunk) -> (ep + i) mod 100 <> 0) ->
  train_report ep a b (chunk ++ rest) =
    train_report (ep + Z.of_nat (length chunk))
      (foldl (fun acc sr => dadd acc (double_of_int sr.1)) a chunk)
      (foldl (fun acc sr => dadd acc (double_of_float sr.2)) b chunk) rest.
Proof.
  induction chunk as [|[st rt] chunk IH]; intros rest ep a b Hep Hmax Hno.
  - cbn. rewrite Z.add_0_r. reflexivity.
  - cbn [app train_report foldl length fst snd].
    rewrite Z.rem_mod_nonneg by lia.
    destruct (Z.eqb_spec (ep mod 100) 0) as [E|_].
    + exfalso. apply (Hno 0); [cbn [length]; lia | rewrite Z.add_0_r; exact E].
    + cbn [length] in Hmax.
      rewrite wrap_int_id by (unfold is_int, INT_MIN, INT_MAX in *; lia).
      rewrite IH; [f_equal; lia | lia | lia |].
      intros i Hi. replace (ep + 1 + i) with (ep + (i + 1)) by lia.
      apply Hno. cbn [length]. lia.
Qed.

Lemma foldl_snoc {A B : Type} (f : A -> B -> A) a l x :
  foldl f a (l ++ [x]) = f (foldl f a l) x.
Proof. revert a. induction l as [|y l IH]; intros a; [reflexivity | apply IH]. Qed.

Lemma train_report_block k log :
  0 <= k -> 100 * k + 100 < INT_MAX -> (100 <= length log)%nat ->
  train_report (100 * k + 1) dzero dzero log =
    (100 * (k + 1), (block_stats (take 100 log)).1, (block_stats (take 100 log)).2)
    :: train_report (100 * (k + 1) + 1) dzero dzero (drop 100 log).
Proof.
  intros Hk Hmax Hlen.
  assert (Hsplit : log = take 99 log ++ drop 99 log) by (symmetry; apply take_drop).
  destruct (drop 99 log) as [|[st rt] rest] eqn:Ed.
  { apply (f_equal length) in Ed. rewrite length_drop in Ed. cbn in Ed. lia. }
  assert (Ht100 : take 100 log = take 99 log ++ [(st, rt)]).
  { replace 100%nat with (S 99) by reflexivity.
    erewrite take_S_r; [reflexivity|].
    rewrite <- (Nat.add_0_r 99), <- lookup_drop, Ed. reflexivity. }
  assert (Hd100 : drop 100 log = rest).
  { replace 100%nat with (99 + 1)%nat by reflexivity. rewrite <- drop_drop, Ed. reflexivity. }
  rewrite Ht100, Hd100. rewrite Hsplit at 1.
  assert (Hl99 : length (take 99 log) = 99%nat) by (rewrite length_take; lia).
  rewrite train_report_skip; rewrite ?Hl99; [| lia | lia |].
  - replace (100 * k + 1 + Z.of_nat 99) with (100 * (k + 1)) by lia.
    cbn [train_report].
    replace (Z.rem (100 * (k + 1)) 100) with 0
      by (rewrite Z.rem_mod_nonneg by lia; rewrite Z.mul_comm, Z.mod_mul by lia; reflexivity).
    cbn [Z.eqb].
    rewrite wrap_int_id by (unfold is_int, INT_MIN, INT_MAX in *; lia).
    unfold block_stats. rewrite !foldl_snoc. reflexivity.
  - intros i Hi. replace (100 * k + 1 + i) with ((i + 1) + k * 100) by lia.
    rewrite Z.mod_add by lia. rewrite Z.mod_small by lia. lia.
Qed.

Lemma train_report_short k log :
  0 <= k -> 100 * k + 100 < INT_MAX -> (length log < 100)%nat ->
  train_report (100 * k + 1) dzero dzero log = [].
Proof.
  intros Hk Hmax Hlen.
  rewrite <- (app_nil_r log). rewrite train_report_skip; [reflexivity | lia | lia |].
  intros i Hi. replace (100 * k + 1 + i) with ((i + 1) + k * 100) by lia.
  rewrite Z.mod_add by lia. rewrite Z.mod_small by lia. lia.
Qed.

Lemma train_report_from n : forall log k,
  (length log <= n)%nat -> 0 <= k -> 100 * k + Z.of_nat (length log) < INT_MAX - 100 ->
  let rep := train_report (100 * k + 1) dzero dzero log in
  length rep = (length log / 100)%nat /\
  forall j, (j < length log / 100)%nat ->
    rep !! j = Some (100 * (k + Z.of_nat j + 1),
                     (block_stats (take 100 (drop (100 * j) log))).1,
                     (block_stats (take 100 (drop (100 * j) log))).2).
Proof.
  induction n as [|n IH]; intros log k Hn Hk Hmax rep.
  - destruct log; [|cbn in Hn; lia]. split; [reflexivity|]. intros j Hj. cbn in Hj. lia.
  - destruct (Nat.lt_ge_cases (length log) 100) as [Hshort|Hlong].
    + unfold rep. rewrite train_report_short by lia.
      rewrite Nat.div_small by exact Hshort. split; [reflexivity|]. intros j Hj. lia.
    + unfold rep. rewrite train_report_block by lia.
      assert (Hdl : length (drop 100 log) = (length log - 100)%nat) by apply length_drop.
      destruct (IH (drop 100 log) (k + 1)) as [Hlen Hlk]; [lia | lia | lia |].
      assert (Hdiv : (length log / 100 = S ((length log - 100) / 100))%nat).
      { replace (length log) with ((length log - 100) + 1 * 100)%nat at 1 by lia.
        rewrite Nat.div_add by lia. lia. }
      split; [cbn [length]; rewrite Hlen, Hdl, Hdiv; reflexivity|].
      intros j Hj. destruct j as [|j].
      * cbn [lookup list_lookup]. rewrite Nat.mul_0_r, drop_0.
        replace (k + Z.of_nat 0 + 1) with (k + 1) by lia. reflexivity.
      * cbn [lookup list_lookup]. rewrite Hlk by (rewrite Hdl; lia).
        rewrite drop_drop.
        replace (100 + 100 * j)%nat with (100 * S j)%nat by lia.
        replace (k + 1 + Z.of_nat j + 1) with (k + Z.of_nat (S j) + 1) by lia.
        reflexivity.
Qed.

(** X27. The statistics of a training run.  [train] prints one line for
    every complete block of 100 episodes and none for the episodes after
    the last complete block; line [j] carries the episode number
    [100*(j+1)] and the two averages over episodes [100*j+1 .. 100*(j+1)]
    alone, each summed in order from zero and divided by 100: the
    accumulators start afresh after every line. *)
Theorem train_report_blocks `{L : Libc} fuel env m episodes alpha gamma es em ed g m' g' log :
  episodes < INT_MAX - 100 ->
  train fuel env m episodes alpha gamma es em ed g = Val (m', g', log) ->
  let rep := train_report 1 dzero dzero log in
  length rep = (Z.to_nat episodes / 100)%nat /\
  forall j, (j < Z.to_nat episodes / 100)%nat ->
    rep !! j = Some (100 * (Z.of_nat j + 1),
                     (block_stats (take 100 (drop (100 * j) log))).1,
                     (block_stats (take 100 (drop (100 * j) log))).2).
Proof.
  intros Hmax E rep.
  apply train_shape_run in E as (_ & _ & _ & _ & _ & Hlen & _).
  assert (Hb : 100 * 0 + Z.of_nat (length log) < INT_MAX - 100)
    by (unfold INT_MAX in *; lia).
  destruct (train_report_from (length log) log 0 ltac:(lia) ltac:(lia) Hb)
    as [Hl Hlk].
  rewrite Hlen in Hl, Hlk. split; [exact Hl|].
  intros j Hj. unfold rep. change 1 with (100 * 0 + 1) at 1. rewrite (Hlk j Hj).
  reflexivity.
Qed.

Lemma train_report_blocks_witness :
  let rep := train_report 1 dzero dzero demo_trained.2 in
  length rep = (Z.to_nat 100 / 100)%nat /\
  forall j, (j < Z.to_nat 100 / 100)%nat ->
    rep !! j = Some (100 * (Z.of_nat j + 1),
                     (block_stats (take 100 (drop (100 * j) demo_trained.2))).1,
                     (block_stats (take 100 (drop (100 * j) demo_trained.2))).2).
Proof.
  apply (train_report_blocks (L := ansi_libc) 16 demo_grid demo_blank 100 demo_alpha demo_gamma
           fone demo_eps_min demo_eps_decay (ansi_srand 42)
           demo_trained.1.1 demo_trained.1.2 demo_trained.2).
  - unfold INT_MAX. lia.
  - exact demo_training_run.
Defined.
